(** * The database entity loader of the persistence layer

    A shallow embedding of [src/persistment/DatabaseEntityLoader.ts]: the
    walk that collects the subjects of a persist operation (cascades of
    inserts and updates), the batched load of their database state, and the
    walk that looks for entities removed by cascades.

    JavaScript objects are property maps, the loader's mutable subjects live
    in a store addressed by their allocation index, and the subject
    collection is the list of the addresses pushed into it, so that two
    entries of the collection can be one and the same subject.

    The asynchronous code runs as JavaScript runs it: a callback runs without
    interruption up to the read it awaits, the callbacks joined by
    [Promise.all] are all started before any of their reads is answered, and
    each goes on when its read is answered, at the moment the connection
    chooses.  A rejection reaches [load] as it occurs and stops none of the
    callbacks in flight. *)

From stdpp Require Import base option list strings gmap.
From Stdlib Require Import ZArith.

(* ------------------------------------------------------------------------- *)
(** ** Values and object literals *)

(** Index of a persisted entity in the object graph handed to [load]. *)
Definition Ref := nat.

(** The JavaScript values that entities hold in their properties. *)
Inductive Value : Type :=
| VUndefined
| VNull
| VBool (b : bool)
| VNum (n : Z)
| VStr (s : string)
| VRef (r : Ref).

#[global] Instance Value_eq_dec : EqDecision Value.
Proof. solve_decision. Defined.

(** [ObjectLiteral]: a map from property names to values. *)
Definition ObjectLiteral := gmap string Value.

(** [entity[propertyName]]: a missing property reads as [undefined]. *)
Definition getProperty (entity : ObjectLiteral) (propertyName : string) : Value :=
  default VUndefined (entity !! propertyName).

(** The persisted object graph: entities refer to each other by reference,
    so a graph may be cyclic or share entities. *)
Definition EntityHeap := list ObjectLiteral.

(** The object a value denotes.  A primitive value has no properties of its
    own; a reference outside the graph denotes the empty object. *)
Definition derefObject (heap : EntityHeap) (value : Value) : ObjectLiteral :=
  match value with
  | VRef r => default ∅ (heap !! r)
  | _ => ∅
  end.

(** JavaScript's ToBoolean, as used by [if (x)] and [!!x]. *)
Definition truthy (value : Value) : bool :=
  match value with
  | VUndefined | VNull => false
  | VBool b => b
  | VNum n => negb (n =? 0)%Z
  | VStr s => negb (bool_decide (s = ""%string))
  | VRef _ => true
  end.

(** Strict equality [===]. *)
Definition strictEq (x y : Value) : bool := bool_decide (x = y).

(** [x !== null && x !== undefined]. *)
Definition isPresent (value : Value) : bool :=
  negb (strictEq value VNull) && negb (strictEq value VUndefined).

(* ------------------------------------------------------------------------- *)
(** ** Metadata *)

Definition Target := string.

(** The cardinality and ownership of a relation. *)
Inductive RelationType : Type :=
| ManyToOne
| OneToOneOwner
| OneToOneNotOwner
| OneToMany.

(** Modelled from the spec: the class RelationMetadata is not part of the
    sources at hand.  The relation descriptor exposes its cardinality, its
    three cascade flags, the entity type on the other side, the names the
    loader puts in its queries, and the two accessors of relation
    identifiers, which the loader consumes as they are. *)
Record RelationMetadata : Type := {
  propertyName : string;
  relationType : RelationType;
  isCascadeInsert : bool;
  isCascadeUpdate : bool;
  isCascadeRemove : bool;
  inverseTarget : Target;
  joinColumnReferencedProperty : string;
  inverseSideProperty : string;
  getOwnEntityRelationId : ObjectLiteral → Value;
  getInverseEntityRelationId : ObjectLiteral → Value
}.

Definition isManyToOne (relation : RelationMetadata) : bool :=
  match relationType relation with ManyToOne => true | _ => false end.

Definition isOneToOneOwner (relation : RelationMetadata) : bool :=
  match relationType relation with OneToOneOwner => true | _ => false end.

Definition isOneToOneNotOwner (relation : RelationMetadata) : bool :=
  match relationType relation with OneToOneNotOwner => true | _ => false end.

(** Modelled from the spec: [relation.getEntityValue(entity)] reads the
    relation's property of the entity. *)
Definition getEntityValue (relation : RelationMetadata) (entity : ObjectLiteral) : Value :=
  getProperty entity (propertyName relation).

(** Modelled from the spec: [relation.isEntityDefined(value)] holds of a real
    entity reference, and of nothing else. *)
Definition isEntityDefined (value : Value) : bool :=
  match value with VRef _ => true | _ => false end.

(** Modelled from the spec: the class EntityMetadata is not part of the
    sources at hand.  It gives the entity type, the name of its table, the
    property that holds the primary key and the relation descriptors. *)
Record EntityMetadata : Type := {
  target : Target;
  tableName : string;
  primaryProperty : string;
  relations : list RelationMetadata
}.

(** The result of a call to the repository. *)
Inductive Fetch (A : Type) : Type :=
| FetchOk (rows : A)
| FetchFail (reason : string).
Arguments FetchOk {A} rows.
Arguments FetchFail {A} reason.

(** Modelled from the spec: the connection resolves the metadata of an entity
    type and answers the two kinds of reads the loader issues, a batch by
    identifiers and a single row selected by [alias.column = :id].  It
    answers the reads when it chooses to: [answerTime n] is the moment of the
    answer to the read issued as the [n]-th, counted from 0, so that of the
    reads in flight the one with the least moment is answered first. *)
Record Connection : Type := {
  getMetadata : Target → EntityMetadata;
  findByIds : Target → list Value → Fetch (list ObjectLiteral);
  getSingleResult : Target → string → Value → Fetch (option ObjectLiteral);
  answerTime : nat → nat
}.

(** A read issued to the repository. *)
Inductive Query : Type :=
| QFindByIds (entityTarget : Target) (alias : string) (ids : list Value)
| QSingleResult (entityTarget : Target) (alias column : string) (id : Value).

(** The failure the connection answers a read with, if it does. *)
Definition queryFailure (connection : Connection) (q : Query) : option string :=
  match q with
  | QFindByIds t _ ids =>
      match findByIds connection t ids with FetchFail f => Some f | FetchOk _ => None end
  | QSingleResult t _ column id =>
      match getSingleResult connection t column id with
      | FetchFail f => Some f
      | FetchOk _ => None
      end
  end.

(* ------------------------------------------------------------------------- *)
(** ** Subjects and the loader's state *)

(** Modelled from the spec: the class Subject is not part of the sources at
    hand.  A subject pairs the persisted entity with the entity loaded from
    the database, either of which may be missing, and carries the removal
    mark. *)
Record Subject : Type := {
  metadata : EntityMetadata;
  entity : option ObjectLiteral;
  databaseEntity : option ObjectLiteral;
  markedAsRemoved : bool
}.

Definition entityTarget (subject : Subject) : Target := target (metadata subject).

(** Modelled from the spec: the identifier of a subject is the primary key of
    its persisted entity, or of its database entity when it has no persisted
    one. *)
Definition mixedId (subject : Subject) : Value :=
  match entity subject, databaseEntity subject with
  | Some e, _ => getProperty e (primaryProperty (metadata subject))
  | None, Some d => getProperty d (primaryProperty (metadata subject))
  | None, None => VUndefined
  end.

(** Address of a subject: the index it was allocated at. *)
Definition SubjectAddr := nat.

(** The state of a loader: every subject created so far, the subject
    collection [loadMap] as the addresses pushed into it, in order, and the
    reads issued so far. *)
Record LoaderState : Type := {
  subjects : list Subject;
  loadMap : list SubjectAddr;
  queries : list Query
}.

Definition initialState : LoaderState :=
  {| subjects := []; loadMap := []; queries := [] |}.

(** Why a [load] rejects: a read failed, or a property was read from an
    entity that is [undefined]. *)
Inductive LoadError : Type :=
| FetchError (reason : string)
| AbsentEntityRead.

(** The outcome of a computation of the loader, with the state it has
    brought the loader to.  [OutOfFuel] stands for a computation that was cut
    at the depth of recursion it was allowed.  [Awaiting] is a computation
    that waits: [read] is the rank, among the reads issued, of the first of
    its reads in flight that will be answered, and [resume] is how it goes on
    from the state the loader is in at that moment, which the callbacks that
    ran in between may have changed.  [rejected] holds the error when the
    promise of the computation is rejected already and only the callbacks it
    has started go on. *)
Inductive Outcome (A : Type) : Type :=
| Resolved (result : A) (st : LoaderState)
| Rejected (error : LoadError) (st : LoaderState)
| OutOfFuel (st : LoaderState)
| Awaiting (rejected : option LoadError) (read : nat)
    (resume : LoaderState → Outcome A) (st : LoaderState).
Arguments Resolved {A} result st.
Arguments Rejected {A} error st.
Arguments OutOfFuel {A} st.
Arguments Awaiting {A} rejected read resume st.

Definition Loader (A : Type) : Type := LoaderState → Outcome A.

Definition ret {A} (a : A) : Loader A := fun st => Resolved a st.

(** What follows a computation: at once when it has resolved, when it is
    resumed and resolves when it waits, never when it rejects. *)
Fixpoint andThen {A B} (o : Outcome A) (k : A → Loader B) : Outcome B :=
  match o with
  | Resolved a st => k a st
  | Rejected e st => Rejected e st
  | OutOfFuel st => OutOfFuel st
  | Awaiting rejected read resume st =>
      Awaiting rejected read (fun st' => andThen (resume st') k) st
  end.

Definition bind {A B} (m : Loader A) (k : A → Loader B) : Loader B :=
  fun st => andThen (m st) k.

Definition reject {A} (e : LoadError) : Loader A := fun st => Rejected e st.

Definition outOfFuel {A} : Loader A := fun st => OutOfFuel st.

Declare Scope loader_scope.
Delimit Scope loader_scope with loader.
Notation "'let*' x ':=' m 'in' k" := (bind m (fun x => k))
  (at level 10, x name, m at level 100, k at level 200) : loader_scope.
Notation "m >> k" := (bind m (fun _ => k))
  (at level 62, right associativity) : loader_scope.
Open Scope loader_scope.

(** [list.forEach(callback)]. *)
Fixpoint forEach {A} (l : list A) (callback : A → Loader unit) : Loader unit :=
  match l with
  | [] => ret tt
  | x :: l' => callback x >> forEach l' callback
  end.

Definition outcomeState {A} (o : Outcome A) : LoaderState :=
  match o with
  | Resolved _ st | Rejected _ st | OutOfFuel st | Awaiting _ _ _ st => st
  end.

(** The error a computation has rejected with, if it has. *)
Definition rejection {A} (o : Outcome A) : option LoadError :=
  match o with
  | Rejected e _ => Some e
  | Awaiting rejected _ _ _ => rejected
  | Resolved _ _ | OutOfFuel _ => None
  end.

(** Of two errors the one that occurred first. *)
Definition firstOf (earlier later : option LoadError) : option LoadError :=
  match earlier with
  | Some e => Some e
  | None => later
  end.

(** The event loop: a computation that waits is resumed, its reads being
    answered one after the other, until nothing it has started is in flight
    any more. *)
Fixpoint complete {A} (o : Outcome A) : Outcome A :=
  match o with
  | Awaiting _ _ resume st => complete (resume st)
  | Resolved _ _ | Rejected _ _ | OutOfFuel _ => o
  end.

(** [new Subject(metadata, entity, databaseEntity)]. *)
Definition newSubject (md : EntityMetadata) (e d : option ObjectLiteral) : Loader SubjectAddr :=
  fun st =>
    Resolved (length (subjects st))
      {| subjects := subjects st ++
           [{| metadata := md; entity := e; databaseEntity := d; markedAsRemoved := false |}];
         loadMap := loadMap st;
         queries := queries st |}.

(** The subject at an address.  The loader only holds addresses it has
    allocated; an address without a subject reads as [None] and is then left
    alone. *)
Definition readSubject (a : SubjectAddr) : Loader (option Subject) :=
  fun st => Resolved (subjects st !! a) st.

(** [subject.databaseEntity = entity]. *)
Definition setDatabaseEntity (a : SubjectAddr) (d : ObjectLiteral) : Loader unit :=
  fun st =>
    Resolved tt
      {| subjects :=
           alter (fun s => {| metadata := metadata s; entity := entity s;
                              databaseEntity := Some d;
                              markedAsRemoved := markedAsRemoved s |}) a (subjects st);
         loadMap := loadMap st;
         queries := queries st |}.

(** [subject.markedAsRemoved = true]. *)
Definition markAsRemoved (a : SubjectAddr) : Loader unit :=
  fun st =>
    Resolved tt
      {| subjects :=
           alter (fun s => {| metadata := metadata s; entity := entity s;
                              databaseEntity := databaseEntity s;
                              markedAsRemoved := true |}) a (subjects st);
         loadMap := loadMap st;
         queries := queries st |}.

(* ------------------------------------------------------------------------- *)
(** ** The subject collection *)

(** The subjects of the collection with their addresses, in order. *)
Definition collected (st : LoaderState) : list (SubjectAddr * Subject) :=
  omap (fun a => s ← subjects st !! a; Some (a, s)) (loadMap st).

(** The type and identifier a subject stands for. *)
Definition subjectKey (subject : Subject) : Target * Value :=
  (entityTarget subject, mixedId subject).

(** Modelled from the spec: [push] appends unconditionally. *)
Definition push (a : SubjectAddr) : Loader unit :=
  fun st =>
    Resolved tt
      {| subjects := subjects st; loadMap := loadMap st ++ [a]; queries := queries st |}.

(** Modelled from the spec: [find] is a linear lookup, the first subject of
    the collection that satisfies the predicate. *)
Definition find (predicate : Subject → bool) : Loader (option SubjectAddr) :=
  fun st =>
    Resolved (fst <$> head (filter (fun p => predicate (snd p) = true) (collected st))) st.

(** Modelled from the spec: [pushIfNotExist] appends only if no subject of
    the collection has the same type and identifier. *)
Definition pushIfNotExist (a : SubjectAddr) : Loader unit :=
  let* s := readSubject a in
  match s with
  | None => ret tt
  | Some subject =>
      let* existing :=
        find (fun other => bool_decide (subjectKey other = subjectKey subject)) in
      match existing with
      | Some _ => ret tt
      | None => push a
      end
  end.

(** Modelled from the spec: [findByEntityLike] looks the collection up for the
    subject of the given type whose identifier is that of the sample
    entity. *)
Definition findByEntityLike (t : Target) (sample : ObjectLiteral)
  : Loader (option SubjectAddr) :=
  find (fun subject =>
          bool_decide (entityTarget subject = t) &&
          strictEq (mixedId subject)
                   (getProperty sample (primaryProperty (metadata subject)))).

(** Modelled from the spec: [groupByEntityTargets] gives one group per entity
    type, in the order the types first appear, each with its subjects. *)
Fixpoint addToGroup (subject : Subject) (groups : list (Target * list Subject))
  : list (Target * list Subject) :=
  match groups with
  | [] => [(entityTarget subject, [subject])]
  | (t, members) :: groups' =>
      if decide (t = entityTarget subject)
      then (t, members ++ [subject]) :: groups'
      else (t, members) :: addToGroup subject groups'
  end.

Definition groupByEntityTargets : Loader (list (Target * list Subject)) :=
  fun st => Resolved (foldl (fun groups p => addToGroup (snd p) groups) [] (collected st)) st.

(* ------------------------------------------------------------------------- *)
(** ** The loader *)

Section DatabaseEntityLoader.

(** The connection the loader is constructed with, and the object graph
    the persisted entity lives in. *)
Context (connection : Connection) (heap : EntityHeap).

(** [relation.inverseEntityMetadata], resolved through the connection. *)
Definition inverseEntityMetadata (relation : RelationMetadata) : EntityMetadata :=
  getMetadata connection (inverseTarget relation).

(** Modelled from the spec: [extractRelationValuesFromEntity] gives, for
    each relation, the relation, its value in the entity and the metadata
    of the related entity type. *)
Definition extractRelationValuesFromEntity (e : ObjectLiteral)
    (rels : list RelationMetadata) : list (RelationMetadata * Value * EntityMetadata) :=
  (fun relation =>
     (relation, getEntityValue relation e, inverseEntityMetadata relation)) <$> rels.

(** The condition under which the first walk follows a relation. *)
Definition cascadesInsertOrUpdate (relation : RelationMetadata) (value : Value) : bool :=
  isEntityDefined value && (isCascadeInsert relation || isCascadeUpdate relation).

(** The callback of [findCascadeUpdateAndInsertEntitiesToLoad], with the
    recursive call as a parameter. *)
Definition visitRelationValue
    (recurse : ObjectLiteral → EntityMetadata → Loader unit)
    (triple : RelationMetadata * Value * EntityMetadata) : Loader unit :=
  let '(relation, value, valueMetadata) := triple in
  if cascadesInsertOrUpdate relation value then
    let* subject := newSubject valueMetadata (Some (derefObject heap value)) None in
    pushIfNotExist subject >>
    recurse (derefObject heap value) valueMetadata
  else ret tt.

(** [findCascadeUpdateAndInsertEntitiesToLoad(entity, metadata)].  The fuel
    bounds the depth of the recursion. *)
Fixpoint findCascadeUpdateAndInsertEntitiesToLoad (fuel : nat)
    (e : ObjectLiteral) (md : EntityMetadata) : Loader unit :=
  match fuel with
  | 0 => outOfFuel
  | S fuel' =>
      forEach (extractRelationValuesFromEntity e (relations md))
        (visitRelationValue (findCascadeUpdateAndInsertEntitiesToLoad fuel'))
  end.

(** A read through the connection: it is issued and recorded in the state,
    and the computation waits for the answer. *)
Definition runFindByIds (t : Target) (alias : string) (ids : list Value)
  : Loader (list ObjectLiteral) :=
  fun st =>
    Awaiting None (length (queries st))
      (fun st' =>
         match findByIds connection t ids with
         | FetchOk rows => Resolved rows st'
         | FetchFail f => Rejected (FetchError f) st'
         end)
      {| subjects := subjects st; loadMap := loadMap st;
         queries := queries st ++ [QFindByIds t alias ids] |}.

Definition runGetSingleResult (t : Target) (alias column : string) (id : Value)
  : Loader (option ObjectLiteral) :=
  fun st =>
    Awaiting None (length (queries st))
      (fun st' =>
         match getSingleResult connection t column id with
         | FetchOk row => Resolved row st'
         | FetchFail f => Rejected (FetchError f) st'
         end)
      {| subjects := subjects st; loadMap := loadMap st;
         queries := queries st ++ [QSingleResult t alias column id] |}.

(** Of two reads in flight, the first is answered no later than the
    second. *)
Definition answeredBefore (read other : nat) : bool :=
  answerTime connection read <=? answerTime connection other.

(** Two computations in flight at once, the first started before the
    second, in the state [st] that the start of both has led to.  The one
    whose read is answered first goes on up to its next read, and so on until
    both have ended; [first] is the error that occurred first so far.  The
    whole resolves when both have resolved, and rejects as soon as one
    rejects, while the other goes on. *)
Fixpoint join (o1 : Outcome unit)
  : option LoadError → Outcome unit → LoaderState → Outcome unit :=
  fix joinSecond (first : option LoadError) (o2 : Outcome unit) (st : LoaderState)
    : Outcome unit :=
    match o1, o2 with
    | OutOfFuel _, _ => OutOfFuel st
    | _, OutOfFuel _ => OutOfFuel st
    | Awaiting _ read1 resume1 _, Awaiting _ read2 resume2 _ =>
        if answeredBefore read1 read2
        then Awaiting first read1
               (fun st' =>
                  let o1' := resume1 st' in
                  join o1' (firstOf first (rejection o1')) o2 (outcomeState o1')) st
        else Awaiting first read2
               (fun st' =>
                  let o2' := resume2 st' in
                  joinSecond (firstOf first (rejection o2')) o2' (outcomeState o2')) st
    | Awaiting _ read1 resume1 _, _ =>
        Awaiting first read1
          (fun st' =>
             let o1' := resume1 st' in
             join o1' (firstOf first (rejection o1')) o2 (outcomeState o1')) st
    | _, Awaiting _ read2 resume2 _ =>
        Awaiting first read2
          (fun st' =>
             let o2' := resume2 st' in
             joinSecond (firstOf first (rejection o2')) o2' (outcomeState o2')) st
    | _, _ =>
        match first with
        | Some e => Rejected e st
        | None => Resolved tt st
        end
    end.

(** [Promise.all(list.map(callback))]: the callbacks are started in the
    order of the list, each running up to its first read, and then go on
    together. *)
Fixpoint all {A} (l : list A) (callback : A → Loader unit) : Loader unit :=
  fun st =>
    match l with
    | [] => Resolved tt st
    | x :: l' =>
        let o := callback x st in
        let rest := all l' callback (outcomeState o) in
        join o (firstOf (rejection o) (rejection rest)) rest (outcomeState rest)
    end.

(** [populateSubjectCollectionWithDatabaseEntities(this.loadMap)]. *)
Definition populateSubjectCollectionWithDatabaseEntities : Loader unit :=
  let* groups := groupByEntityTargets in
  all groups (fun subjectGroup =>
    let allIds := map mixedId (snd subjectGroup) in
    let md := getMetadata connection (fst subjectGroup) in
    let* entities := runFindByIds (fst subjectGroup) (tableName md) allIds in
    forEach entities (fun row =>
      let* subject := findByEntityLike (target md) row in
      match subject with
      | Some a => setDatabaseEntity a row
      | None => ret tt
      end)).

(** The value compared with the database state of a relation: [None] when
    the callback returns because the value is [undefined]. *)
Definition persistValueRelationId (relation : RelationMetadata) (subject : Subject)
  : option Value :=
  match entity subject with
  | None => Some VNull
  | Some e =>
      let value := getEntityValue relation e in
      let value' :=
        if truthy value
        then getInverseEntityRelationId relation (derefObject heap value)
        else value in
      if strictEq value' VUndefined then None else Some value'
  end.

(** The predicate of [this.loadMap.find] in both branches. *)
Definition isLoadedRelated (relation : RelationMetadata) (relationIdInDatabaseEntity : Value)
    (relatedSubject : Subject) : bool :=
  match databaseEntity relatedSubject with
  | None => false
  | Some d =>
      if negb (bool_decide (entityTarget relatedSubject =
                            target (inverseEntityMetadata relation)))
      then false
      else strictEq (getInverseEntityRelationId relation d) relationIdInDatabaseEntity
  end.

(** The related entity is not in the collection: it is read from the
    database and, when there is a row, wrapped in a new subject.  The
    [subject] pushed is the one under examination.  [id] is the parameter
    of the query. *)
Definition loadRelatedSubject (subject : SubjectAddr) (relation : RelationMetadata)
    (column : string) (id : Value) : Loader (option SubjectAddr) :=
  let valueMetadata := inverseEntityMetadata relation in
  let qbAlias := tableName valueMetadata in
  let* row := runGetSingleResult (target valueMetadata) qbAlias column id in
  match row with
  | Some d =>
      let* related := newSubject valueMetadata None (Some d) in
      push subject >>
      ret (Some related)
  | None => ret None
  end.

(** The branch of a one-to-one owner or many-to-one relation. *)
Definition checkOwnerRelation (recurse : SubjectAddr → Loader unit)
    (subject : SubjectAddr) (relation : RelationMetadata)
    (dbEntity : ObjectLiteral) (persistValue : Value) : Loader unit :=
  let relationIdInDatabaseEntity := getOwnEntityRelationId relation dbEntity in
  if isPresent relationIdInDatabaseEntity then ret tt
  else if strictEq persistValue VNull || strictEq persistValue relationIdInDatabaseEntity
  then ret tt
  else
    let* found := find (isLoadedRelated relation relationIdInDatabaseEntity) in
    let* alreadyLoadedRelatedDatabaseSubject :=
      match found with
      | Some a => ret (Some a)
      | None =>
          loadRelatedSubject subject relation (joinColumnReferencedProperty relation)
            (getOwnEntityRelationId relation dbEntity)
      end in
    match alreadyLoadedRelatedDatabaseSubject with
    | Some a => markAsRemoved a >> recurse a
    | None => ret tt
    end.

(** The branch of the side of a one-to-one relation that does not own it.
    The parameter of the query is read from [subject.entity]. *)
Definition checkNotOwnerRelation (recurse : SubjectAddr → Loader unit)
    (subject : SubjectAddr) (relation : RelationMetadata)
    (persisted : option ObjectLiteral) (dbEntity : ObjectLiteral)
    (persistValue : Value) : Loader unit :=
  let relationIdInDatabaseEntity := getOwnEntityRelationId relation dbEntity in
  if isPresent relationIdInDatabaseEntity then ret tt
  else
    let* found := find (isLoadedRelated relation relationIdInDatabaseEntity) in
    let* alreadyLoadedRelatedDatabaseSubject :=
      match found with
      | Some a => ret (Some a)
      | None =>
          match persisted with
          | None => reject AbsentEntityRead
          | Some e =>
              loadRelatedSubject subject relation (inverseSideProperty relation)
                (getOwnEntityRelationId relation e)
          end
      end in
    match alreadyLoadedRelatedDatabaseSubject with
    | Some a =>
        let* related := readSubject a in
        match related ≫= databaseEntity with
        | Some d =>
            if truthy persistValue &&
               strictEq persistValue (getInverseEntityRelationId relation d)
            then ret tt
            else markAsRemoved a >> recurse a
        | None => ret tt
        end
    | None => ret tt
    end.

(** The callback run for each relation of a subject by
    [findCascadeRemovedEntitiesToLoad].  A [return] of the first branch
    leaves the callback; the second branch is guarded by a cardinality the
    first excludes. *)
Definition checkRelation (recurse : SubjectAddr → Loader unit)
    (subjectAddr : SubjectAddr) (subject : Subject) (relation : RelationMetadata)
  : Loader unit :=
  if negb (isCascadeRemove relation) then ret tt
  else
    match databaseEntity subject with
    | None => ret tt
    | Some dbEntity =>
        match persistValueRelationId relation subject with
        | None => ret tt
        | Some persistValue =>
            if isOneToOneOwner relation || isManyToOne relation then
              checkOwnerRelation recurse subjectAddr relation dbEntity persistValue
            else if isOneToOneNotOwner relation then
              checkNotOwnerRelation recurse subjectAddr relation
                (entity subject) dbEntity persistValue
            else ret tt
        end
    end.

(** [findCascadeRemovedEntitiesToLoad(subject)].  The fuel bounds the depth
    of the recursion.  The walk assigns neither [subject.entity] nor
    [subject.databaseEntity], so the callbacks are given the subject as it is
    read when the walk enters it. *)
Fixpoint findCascadeRemovedEntitiesToLoad (fuel : nat) (subjectAddr : SubjectAddr)
  : Loader unit :=
  match fuel with
  | 0 => outOfFuel
  | S fuel' =>
      let* s := readSubject subjectAddr in
      match s with
      | None => ret tt
      | Some subject =>
          all (relations (metadata subject))
            (checkRelation (findCascadeRemovedEntitiesToLoad fuel') subjectAddr subject)
      end
  end.

(** The subjects of the collection that have a database entity. *)
Definition loadedSubjects : Loader (list SubjectAddr) :=
  fun st =>
    Resolved
      (map fst (filter (fun p => is_Some (databaseEntity (snd p))) (collected st))) st.

(** [load(entity, metadata)], from the call to the moment nothing that it
    has started is in flight any more.  A [load] that rejects carries the
    error its promise is rejected with, the first to occur, and the state in
    which the callbacks that were in flight then have left the loader. *)
Definition load (fuel : nat) (e : ObjectLiteral) (md : EntityMetadata) : Loader unit :=
  fun st =>
    complete
      ((let* persistedEntity := newSubject md (Some e) None in
        push persistedEntity >>
        findCascadeUpdateAndInsertEntitiesToLoad fuel e md >>
        populateSubjectCollectionWithDatabaseEntities >>
        let* loaded := loadedSubjects in
        all loaded (findCascadeRemovedEntitiesToLoad fuel)) st).

End DatabaseEntityLoader.

(* ------------------------------------------------------------------------- *)
(** ** A repository in memory, and the entities of the scenarios *)

(** Modelled from the spec: a repository over tables held in memory.  The
    batch read returns the rows whose primary key is among the identifiers;
    the single read returns the first row whose column equals the
    parameter.  The reads are answered in the order they are issued in. *)
Definition metadataOf (metadatas : list EntityMetadata) (t : Target) : EntityMetadata :=
  default {| target := t; tableName := t; primaryProperty := "id"; relations := [] |}
          (head (filter (fun md => target md = t) metadatas)).

Definition rowsOf (tables : list (Target * list ObjectLiteral)) (t : Target)
  : list ObjectLiteral :=
  default [] (snd <$> head (filter (fun table => fst table = t) tables)).

Definition memoryConnection (metadatas : list EntityMetadata)
    (tables : list (Target * list ObjectLiteral)) : Connection :=
  {| getMetadata := metadataOf metadatas;
     findByIds := fun t ids =>
       FetchOk (filter (fun row =>
                  getProperty row (primaryProperty (metadataOf metadatas t)) ∈ ids)
                  (rowsOf tables t));
     getSingleResult := fun t column id =>
       FetchOk (head (filter (fun row => getProperty row column = id) (rowsOf tables t)));
     answerTime := fun n => n |}.

(** A connection whose reads all fail. *)
Definition brokenConnection (metadatas : list EntityMetadata) (reason : string) : Connection :=
  {| getMetadata := metadataOf metadatas;
     findByIds := fun _ _ => FetchFail reason;
     getSingleResult := fun _ _ _ => FetchFail reason;
     answerTime := fun n => n |}.

(** A relation whose join column is the relation's own property and
    references the column [referenced] of the other side. *)
Definition ownerRelation (name : string) (kind : RelationType) (other : Target)
    (referenced : string)
    (cascadeInsert cascadeUpdate cascadeRemove : bool) : RelationMetadata :=
  {| propertyName := name;
     relationType := kind;
     isCascadeInsert := cascadeInsert;
     isCascadeUpdate := cascadeUpdate;
     isCascadeRemove := cascadeRemove;
     inverseTarget := other;
     joinColumnReferencedProperty := referenced;
     inverseSideProperty := "";
     getOwnEntityRelationId := fun e => getProperty e name;
     getInverseEntityRelationId := fun e => getProperty e referenced |}.

(** The side without join column of a one-to-one relation: its identifier is
    the column [referenced] of the entity itself, and the other side holds it
    in its property [inverse]. *)
Definition notOwnerRelation (name : string) (other : Target) (referenced inverse : string)
    (cascadeInsert cascadeUpdate cascadeRemove : bool) : RelationMetadata :=
  {| propertyName := name;
     relationType := OneToOneNotOwner;
     isCascadeInsert := cascadeInsert;
     isCascadeUpdate := cascadeUpdate;
     isCascadeRemove := cascadeRemove;
     inverseTarget := other;
     joinColumnReferencedProperty := referenced;
     inverseSideProperty := inverse;
     getOwnEntityRelationId := fun e => getProperty e referenced;
     getInverseEntityRelationId := fun e => getProperty e inverse |}.

Definition object (properties : list (string * Value)) : ObjectLiteral :=
  list_to_map properties.

(** The marks of the subjects of a state, with type and identifier. *)
Definition removalMarks (st : LoaderState) : list (Target * Value * bool) :=
  map (fun s => (entityTarget s, mixedId s, markedAsRemoved s)) (subjects st).

(** The types and identifiers of the collection, in order. *)
Definition collectedKeys (st : LoaderState) : list (Target * Value) :=
  (fun p => subjectKey (snd p)) <$> collected st.

Module ScenarioA.
(** [Post.category]: many-to-one with all cascades; no inverse side. *)
Definition categoryRelation : RelationMetadata :=
  ownerRelation "category" ManyToOne "Category" "id" true true true.

Definition postMetadata : EntityMetadata :=
  {| target := "Post"; tableName := "post"; primaryProperty := "id";
     relations := [categoryRelation] |}.

Definition categoryMetadata : EntityMetadata :=
  {| target := "Category"; tableName := "category"; primaryProperty := "id";
     relations := [] |}.

(** The persisted post: [{id: 1, category: null}]. *)
Definition post : ObjectLiteral := object [("id", VNum 1); ("category", VNull)].

(** The database: the post refers to category 5, which exists. *)
Definition connection : Connection :=
  memoryConnection [postMetadata; categoryMetadata]
    [("Post", [object [("id", VNum 1); ("category", VNum 5)]]);
     ("Category", [object [("id", VNum 5)]])].

(** The subject of the post once its database entity is loaded. *)
Definition postRow : ObjectLiteral := object [("id", VNum 1); ("category", VNum 5)].

Definition loadedPost : Subject :=
  {| metadata := postMetadata; entity := Some post; databaseEntity := Some postRow;
     markedAsRemoved := false |}.

Definition loadedState : LoaderState :=
  {| subjects := [loadedPost]; loadMap := [0];
     queries := [QFindByIds "Post" "post" [VNum 1]] |}.

(** The same post persisted without its category: [{id: 1}]. *)
Definition untouchedPost : ObjectLiteral := object [("id", VNum 1)].

Definition loadedUntouchedPost : Subject :=
  {| metadata := postMetadata; entity := Some untouchedPost;
     databaseEntity := Some postRow; markedAsRemoved := false |}.
End ScenarioA.

Module CyclicGraph.
(** A one-to-one relation between a post and its details, with cascades of
    inserts on both sides. *)
Definition detailsRelation : RelationMetadata :=
  ownerRelation "details" OneToOneOwner "PostDetails" "id" true false false.

Definition postRelation : RelationMetadata :=
  notOwnerRelation "post" "Post" "id" "details" true false false.

Definition postMetadata : EntityMetadata :=
  {| target := "Post"; tableName := "post"; primaryProperty := "id";
     relations := [detailsRelation] |}.

Definition detailsMetadata : EntityMetadata :=
  {| target := "PostDetails"; tableName := "post_details"; primaryProperty := "id";
     relations := [postRelation] |}.

(** [post.details = details] and [details.post = post]. *)
Definition post : ObjectLiteral := object [("id", VNum 1); ("details", VRef 1)].
Definition details : ObjectLiteral := object [("id", VNum 2); ("post", VRef 0)].
Definition heap : EntityHeap := [post; details].

Definition connection : Connection :=
  memoryConnection [postMetadata; detailsMetadata] [].
End CyclicGraph.

Module SharedGraph.
(** A post whose category and whose author's category are one and the same
    entity; the author is reached through a relation without cascades of
    inserts or updates, and the image is not set. *)
Definition postMetadata : EntityMetadata :=
  {| target := "Post"; tableName := "post"; primaryProperty := "id";
     relations :=
       [ownerRelation "category" ManyToOne "Category" "id" true true true;
        ownerRelation "information" ManyToOne "Information" "id" true false false;
        ownerRelation "image" ManyToOne "Image" "id" false true false;
        ownerRelation "author" ManyToOne "Author" "id" false false false] |}.

Definition informationMetadata : EntityMetadata :=
  {| target := "Information"; tableName := "information"; primaryProperty := "id";
     relations := [ownerRelation "category" ManyToOne "Category" "id" false true false] |}.

Definition post : ObjectLiteral :=
  object [("id", VNum 1); ("category", VRef 0); ("information", VRef 1);
          ("image", VNull); ("author", VRef 2)].
Definition category : ObjectLiteral := object [("id", VNum 5)].
Definition information : ObjectLiteral := object [("id", VNum 3); ("category", VRef 0)].
Definition author : ObjectLiteral := object [("id", VNum 9)].
Definition heap : EntityHeap := [category; information; author].

Definition categoryMetadata : EntityMetadata :=
  {| target := "Category"; tableName := "category"; primaryProperty := "id";
     relations := [] |}.

Definition connection : Connection :=
  memoryConnection [postMetadata; informationMetadata; categoryMetadata]
    [("Post", [object [("id", VNum 1); ("category", VNum 5); ("information", VNum 3)]]);
     ("Category", [object [("id", VNum 5)]])].

(** The state of [load] when the first walk starts. *)
Definition rootState : LoaderState :=
  {| subjects := [{| metadata := postMetadata; entity := Some post;
                     databaseEntity := None; markedAsRemoved := false |}];
     loadMap := [0]; queries := [] |}.

(** The same metadata over a database that cannot be read. *)
Definition lostConnection : Connection :=
  brokenConnection [postMetadata; informationMetadata; categoryMetadata] "connection lost".

(** The same metadata over a database where the table of posts cannot be
    read for one reason and the other tables for another; [order] gives the
    time each read is answered at. *)
Definition unreadableConnection (order : nat → nat) : Connection :=
  {| getMetadata := metadataOf [postMetadata; informationMetadata; categoryMetadata];
     findByIds := fun t _ =>
       if bool_decide (t = "Post") then FetchFail "table post is locked"
       else FetchFail "connection lost";
     getSingleResult := fun _ _ _ => FetchFail "connection lost";
     answerTime := order |}.
End SharedGraph.

Module ReplacedCategory.
(** [Post.category] refers to the column [code] of the category, and is
    removed by cascade.  In the database the post has no category, and the
    table of categories holds one without code; the persisted post is
    given a new category. *)
Definition categoryRelation : RelationMetadata :=
  ownerRelation "category" ManyToOne "Category" "code" true true true.

Definition postMetadata : EntityMetadata :=
  {| target := "Post"; tableName := "post"; primaryProperty := "id";
     relations := [categoryRelation] |}.

Definition categoryMetadata : EntityMetadata :=
  {| target := "Category"; tableName := "category"; primaryProperty := "id";
     relations := [] |}.

Definition post : ObjectLiteral := object [("id", VNum 1); ("category", VRef 0)].
Definition category : ObjectLiteral := object [("id", VNum 7); ("code", VStr "news")].
Definition heap : EntityHeap := [category].

Definition postRow : ObjectLiteral := object [("id", VNum 1); ("category", VNull)].
Definition categoryRow : ObjectLiteral := object [("id", VNum 5); ("code", VNull)].

Definition tables : list (Target * list ObjectLiteral) :=
  [("Post", [postRow]); ("Category", [categoryRow])].

Definition connection : Connection :=
  memoryConnection [postMetadata; categoryMetadata] tables.

(** The state once the database entities are loaded: the post has one, the
    new category has none. *)
Definition loadedPost : Subject :=
  {| metadata := postMetadata; entity := Some post; databaseEntity := Some postRow;
     markedAsRemoved := false |}.

Definition newCategory : Subject :=
  {| metadata := categoryMetadata; entity := Some category; databaseEntity := None;
     markedAsRemoved := false |}.

Definition loadedState : LoaderState :=
  {| subjects := [loadedPost; newCategory]; loadMap := [0; 1];
     queries := [QFindByIds "Post" "post" [VNum 1];
                 QFindByIds "Category" "category" [VNum 7]] |}.
End ReplacedCategory.

Module ClearedPost.
(** The details of a post are the side without join column of a one-to-one
    relation removed by cascade: the post holds the column [code] of its
    details in [post.details].  In the database the details 1 have no code,
    the details 2 have the code [d1].  The persisted details 1 are given the
    code [d1] and have no post any more. *)
Definition postRelation : RelationMetadata :=
  notOwnerRelation "post" "Post" "code" "details" false false true.

Definition detailsMetadata : EntityMetadata :=
  {| target := "PostDetails"; tableName := "post_details"; primaryProperty := "id";
     relations := [postRelation] |}.

Definition postMetadata : EntityMetadata :=
  {| target := "Post"; tableName := "post"; primaryProperty := "id"; relations := [] |}.

Definition details (post : Value) : ObjectLiteral :=
  object [("id", VNum 1); ("code", VStr "d1"); ("post", post)].
Definition detailsRow : ObjectLiteral := object [("id", VNum 1); ("code", VNull)].
Definition otherDetailsRow : ObjectLiteral :=
  object [("id", VNum 2); ("code", VStr "d1")].
Definition postRow : ObjectLiteral :=
  object [("id", VNum 4); ("details", VStr "d1"); ("slug", VNull)].

(** No post refers to details of code [d1]. *)
Definition connection : Connection :=
  memoryConnection [detailsMetadata; postMetadata]
    [("PostDetails", [detailsRow; otherDetailsRow]); ("Post", [])].

(** The post 4 refers to the details of code [d1]. *)
Definition tablesWithPost : list (Target * list ObjectLiteral) :=
  [("PostDetails", [detailsRow; otherDetailsRow]); ("Post", [postRow])].

Definition connectionWithPost : Connection :=
  memoryConnection [detailsMetadata; postMetadata] tablesWithPost.

(** The same, where the post is in turn the side without join column of a
    one-to-one relation with an image, removed by cascade: the image holds
    the column [slug] of its post. *)
Definition imageRelation : RelationMetadata :=
  notOwnerRelation "image" "Image" "slug" "post" false false true.

Definition postWithImageMetadata : EntityMetadata :=
  {| target := "Post"; tableName := "post"; primaryProperty := "id";
     relations := [imageRelation] |}.

Definition connectionWithImage : Connection :=
  memoryConnection [detailsMetadata; postWithImageMetadata] tablesWithPost.

(** The tables with the post 4, where the read of a single row fails. *)
Definition connectionWithoutLookup : Connection :=
  {| getMetadata := getMetadata connectionWithPost;
     findByIds := findByIds connectionWithPost;
     getSingleResult := fun _ _ _ => FetchFail "lookup failed";
     answerTime := fun n => n |}.

(** The subject of the details once its database entity is loaded. *)
Definition subject (post : Value) : Subject :=
  {| metadata := detailsMetadata; entity := Some (details post);
     databaseEntity := Some detailsRow; markedAsRemoved := false |}.

Definition state (post : Value) : LoaderState :=
  {| subjects := [subject post]; loadMap := [0]; queries := [] |}.
End ClearedPost.

(* ------------------------------------------------------------------------- *)
(** ** The PostgreSQL driver

    The parts of [src/driver/postgres/PostgresDriver.ts] that do not depend on
    the text of queries: the preparation of values, and the bookkeeping of
    connections.  What the driver calls outside of itself is taken as it
    comes: the functions of moment and of JSON and the conversion [String]
    are fields of a record, the answers of the pg library are arguments. *)

Module PostgresDriver.

(** The values of columns: primitives, dates and arrays. *)
#[warnings="-register-all"] Inductive JsValue : Type :=
| JUndefined
| JNull
| JBool (b : bool)
| JNumber (n : Z)
| JString (s : string)
| JDate (time : Z)
| JArray (items : list JsValue).

Inductive JsError : Type :=
| JsTypeError
| JsSyntaxError
| ConnectionIsNotSetError
| NativeError (reason : string).

(** A call returns a value or throws. *)
Inductive Completion (A : Type) : Type :=
| Returns (result : A)
| Throws (error : JsError).
Arguments Returns {A} result.
Arguments Throws {A} error.

(** The functions the driver takes from its environment:
    [moment(value).format(f)], [moment(value, f).toDate()], [JSON.stringify],
    [JSON.parse] and [String]. *)
Record Runtime : Type := {
  momentFormat : JsValue → string → string;
  momentToDate : JsValue → string → JsValue;
  jsonStringify : JsValue → JsValue;
  jsonParse : JsValue → Completion JsValue;
  toJsString : JsValue → string
}.

(** The column types the driver distinguishes, and the others. *)
Inductive ColumnType : Type :=
| BOOLEAN
| DATE
| TIME
| DATETIME
| JSON
| SIMPLE_ARRAY
| OtherType (name : string).

Record ColumnMetadata : Type := { type : ColumnType }.

(** [value === true], [value ? .. : ..] and [value instanceof Date]. *)
Definition isTrue (value : JsValue) : bool :=
  match value with JBool true => true | _ => false end.

Definition jsTruthy (value : JsValue) : bool :=
  match value with
  | JUndefined | JNull => false
  | JBool b => b
  | JNumber n => negb (n =? 0)%Z
  | JString s => negb (bool_decide (s = ""%string))
  | JDate _ | JArray _ => true
  end.

Definition isDate (value : JsValue) : bool :=
  match value with JDate _ => true | _ => false end.

(** The character of the separator, a comma. *)
Definition comma : Ascii.ascii := Ascii.ascii_of_nat 44.

(** [items.join(",")]. *)
Fixpoint join (items : list string) : string :=
  match items with
  | [] => ""
  | [item] => item
  | item :: items' => item +:+ String comma (join items')
  end.

(** [text.split(",")]: the pieces between the commas, one piece for a text
    without comma, the empty text included. *)
Fixpoint split (text : string) : list string :=
  match text with
  | EmptyString => [""%string]
  | String c text' =>
      if Ascii.eqb c comma then ""%string :: split text'
      else match split text' with
           | piece :: pieces => String c piece :: pieces
           | [] => [String c ""]
           end
  end.

(** The text holds no comma. *)
Fixpoint commaFree (text : string) : Prop :=
  match text with
  | EmptyString => True
  | String c text' => Ascii.eqb c comma = false ∧ commaFree text'
  end.

(** [preparePersistentValue(value, column)]. *)
Definition preparePersistentValue (runtime : Runtime) (value : JsValue)
    (column : ColumnMetadata) : Completion JsValue :=
  match type column with
  | BOOLEAN => Returns (if isTrue value then JNumber 1 else JNumber 0)
  | DATE => Returns (JString (momentFormat runtime value "YYYY-MM-DD"))
  | TIME => Returns (JString (momentFormat runtime value "HH:mm:ss"))
  | DATETIME => Returns (JString (momentFormat runtime value "YYYY-MM-DD HH:mm:ss"))
  | JSON => Returns (jsonStringify runtime value)
  | SIMPLE_ARRAY =>
      match value with
      | JArray items => Returns (JString (join (map (toJsString runtime) items)))
      | _ => Throws JsTypeError
      end
  | OtherType _ => Returns value
  end.

(** [prepareHydratedValue(value, columnOrColumnType)]. *)
Definition prepareHydratedValue (runtime : Runtime) (value : JsValue)
    (columnOrColumnType : ColumnMetadata + ColumnType) : Completion JsValue :=
  let columnType :=
    match columnOrColumnType with
    | inl column => type column
    | inr columnType => columnType
    end in
  match columnType with
  | BOOLEAN => Returns (JBool (jsTruthy value))
  | DATE =>
      if isDate value then Returns value
      else Returns (momentToDate runtime value "YYYY-MM-DD")
  | TIME => Returns (momentToDate runtime value "HH:mm:ss")
  | DATETIME =>
      if isDate value then Returns value
      else Returns (momentToDate runtime value "YYYY-MM-DD HH:mm:ss")
  | JSON => jsonParse runtime value
  | SIMPLE_ARRAY =>
      match value with
      | JString text => Returns (JArray (map JString (split text)))
      | _ => Throws JsTypeError
      end
  | OtherType _ => Returns value
  end.

(** The text of one double quote. *)
Definition doubleQuote : string := String (Ascii.ascii_of_nat 34) EmptyString.

(** [escapeColumnName], [escapeAliasName] and [escapeTableName]. *)
Definition escapeColumnName (columnName : string) : string :=
  doubleQuote +:+ columnName +:+ doubleQuote.

Definition escapeAliasName (aliasName : string) : string :=
  doubleQuote +:+ aliasName +:+ doubleQuote.

Definition escapeTableName (tableName : string) : string :=
  doubleQuote +:+ tableName +:+ doubleQuote.

(** Handles of the objects of the pg library, clients and pools. *)
Definition Handle := nat.

(** [DatabaseConnection].  [ref] stands for the identity of the object, which
    [indexOf] compares. *)
Record DatabaseConnection : Type := {
  ref : nat;
  id : nat;
  connection : Handle;
  isTransactionActive : bool
}.

(** The fields of the driver that change: the connection, the pool, the
    list of the connections taken from the pool, and the next identity to
    give to an object. *)
Record Driver : Type := {
  databaseConnection : option DatabaseConnection;
  pool : option Handle;
  databaseConnectionPool : list DatabaseConnection;
  nextRef : nat
}.

(** The driver as its constructor leaves it. *)
Definition newDriver : Driver :=
  {| databaseConnection := None; pool := None; databaseConnectionPool := [];
     nextRef := 0 |}.

(** The calls the driver makes to the pg library. *)
Inductive NativeCall : Type :=
| ClientConnect (client : Handle)
| ClientEnd (client : Handle)
| PoolEnd (poolHandle : Handle)
| Release (client : Handle).

(** How a call that returns a promise ends: the promise resolves, the promise
    rejects, or the call throws before it returns one. *)
Inductive Settled (A : Type) : Type :=
| Resolves (result : A)
| Rejects (error : JsError)
| ThrowsError (error : JsError).
Arguments Resolves {A} result.
Arguments Rejects {A} error.
Arguments ThrowsError {A} error.

(** [connect()].  [created] is the pool or the client the pg library
    constructs, [connectError] the error its client reports to the callback
    of [connect], if any. *)
Definition connect (usePool : option bool) (created : Handle)
    (connectError : option string) (driver : Driver)
  : Settled unit * Driver * list NativeCall :=
  match usePool with
  | None | Some true =>
      (Resolves tt,
       {| databaseConnection := databaseConnection driver;
          pool := Some created;
          databaseConnectionPool := databaseConnectionPool driver;
          nextRef := nextRef driver |},
       [])
  | Some false =>
      (match connectError with
       | Some err => Rejects (NativeError err)
       | None => Resolves tt
       end,
       {| databaseConnection :=
            Some {| ref := nextRef driver; id := 1; connection := created;
                    isTransactionActive := false |};
          pool := pool driver;
          databaseConnectionPool := databaseConnectionPool driver;
          nextRef := S (nextRef driver) |},
       [ClientConnect created])
  end.

(** [this.databaseConnectionPool.indexOf(dbConnection)]: [None] stands for
    [-1]. *)
Definition indexOf (entry : DatabaseConnection) (entries : list DatabaseConnection)
  : option nat :=
  fst <$> list_find (fun other => ref other = ref entry) entries.

(** [entries.splice(index, 1)]; with [-1] for index, [splice] removes the
    last element. *)
Definition splice (index : option nat) (entries : list DatabaseConnection)
  : list DatabaseConnection :=
  match index with
  | Some i => delete i entries
  | None => delete (length entries - 1) entries
  end.

(** The [releaseCallback] that [retrieveDatabaseConnection] gives to a
    connection of the pool. *)
Definition releaseCallback (entry : DatabaseConnection) (driver : Driver)
  : Driver * list NativeCall :=
  ({| databaseConnection := databaseConnection driver;
      pool := pool driver;
      databaseConnectionPool :=
        splice (indexOf entry (databaseConnectionPool driver))
          (databaseConnectionPool driver);
      nextRef := nextRef driver |},
   [Release (connection entry)]).

(** [retrieveDatabaseConnection()].  [answer] is what the pool passes to the
    callback of [connect]: an error or a client. *)
Definition retrieveDatabaseConnection (answer : string + Handle) (driver : Driver)
  : Settled DatabaseConnection * Driver :=
  match pool driver with
  | Some _ =>
      match answer with
      | inl err => (Rejects (NativeError err), driver)
      | inr client =>
          match list_find (fun entry => connection entry = client)
                  (databaseConnectionPool driver) with
          | Some (_, entry) => (Resolves entry, driver)
          | None =>
              let entry :=
                {| ref := nextRef driver;
                   id := length (databaseConnectionPool driver);
                   connection := client;
                   isTransactionActive := false |} in
              (Resolves entry,
               {| databaseConnection := databaseConnection driver;
                  pool := pool driver;
                  databaseConnectionPool := databaseConnectionPool driver ++ [entry];
                  nextRef := S (nextRef driver) |})
          end
      end
  | None =>
      match databaseConnection driver with
      | Some active => (Resolves active, driver)
      | None => (ThrowsError ConnectionIsNotSetError, driver)
      end
  end.

(** [createQueryRunner()]: the connection the query runner is built on. *)
Definition createQueryRunner (answer : string + Handle) (driver : Driver)
  : Settled DatabaseConnection * Driver :=
  match databaseConnection driver, pool driver with
  | None, None => (Rejects ConnectionIsNotSetError, driver)
  | _, _ =>
      match retrieveDatabaseConnection answer driver with
      | (ThrowsError error, driver') => (Rejects error, driver')
      | settled => settled
      end
  end.

(** [this.databaseConnectionPool.forEach(..releaseCallback())] in
    [disconnect]: [forEach] visits the indices below the length the list had
    at the start, each if the list still has it when its turn comes, while
    the callbacks shorten the list.  Every connection of the list has a
    release callback: [retrieveDatabaseConnection] gives one to the
    connection it adds and to the one it finds. *)
Fixpoint releaseEach (indices : list nat) (driver : Driver) : Driver * list NativeCall :=
  match indices with
  | [] => (driver, [])
  | k :: indices' =>
      match databaseConnectionPool driver !! k with
      | Some entry =>
          let '(driver', calls) := releaseCallback entry driver in
          let '(driver'', calls') := releaseEach indices' driver' in
          (driver'', calls ++ calls')
      | None => releaseEach indices' driver
      end
  end.

(** [disconnect()].  The list of connections is an array, so the test on it
    holds and [this.pool.end] is called in every case: without a pool the
    call throws a TypeError inside the executor of the promise, which
    rejects.  The callback given to [pool.end] is called once the pool has
    ended, after the promise is settled. *)
Definition disconnect (driver : Driver) : Settled unit * Driver * list NativeCall :=
  match databaseConnection driver, pool driver with
  | None, None => (ThrowsError ConnectionIsNotSetError, driver, [])
  | _, _ =>
      let '(driver1, calls1) :=
        match databaseConnection driver with
        | Some active =>
            ({| databaseConnection := None; pool := pool driver;
                databaseConnectionPool := databaseConnectionPool driver;
                nextRef := nextRef driver |},
             [ClientEnd (connection active)])
        | None => (driver, [])
        end in
      let '(driver2, calls2) :=
        releaseEach (seq 0 (length (databaseConnectionPool driver1))) driver1 in
      match pool driver2 with
      | None => (Rejects JsTypeError, driver2, calls1 ++ calls2)
      | Some poolHandle =>
          (Resolves tt,
           {| databaseConnection := databaseConnection driver2; pool := None;
              databaseConnectionPool := []; nextRef := nextRef driver2 |},
           calls1 ++ calls2 ++ [PoolEnd poolHandle])
      end
  end.

(** The elements at the even positions of a list, counted from 0, and those
    at the odd positions. *)
Fixpoint evens {A} (l : list A) : list A :=
  match l with
  | [] => []
  | [x] => [x]
  | x :: _ :: l' => x :: evens l'
  end.

Fixpoint odds {A} (l : list A) : list A :=
  match l with
  | [] | [_] => []
  | _ :: y :: l' => y :: odds l'
  end.

(** The connections of the list are told apart by their identity and by
    their client, and their identities were given by the driver. *)
Definition poolCoherent (driver : Driver) : Prop :=
  NoDup (ref <$> databaseConnectionPool driver) ∧
  NoDup (connection <$> databaseConnectionPool driver) ∧
  Forall (fun entry => ref entry < nextRef driver) (databaseConnectionPool driver).

(** A runtime for the examples: [String] on the values that are not
    numbers, dates or arrays; moment and JSON are not called there. *)
Definition sampleRuntime : Runtime :=
  {| momentFormat := fun _ _ => ""%string;
     momentToDate := fun value _ => value;
     jsonStringify := fun value => value;
     jsonParse := fun value => Returns value;
     toJsString := fun value =>
       match value with
       | JString s => s
       | JBool true => "true"%string
       | JBool false => "false"%string
       | JNull => "null"%string
       | JUndefined => "undefined"%string
       | _ => ""%string
       end |}.

(** The driver with another list of connections. *)
Definition withConnections (driver : Driver) (entries : list DatabaseConnection)
  : Driver :=
  {| databaseConnection := databaseConnection driver; pool := pool driver;
     databaseConnectionPool := entries; nextRef := nextRef driver |}.

(** The calls that change the driver, each with what the pg library answers
    to it, and the driver a call leaves. *)
Inductive Operation : Type :=
| Connect (usePool : option bool) (created : Handle) (connectError : option string)
| Disconnect
| CreateQueryRunner (answer : string + Handle)
| RetrieveDatabaseConnection (answer : string + Handle)
| ReleaseCallback (entry : DatabaseConnection).

Definition perform (driver : Driver) (operation : Operation) : Driver :=
  match operation with
  | Connect usePool created connectError =>
      (connect usePool created connectError driver).1.2
  | Disconnect => (disconnect driver).1.2
  | CreateQueryRunner answer => (createQueryRunner answer driver).2
  | RetrieveDatabaseConnection answer => (retrieveDatabaseConnection answer driver).2
  | ReleaseCallback entry => (releaseCallback entry driver).1
  end.

(** Drivers for the examples: one with a pool of which the clients 1, 2 and
    3 were taken, one connected without pool. *)
Definition threeTaken : Driver :=
  foldl perform newDriver
    [Connect None 100 None; RetrieveDatabaseConnection (inr 1);
     RetrieveDatabaseConnection (inr 2); RetrieveDatabaseConnection (inr 3)].

Definition withoutPool : Driver :=
  perform newDriver (Connect (Some false) 7 None).

End PostgresDriver.

(* ------------------------------------------------------------------------- *)
(** ** Predicates of the statements *)

(** A relation of an entity that the first walk follows: its value is an
    entity and it cascades inserts or updates.  The edge leads to the related
    entity and its metadata. *)
Inductive cascadeEdge (connection : Connection) (heap : EntityHeap)
  : ObjectLiteral * EntityMetadata → ObjectLiteral * EntityMetadata → Prop :=
| cascadeEdge_intro (e : ObjectLiteral) (md : EntityMetadata) (relation : RelationMetadata) :
    relation ∈ relations md →
    isEntityDefined (getEntityValue relation e) = true →
    isCascadeInsert relation || isCascadeUpdate relation = true →
    cascadeEdge connection heap (e, md)
      (derefObject heap (getEntityValue relation e),
       inverseEntityMetadata connection relation).

(** The type and identifier of an entity under its metadata. *)
Definition entityKey (node : ObjectLiteral * EntityMetadata) : Target * Value :=
  (target (snd node), getProperty (fst node) (primaryProperty (snd node))).

(** The connection answers each of the reads with rows, not with a
    failure. *)
Definition answered (connection : Connection) (log : list Query) : Prop :=
  Forall (fun q => queryFailure connection q = None) log.

(** A computation of the first walk only appends: subjects to the store,
    addresses of subjects that satisfy [P] to the collection. *)
Definition grows (P : Subject → Prop) (st st' : LoaderState) : Prop :=
  (∃ created, subjects st' = subjects st ++ created) ∧
  (∃ pushed, loadMap st' = loadMap st ++ pushed ∧
             Forall (fun a => ∃ s, subjects st' !! a = Some s ∧ P s) pushed) ∧
  queries st' = queries st.

(** The subject stands for an entity reached from a node along relations the
    first walk follows. *)
Definition reachedFrom (connection : Connection) (heap : EntityHeap)
    (root : ObjectLiteral * EntityMetadata) (s : Subject) : Prop :=
  ∃ v, entity s = Some v ∧ tc (cascadeEdge connection heap) root (v, metadata s).

(** The state in which a read has been issued, and the state in which a row
    read for a related entity has been wrapped in a new subject: the subject
    is in the store, the address pushed is [pushed]. *)
Definition issued (st : LoaderState) (q : Query) : LoaderState :=
  {| subjects := subjects st; loadMap := loadMap st; queries := queries st ++ [q] |}.

Definition fetched (st : LoaderState) (md : EntityMetadata) (row : ObjectLiteral)
    (pushed : SubjectAddr) : LoaderState :=
  {| subjects := subjects st ++
       [{| metadata := md; entity := None; databaseEntity := Some row;
           markedAsRemoved := false |}];
     loadMap := loadMap st ++ [pushed];
     queries := queries st |}.

(** The same state once the new subject is marked as removed. *)
Definition fetchedAndMarked (st : LoaderState) (md : EntityMetadata)
    (row : ObjectLiteral) (pushed : SubjectAddr) : LoaderState :=
  {| subjects := subjects st ++
       [{| metadata := md; entity := None; databaseEntity := Some row;
           markedAsRemoved := true |}];
     loadMap := loadMap st ++ [pushed];
     queries := queries st |}.

(** The state after a related row was read and wrapped in a new subject, when
    nothing else has run since the read was issued. *)
Definition afterFetch (st : LoaderState) (md : EntityMetadata) (row : ObjectLiteral)
    (pushed : SubjectAddr) (q : Query) : LoaderState :=
  {| subjects := subjects st ++
       [{| metadata := md; entity := None; databaseEntity := Some row;
           markedAsRemoved := false |}];
     loadMap := loadMap st ++ [pushed];
     queries := queries st ++ [q] |}.

(** The read of the related entity in the branch of the owner side, and in
    the branch of the other side. *)
Definition ownerLookup (connection : Connection) (relation : RelationMetadata)
    (dbEntity : ObjectLiteral) : Query :=
  QSingleResult (target (inverseEntityMetadata connection relation))
    (tableName (inverseEntityMetadata connection relation))
    (joinColumnReferencedProperty relation)
    (getOwnEntityRelationId relation dbEntity).

Definition inverseLookup (connection : Connection) (relation : RelationMetadata)
    (persisted : ObjectLiteral) : Query :=
  QSingleResult (target (inverseEntityMetadata connection relation))
    (tableName (inverseEntityMetadata connection relation))
    (inverseSideProperty relation)
    (getOwnEntityRelationId relation persisted).

(** Each run of the computation, from its start or from the answer to a
    read up to its end or to the next read it waits for, relates the state it
    starts in to the state it leaves, in whatever state it is resumed. *)
Fixpoint stepwise {A} (R : relation LoaderState) (st : LoaderState) (o : Outcome A)
  : Prop :=
  match o with
  | Awaiting _ _ resume st' => R st st' ∧ ∀ st'', stepwise R st'' (resume st'')
  | Resolved _ st' | Rejected _ st' | OutOfFuel st' => R st st'
  end.

Definition respects (R : relation LoaderState) {A} (m : Loader A) : Prop :=
  ∀ st, stepwise R st (m st).

(** The computation, when it waits, relates the states whenever it runs
    again. *)
Definition resumable {A} (R : relation LoaderState) (o : Outcome A) : Prop :=
  match o with
  | Awaiting _ _ resume _ => ∀ st, stepwise R st (resume st)
  | Resolved _ _ | Rejected _ _ | OutOfFuel _ => True
  end.

(** A computation that does not wait. *)
Definition settled {A} (o : Outcome A) : Prop :=
  match o with
  | Awaiting _ _ _ _ => False
  | Resolved _ _ | Rejected _ _ | OutOfFuel _ => True
  end.

(** The reads of the second state start with the reads of the first. *)
Definition logExtends : relation LoaderState :=
  fun st st' => queries st `prefix_of` queries st'.

(** A computation that resolves without a read. *)
Definition silent {A} (m : Loader A) : Prop :=
  ∀ st, ∃ a st', m st = Resolved a st' ∧ queries st' = queries st.

(** Every address of the collection is that of a subject, and no two
    subjects of the collection have the same type and identifier. *)
Definition allocated (st : LoaderState) : Prop :=
  Forall (fun a => a < length (subjects st)) (loadMap st).

Definition keysUnique (st : LoaderState) : Prop :=
  allocated st ∧ NoDup (collectedKeys st).

Definition keepsKeysUnique : relation LoaderState :=
  fun st st' => keysUnique st → keysUnique st'.

(** The subjects of the first state are still there in the second, each
    related to what it has become. *)
Definition storeRelates (T : relation Subject) : relation LoaderState :=
  fun st st' =>
    ∀ a s, subjects st !! a = Some s → ∃ s', subjects st' !! a = Some s' ∧ T s s'.

(** What [load] as a whole keeps of a subject: its metadata and persisted
    entity, its mark once set, and the presence of a database entity. *)
Definition keptSubject : relation Subject :=
  fun s s' =>
    metadata s' = metadata s ∧ entity s' = entity s ∧
    (markedAsRemoved s = true → markedAsRemoved s' = true) ∧
    (is_Some (databaseEntity s) → is_Some (databaseEntity s')).

(** What the batched load keeps: everything but the database entity. *)
Definition loadedOnly : relation Subject :=
  fun s s' =>
    metadata s' = metadata s ∧ entity s' = entity s ∧
    markedAsRemoved s' = markedAsRemoved s.

(** What the walk of removed entities keeps: everything, and a mark once
    set. *)
Definition markedOnly : relation Subject :=
  fun s s' =>
    metadata s' = metadata s ∧ entity s' = entity s ∧
    databaseEntity s' = databaseEntity s ∧
    (markedAsRemoved s = true → markedAsRemoved s' = true).

(** The collection of the second state starts with that of the first. *)
Definition collectionExtends : relation LoaderState :=
  fun st st' => loadMap st `prefix_of` loadMap st'.

(** The two states have the same collection and as many subjects. *)
Definition collectionSame : relation LoaderState :=
  fun st st' =>
    loadMap st' = loadMap st ∧ length (subjects st') = length (subjects st).

(** The reads of the second state are those of the first followed by reads
    that satisfy [P]. *)
Definition logAdds (P : Query → Prop) : relation LoaderState :=
  fun st st' => ∃ added, queries st' = queries st ++ added ∧ Forall P added.

Definition isBatchRead (q : Query) : Prop :=
  match q with QFindByIds _ _ _ => True | QSingleResult _ _ _ _ => False end.

Definition isSingleRead (q : Query) : Prop :=
  match q with QFindByIds _ _ _ => False | QSingleResult _ _ _ _ => True end.

(** No subject has a database entity or a mark: nothing was loaded yet. *)
Definition allNew (st : LoaderState) : Prop :=
  Forall (fun s => databaseEntity s = None ∧ markedAsRemoved s = false) (subjects st).

Definition keepsNew : relation LoaderState :=
  fun st st' => allNew st → allNew st'.

(** Every subject marked as removed has a database entity. *)
Definition marksLoaded (st : LoaderState) : Prop :=
  ∀ a s, subjects st !! a = Some s → markedAsRemoved s = true →
         is_Some (databaseEntity s).

Definition keepsMarksLoaded : relation LoaderState :=
  fun st st' => marksLoaded st → marksLoaded st'.

(** The subject at an address has a database entity. *)
Definition hasDatabaseEntity (st : LoaderState) (a : SubjectAddr) : Prop :=
  ∃ s, subjects st !! a = Some s ∧ is_Some (databaseEntity s).

(** A computation that takes states of [P] to results and states of [Q], and
    to states of [I] when it rejects, is cut or waits; it is resumed in
    states of [I], which is what the callbacks that run in between keep. *)
Fixpoint holds {A} (Q : A → LoaderState → Prop) (I : LoaderState → Prop)
    (o : Outcome A) : Prop :=
  match o with
  | Resolved a st => Q a st
  | Rejected _ st | OutOfFuel st => I st
  | Awaiting _ _ resume st => I st ∧ ∀ st', I st' → holds Q I (resume st')
  end.

Definition triple {A} (P : LoaderState → Prop) (m : Loader A)
    (Q : A → LoaderState → Prop) (I : LoaderState → Prop) : Prop :=
  ∀ st, P st → holds Q I (m st).

Definition resumableIn {A} (Q : A → LoaderState → Prop) (I : LoaderState → Prop)
    (o : Outcome A) : Prop :=
  match o with
  | Awaiting _ _ resume _ => ∀ st, I st → holds Q I (resume st)
  | Resolved _ _ | Rejected _ _ | OutOfFuel _ => True
  end.

(** The groups of the collection, as [groupByEntityTargets] returns them, and
    the batched read [populateSubjectCollectionWithDatabaseEntities] issues
    for a group. *)
Definition groupsOf (st : LoaderState) : list (Target * list Subject) :=
  foldl (fun groups p => addToGroup (snd p) groups) [] (collected st).

Definition groupRead (connection : Connection) (subjectGroup : Target * list Subject)
  : Query :=
  QFindByIds (fst subjectGroup)
    (tableName (getMetadata connection (fst subjectGroup)))
    (map mixedId (snd subjectGroup)).

(** The state of [load] when the first walk starts: the subject of the
    persisted entity alone. *)
Definition rootSubject (e : ObjectLiteral) (md : EntityMetadata) : Subject :=
  {| metadata := md; entity := Some e; databaseEntity := None;
     markedAsRemoved := false |}.

Definition rootState (e : ObjectLiteral) (md : EntityMetadata) : LoaderState :=
  {| subjects := [rootSubject e md]; loadMap := [0]; queries := [] |}.

(** A read the connection answers with rows. *)
Definition okRead (connection : Connection) (q : Query) : Prop :=
  queryFailure connection q = None.

(** A computation that cannot resolve any more, however it goes on. *)
Fixpoint doomed {A} (o : Outcome A) : Prop :=
  match o with
  | Resolved _ _ => False
  | Rejected _ _ | OutOfFuel _ => True
  | Awaiting _ _ resume _ => ∀ st, doomed (resume st)
  end.

(** A computation that has issued a read that fails cannot resolve any more:
    either it is so, or the reads it has issued in its run from [st] are all
    answered with rows and the same holds whenever it runs again. *)
Fixpoint tracks {A} (connection : Connection) (st : LoaderState) (o : Outcome A)
  : Prop :=
  doomed o ∨
  (logAdds (okRead connection) st (outcomeState o) ∧
   match o with
   | Awaiting _ _ resume _ => ∀ st', tracks connection st' (resume st')
   | Resolved _ _ | Rejected _ _ | OutOfFuel _ => True
   end).

(** The computation is in flight with others whose first error is [first]:
    its own rejection is taken into account. *)
Definition noted {A} (first : option LoadError) (o : Outcome A) : Prop :=
  match o with
  | Rejected _ _ => first ≠ None
  | Resolved _ _ | OutOfFuel _ | Awaiting _ _ _ _ => True
  end.

(** The error is the failure of a read issued so far, if it is the failure
    of a read. *)
Definition blamed (connection : Connection) (st : LoaderState) (e : LoadError) : Prop :=
  match e with
  | FetchError f => ∃ q, q ∈ queries st ∧ queryFailure connection q = Some f
  | AbsentEntityRead => True
  end.

(** A computation that only adds to the log of reads, and that rejects with
    the failure of a read only if the read is in the log and fails so,
    provided that the log is only added to while it waits. *)
Fixpoint blames {A} (connection : Connection) (from : LoaderState) (o : Outcome A)
  : Prop :=
  logExtends from (outcomeState o) ∧
  match o with
  | Rejected e st => blamed connection st e
  | Awaiting rejected _ resume st =>
      (∀ e, rejected = Some e → blamed connection st e) ∧
      ∀ st', logExtends st st' → blames connection st' (resume st')
  | Resolved _ _ | OutOfFuel _ => True
  end.

(** The same for a computation that waits among others, in the state [st]
    the loader is in. *)
Definition awaitsBlaming {A} (connection : Connection) (st : LoaderState)
    (o : Outcome A) : Prop :=
  match o with
  | Awaiting _ _ resume _ =>
      ∀ st', logExtends st st' → blames connection st' (resume st')
  | Resolved _ _ | Rejected _ _ | OutOfFuel _ => True
  end.

(** What is left of [tracks] once the computation has made its first run:
    either it cannot resolve any more, or it goes on tracking. *)
Definition tracking {A} (connection : Connection) (o : Outcome A) : Prop :=
  doomed o ∨
  match o with
  | Awaiting _ _ resume _ => ∀ st', tracks connection st' (resume st')
  | Resolved _ _ | Rejected _ _ | OutOfFuel _ => True
  end.

(** A computation that accounts for the reads that fail. *)
Definition accounts {A} (connection : Connection) (m : Loader A) : Prop :=
  ∀ st, tracks connection st (m st) ∧ blames connection st (m st).

(** A computation that resolves, at once or after it has waited, and that
    leaves the state as it is whenever it runs again. *)
Fixpoint inert (o : Outcome unit) : Prop :=
  match o with
  | Resolved _ _ => True
  | Awaiting None _ resume _ => ∀ st, inert (resume st) ∧ outcomeState (resume st) = st
  | Awaiting (Some _) _ _ _ | Rejected _ _ | OutOfFuel _ => False
  end.

(** The two states have the same reads. *)
Definition logSame : relation LoaderState :=
  fun st st' => queries st' = queries st.

(** A computation with the event loop: it is run until nothing that it has
    started is in flight any more. *)
Definition settle {A} (m : Loader A) : Loader A := fun st => complete (m st).

(** The walk of removed entities over the loaded subjects of the
    collection, the last step of [load]. *)
Definition removeLoaded (connection : Connection) (heap : EntityHeap) (fuel : nat)
  : Loader unit :=
  let* loaded := loadedSubjects in
  all connection loaded (findCascadeRemovedEntitiesToLoad connection heap fuel).

(** What [load] does once the subject of the persisted entity is in the
    collection: its three steps, each run to its end before the next. *)
Definition loadCollected (connection : Connection) (heap : EntityHeap) (fuel : nat)
    (e : ObjectLiteral) (md : EntityMetadata) : Loader unit :=
  findCascadeUpdateAndInsertEntitiesToLoad connection heap fuel e md >>
  settle (populateSubjectCollectionWithDatabaseEntities connection) >>
  settle (removeLoaded connection heap fuel).

(** The metadata of the shared graph over a database without rows. *)
Definition emptyDatabase (metadatas : list EntityMetadata) : Connection :=
  memoryConnection metadatas [].

(** The callback of [populateSubjectCollectionWithDatabaseEntities] for one
    group: the batched read, and the assignment of the rows read. *)
Definition loadGroup (connection : Connection) (subjectGroup : Target * list Subject)
  : Loader unit :=
  let allIds := map mixedId (snd subjectGroup) in
  let md := getMetadata connection (fst subjectGroup) in
  let* entities := runFindByIds connection (fst subjectGroup) (tableName md) allIds in
  forEach entities (fun row =>
    let* subject := findByEntityLike (target md) row in
    match subject with
    | Some a => setDatabaseEntity a row
    | None => ret tt
    end).

(* ------------------------------------------------------------------------- *)
(* ------------------------------------------------------------------------- *)
(** ** Basic facts *)

(** The cardinalities are exclusive: the guard of the first branch of the
    callback fails on the side without join column of a one-to-one
    relation. *)
Lemma inverse_side_is_not_owner (relation : RelationMetadata) :
  isOneToOneNotOwner relation = true →
  isOneToOneOwner relation || isManyToOne relation = false.
Proof.
  unfold isOneToOneOwner, isManyToOne, isOneToOneNotOwner.
  by destruct (relationType relation).
Qed.

Lemma strictEq_true (x y : Value) : strictEq x y = true ↔ x = y.
Proof. unfold strictEq. apply bool_decide_eq_true. Qed.

Lemma strictEq_refl (x : Value) : strictEq x x = true.
Proof. by apply strictEq_true. Qed.

(* ------------------------------------------------------------------------- *)
(** ** Computations that wait, and the event loop *)

Lemma complete_settled {A} (o : Outcome A) : settled (complete o).
Proof. induction o; simpl; auto. Qed.

Lemma complete_of_settled {A} (o : Outcome A) : settled o → complete o = o.
Proof. by destruct o. Qed.

(** The event loop runs what follows a computation once the computation
    itself has come to its end. *)
Lemma complete_andThen {A B} (o : Outcome A) (k : A → Loader B) :
  complete (andThen o k) = andThen (complete o) (fun a => settle (k a)).
Proof. induction o as [a st|e st|st|rejected read resume IH st]; simpl; auto. Qed.

Lemma settle_bind {A B} (m : Loader A) (k : A → Loader B) (st : LoaderState) :
  settle (bind m k) st = bind (settle m) (fun a => settle (k a)) st.
Proof. apply complete_andThen. Qed.

Lemma andThen_settled {A B} (o : Outcome A) (k : A → Loader B) :
  settled o → (∀ a st, settled (k a st)) → settled (andThen o k).
Proof. destruct o; simpl; auto. Qed.

Lemma forEach_settled {A} (l : list A) (callback : A → Loader unit) :
  (∀ x st, settled (callback x st)) → ∀ st, settled (forEach l callback st).
Proof.
  intros Hall. induction l as [|x l IH]; intros st; [done|].
  apply andThen_settled; auto.
Qed.

(* ------------------------------------------------------------------------- *)
(** ** The walk of removed entities, relation by relation *)

Section RemovalCheck.
Context (connection : Connection) (heap : EntityHeap).
Context (recurse : SubjectAddr → Loader unit).

(** The read of a related entity is issued and the callback waits; when a
    row is the answer, the callback wraps it in a new subject and pushes the
    subject [a] it was given, in the state the loader is in by then. *)
Lemma loadRelatedSubject_row (a : SubjectAddr) (relation : RelationMetadata)
    (column : string) (id : Value) (row : ObjectLiteral) (st : LoaderState) :
  getSingleResult connection (target (inverseEntityMetadata connection relation))
    column id = FetchOk (Some row) →
  ∃ resume,
    loadRelatedSubject connection a relation column id st =
      Awaiting None (length (queries st)) resume
        (issued st
           (QSingleResult (target (inverseEntityMetadata connection relation))
              (tableName (inverseEntityMetadata connection relation)) column id)) ∧
    ∀ st', resume st' =
             Resolved (Some (length (subjects st')))
               (fetched st' (inverseEntityMetadata connection relation) row a).
Proof.
  intros Hrow. eexists. split; [reflexivity|].
  intros st'. simpl. by rewrite Hrow.
Qed.

Lemma loadRelatedSubject_no_row (a : SubjectAddr) (relation : RelationMetadata)
    (column : string) (id : Value) (st : LoaderState) :
  getSingleResult connection (target (inverseEntityMetadata connection relation))
    column id = FetchOk None →
  ∃ resume,
    loadRelatedSubject connection a relation column id st =
      Awaiting None (length (queries st)) resume
        (issued st
           (QSingleResult (target (inverseEntityMetadata connection relation))
              (tableName (inverseEntityMetadata connection relation)) column id)) ∧
    ∀ st', resume st' = Resolved None st'.
Proof.
  intros Hrow. eexists. split; [reflexivity|].
  intros st'. simpl. by rewrite Hrow.
Qed.

(** C5: for an owner-side relation with cascade of removals, the check
    leaves the state as it is, without a read and without a mark, when the
    relation identifier of the database entity is present, and also when
    the persisted relation identifier is null or is the identifier of the
    database entity. *)
Theorem owner_side_check_marks_nothing (a : SubjectAddr) (s : Subject)
    (relation : RelationMetadata) (d : ObjectLiteral) (st : LoaderState) :
  isOneToOneOwner relation || isManyToOne relation = true →
  isCascadeRemove relation = true →
  databaseEntity s = Some d →
  isPresent (getOwnEntityRelationId relation d) = true ∨
  persistValueRelationId heap relation s = Some VNull ∨
  persistValueRelationId heap relation s = Some (getOwnEntityRelationId relation d) →
  checkRelation connection heap recurse a s relation st = Resolved tt st.
Proof.
  intros Howner Hremove Hdb Hcase.
  unfold checkRelation. rewrite Hremove, Hdb. cbn [negb].
  destruct (persistValueRelationId heap relation s) as [pv|] eqn:Hpv; [|done].
  rewrite Howner. unfold checkOwnerRelation.
  destruct (isPresent (getOwnEntityRelationId relation d)) eqn:Hpresent; [done|].
  destruct Hcase as [Hcase | [Hcase | Hcase]]; [done| |];
    injection Hcase as ->; rewrite strictEq_refl.
  - done.
  - by rewrite orb_true_r.
Qed.

(** C8: for the side without join column of a one-to-one relation with
    cascade of removals, when the related entity is not in the collection
    and the read of the other side finds no row, the check marks nothing and
    does not fail: either it returns at once, or it issues the read and
    waits, and then resolves in whatever state the loader is in when the
    answer comes, leaving that state as it is.  Run to its end with nothing
    else in flight, the check resolves, and neither the subjects, marks
    included, nor the collection have changed. *)
Theorem inverse_side_lookup_without_row (a : SubjectAddr) (s : Subject)
    (relation : RelationMetadata) (e d : ObjectLiteral) (st : LoaderState) :
  isOneToOneNotOwner relation = true →
  isCascadeRemove relation = true →
  entity s = Some e →
  databaseEntity s = Some d →
  find (isLoadedRelated connection relation (getOwnEntityRelationId relation d)) st =
    Resolved None st →
  getSingleResult connection (target (inverseEntityMetadata connection relation))
    (inverseSideProperty relation) (getOwnEntityRelationId relation e) = FetchOk None →
  (checkRelation connection heap recurse a s relation st = Resolved tt st ∨
   ∃ resume,
     checkRelation connection heap recurse a s relation st =
       Awaiting None (length (queries st)) resume
         (issued st (inverseLookup connection relation e)) ∧
     ∀ st', resume st' = Resolved tt st') ∧
  ∃ st', complete (checkRelation connection heap recurse a s relation st) =
           Resolved tt st' ∧
         subjects st' = subjects st ∧ loadMap st' = loadMap st.
Proof.
  intros Hkind Hremove He Hdb Hfind Hrow.
  assert (checkRelation connection heap recurse a s relation st = Resolved tt st ∨
          ∃ resume,
            checkRelation connection heap recurse a s relation st =
              Awaiting None (length (queries st)) resume
                (issued st (inverseLookup connection relation e)) ∧
            ∀ st', resume st' = Resolved tt st') as Hcheck.
  { unfold checkRelation. rewrite Hremove, Hdb. cbn [negb].
    destruct (persistValueRelationId heap relation s) as [pv|]; [|by left].
    rewrite (inverse_side_is_not_owner relation Hkind).
    rewrite Hkind, He. unfold checkNotOwnerRelation.
    destruct (isPresent (getOwnEntityRelationId relation d)); [by left|].
    right. unfold bind at 1. rewrite Hfind. cbn [andThen]. unfold bind at 1.
    destruct (loadRelatedSubject_no_row a relation _ _ st Hrow)
      as (resume & -> & Hresume).
    eexists. split; [reflexivity|]. intros st'. simpl. by rewrite Hresume. }
  split; [exact Hcheck|].
  destruct Hcheck as [-> | (resume & -> & Hresume)]; [by eexists|].
  simpl. rewrite Hresume. by eexists.
Qed.


End RemovalCheck.

(* ------------------------------------------------------------------------- *)
(** ** Computations and the relations they respect *)

Section Respects.
Context (R : relation LoaderState) `{!PreOrder R}.

Lemma stepwise_state {A} (st : LoaderState) (o : Outcome A) :
  stepwise R st o → R st (outcomeState o).
Proof. destruct o; simpl; tauto. Qed.

Lemma stepwise_resumable {A} (st : LoaderState) (o : Outcome A) :
  stepwise R st o → resumable R o.
Proof. destruct o; simpl; tauto. Qed.

Lemma stepwise_from {A} (st st' : LoaderState) (o : Outcome A) :
  R st st' → stepwise R st' o → stepwise R st o.
Proof.
  intros Hst. destruct o; simpl; try (intros Ho; by etrans).
  intros [Ho Hresume]. split; [by etrans|done].
Qed.

Lemma stepwise_settled {A} (st : LoaderState) (o : Outcome A) :
  settled o → R st (outcomeState o) → stepwise R st o.
Proof. by destruct o. Qed.

Lemma stepwise_andThen {A B} (st : LoaderState) (o : Outcome A) (k : A → Loader B) :
  stepwise R st o → (∀ a, respects R (k a)) → stepwise R st (andThen o k).
Proof.
  intros Ho Hk. revert st Ho.
  induction o as [a st'|e st'|st'|rejected read resume IH st']; intros st Ho; simpl in *.
  - eapply stepwise_from; [exact Ho|apply Hk].
  - done.
  - done.
  - destruct Ho as [Ho Hresume]. split; [done|]. intros st''. by apply IH.
Qed.

Lemma stepwise_complete {A} (st : LoaderState) (o : Outcome A) :
  stepwise R st o → R st (outcomeState (complete o)).
Proof.
  revert st. induction o as [a st'|e st'|st'|rejected read resume IH st'];
    intros st Ho; simpl in *; [done..|].
  destruct Ho as [Ho Hresume]. etrans; [exact Ho|]. by apply IH.
Qed.

Lemma respects_state {A} (m : Loader A) (st : LoaderState) :
  respects R m → R st (outcomeState (m st)).
Proof. intros Hm. apply stepwise_state, Hm. Qed.

Lemma respects_ret {A} (a : A) : respects R (ret a).
Proof. intros st. simpl. reflexivity. Qed.

Lemma respects_reject {A} (e : LoadError) : respects R (@reject A e).
Proof. intros st. simpl. reflexivity. Qed.

Lemma respects_outOfFuel {A} : respects R (@outOfFuel A).
Proof. intros st. simpl. reflexivity. Qed.

Lemma respects_bind {A B} (m : Loader A) (k : A → Loader B) :
  respects R m → (∀ a, respects R (k a)) → respects R (bind m k).
Proof. intros Hm Hk st. apply stepwise_andThen; [apply Hm|done]. Qed.

Lemma respects_forEach {A} (l : list A) (callback : A → Loader unit) :
  (∀ x, x ∈ l → respects R (callback x)) → respects R (forEach l callback).
Proof.
  induction l as [|x l IH]; intros Hall; simpl.
  - apply respects_ret.
  - apply respects_bind.
    + apply Hall. left.
    + intros _. apply IH. intros y Hy. apply Hall. by right.
Qed.

(** A computation run with the event loop relates the state it starts in to
    the state it ends in. *)
Lemma respects_settle {A} (m : Loader A) : respects R m → respects R (settle m).
Proof.
  intros Hm st. apply stepwise_settled; [apply complete_settled|].
  apply stepwise_complete, Hm.
Qed.

Section Joined.
Context (connection : Connection).

Lemma stepwise_join (o1 : Outcome unit) :
  ∀ o2 first from st,
    R from st → resumable R o1 → resumable R o2 →
    stepwise R from (join connection o1 first o2 st).
Proof.
  induction o1 as [a1 st1|e1 st1|st1|rejected1 read1 resume1 IH1 st1];
    intros o2;
    induction o2 as [a2 st2|e2 st2|st2|rejected2 read2 resume2 IH2 st2];
    intros first from st Hst H1 H2; simpl in *;
    try done; try (by destruct first).
  - split; [done|]. intros st'. apply IH2; [|done|].
    + apply stepwise_state, H2.
    + eapply stepwise_resumable, H2.
  - split; [done|]. intros st'. apply IH2; [|done|].
    + apply stepwise_state, H2.
    + eapply stepwise_resumable, H2.
  - split; [done|]. intros st'. apply IH1; [|by eapply stepwise_resumable, H1|done].
    apply stepwise_state, H1.
  - split; [done|]. intros st'. apply IH1; [|by eapply stepwise_resumable, H1|done].
    apply stepwise_state, H1.
  - destruct (answeredBefore connection read1 read2); simpl.
    + split; [done|]. intros st'.
      apply IH1; [|by eapply stepwise_resumable, H1|done].
      apply stepwise_state, H1.
    + split; [done|]. intros st'. apply IH2; [|exact H1|].
      * apply stepwise_state, H2.
      * eapply stepwise_resumable, H2.
Qed.

Lemma respects_all {A} (l : list A) (callback : A → Loader unit) :
  (∀ x, x ∈ l → respects R (callback x)) → respects R (all connection l callback).
Proof.
  induction l as [|x l IH]; intros Hall st; simpl; [reflexivity|].
  assert (stepwise R st (callback x st)) as Hx by (apply Hall; left).
  assert (stepwise R (outcomeState (callback x st))
            (all connection l callback (outcomeState (callback x st)))) as Hrest.
  { apply IH. intros y Hy. apply Hall. by right. }
  apply stepwise_join.
  - etrans; [exact (stepwise_state _ _ Hx)|exact (stepwise_state _ _ Hrest)].
  - exact (stepwise_resumable _ _ Hx).
  - exact (stepwise_resumable _ _ Hrest).
Qed.

End Joined.
End Respects.

#[global] Instance logExtends_preorder : PreOrder logExtends.
Proof.
  split.
  - intros st. unfold logExtends. reflexivity.
  - intros st1 st2 st3. unfold logExtends. intros H1 H2. by etrans.
Qed.

Lemma silent_logExtends {A} (m : Loader A) : silent m → respects logExtends m.
Proof.
  intros Hm st. destruct (Hm st) as (a & st' & -> & Hq).
  unfold logExtends. simpl. by rewrite Hq.
Qed.

(** A computation that resolves without a read respects a relation when
    the state it resolves in is related to the state it starts in. *)
Lemma respects_silent (R : relation LoaderState) {A} (m : Loader A) :
  silent m → (∀ st, R st (outcomeState (m st))) → respects R m.
Proof.
  intros Hm HR st. specialize (HR st).
  destruct (Hm st) as (a & st' & Hst & _). by rewrite Hst in *.
Qed.

Lemma silent_ret {A} (a : A) : silent (ret a).
Proof. intros st. by eexists _, _. Qed.

Lemma silent_bind {A B} (m : Loader A) (k : A → Loader B) :
  silent m → (∀ a, silent (k a)) → silent (bind m k).
Proof.
  intros Hm Hk st. destruct (Hm st) as (a & st' & Hst & Hq).
  destruct (Hk a st') as (b & st'' & Hst' & Hq').
  exists b, st''. unfold bind. rewrite Hst. simpl. rewrite Hst'. split; [done|congruence].
Qed.

Lemma silent_newSubject md e d : silent (newSubject md e d).
Proof. intros st. by eexists _, _. Qed.

Lemma silent_readSubject a : silent (readSubject a).
Proof. intros st. by eexists _, _. Qed.

Lemma silent_setDatabaseEntity a d : silent (setDatabaseEntity a d).
Proof. intros st. by eexists _, _. Qed.

Lemma silent_markAsRemoved a : silent (markAsRemoved a).
Proof. intros st. by eexists _, _. Qed.

Lemma silent_push a : silent (push a).
Proof. intros st. by eexists _, _. Qed.

Lemma silent_find predicate : silent (find predicate).
Proof. intros st. by eexists _, _. Qed.

Lemma silent_pushIfNotExist a : silent (pushIfNotExist a).
Proof.
  unfold pushIfNotExist. apply silent_bind; [apply silent_readSubject|].
  intros [subject|]; [|apply silent_ret].
  apply silent_bind; [apply silent_find|].
  intros [existing|]; [apply silent_ret|apply silent_push].
Qed.

Lemma silent_findByEntityLike t sample : silent (findByEntityLike t sample).
Proof. apply silent_find. Qed.

Lemma silent_groupByEntityTargets : silent groupByEntityTargets.
Proof. intros st. by eexists _, _. Qed.

Lemma silent_loadedSubjects : silent loadedSubjects.
Proof. intros st. by eexists _, _. Qed.

Create HintDb loader.

#[global] Hint Resolve silent_ret silent_newSubject silent_readSubject
  silent_setDatabaseEntity silent_markAsRemoved silent_push silent_find
  silent_pushIfNotExist silent_findByEntityLike silent_groupByEntityTargets
  silent_loadedSubjects : loader.


(* ------------------------------------------------------------------------- *)
(** ** Relations that are cleared and relations that are left untouched *)

Section ClearedAndUntouched.
Context (connection : Connection) (heap : EntityHeap).
Context (recurse : SubjectAddr → Loader unit).

Lemma markAsRemoved_fetched (st : LoaderState) (md : EntityMetadata)
    (row : ObjectLiteral) (a : SubjectAddr) :
  markAsRemoved (length (subjects st)) (fetched st md row a) =
    Resolved tt (fetchedAndMarked st md row a).
Proof.
  unfold markAsRemoved, fetched, fetchedAndMarked. cbn [subjects loadMap queries].
  f_equal. f_equal. rewrite alter_app_r_alt by lia. by rewrite Nat.sub_diag.
Qed.

(** C6: a relation property that is undefined ends the check at once for
    every relation: no read, no mark, the state as it was.  A property that
    is null passes that guard as the value null.  On the side without join
    column of a one-to-one relation it is then examined: the related entity
    is read, and the row that answers is wrapped in a new subject that is
    marked as removed before the walk enters it.  On the owner side it is
    not: the check of the subject with null ends at once as the check of the
    subject with undefined does, whatever their database entities. *)
Theorem null_is_examined_on_inverse_side_only (a : SubjectAddr)
    (cleared untouched : Subject) (relation : RelationMetadata)
    (e e' d row : ObjectLiteral) (st : LoaderState) :
  entity cleared = Some e → getEntityValue relation e = VNull →
  entity untouched = Some e' → getEntityValue relation e' = VUndefined →
  persistValueRelationId heap relation untouched = None ∧
  checkRelation connection heap recurse a untouched relation st = Resolved tt st ∧
  persistValueRelationId heap relation cleared = Some VNull ∧
  (isOneToOneNotOwner relation = true →
   isCascadeRemove relation = true →
   databaseEntity cleared = Some d →
   isPresent (getOwnEntityRelationId relation d) = false →
   find (isLoadedRelated connection relation (getOwnEntityRelationId relation d)) st =
     Resolved None st →
   getSingleResult connection (target (inverseEntityMetadata connection relation))
     (inverseSideProperty relation) (getOwnEntityRelationId relation e) =
     FetchOk (Some row) →
   ∃ resume,
     checkRelation connection heap recurse a cleared relation st =
       Awaiting None (length (queries st)) resume
         (issued st (inverseLookup connection relation e)) ∧
     ∀ st', resume st' =
              recurse (length (subjects st'))
                (fetchedAndMarked st' (inverseEntityMetadata connection relation)
                   row a)) ∧
  (isOneToOneOwner relation || isManyToOne relation = true →
   checkRelation connection heap recurse a cleared relation st = Resolved tt st).
Proof.
  intros He Hnull He' Hundefined.
  assert (persistValueRelationId heap relation cleared = Some VNull) as Hcleared.
  { unfold persistValueRelationId. by rewrite He, Hnull. }
  assert (persistValueRelationId heap relation untouched = None) as Huntouched.
  { unfold persistValueRelationId. by rewrite He', Hundefined. }
  split; [done|]. split; [|split; [done|split]].
  - unfold checkRelation. destruct (negb _); [done|].
    destruct (databaseEntity untouched) as [d0|]; [|done].
    by rewrite Huntouched.
  - intros Hkind Hremove Hdb Hpresent Hfind Hrow.
    unfold checkRelation. rewrite Hremove, Hdb, Hcleared. cbn [negb].
    rewrite (inverse_side_is_not_owner relation Hkind).
    rewrite Hkind, He. unfold checkNotOwnerRelation. rewrite Hpresent.
    unfold bind at 1. rewrite Hfind. cbn [andThen]. unfold bind at 1.
    destruct (loadRelatedSubject_row connection a relation _ _ row st Hrow)
      as (resume & -> & Hresume).
    eexists. split; [reflexivity|].
    intros st'. cbv beta. rewrite Hresume. cbn [andThen].
    unfold bind at 1, readSubject. cbn [andThen].
    unfold fetched at 1. cbn [subjects].
    rewrite lookup_app_r by lia. rewrite Nat.sub_diag.
    cbn [lookup list_lookup mbind option_bind databaseEntity truthy andb].
    unfold bind. by rewrite markAsRemoved_fetched.
  - intros Howner. unfold checkRelation. destruct (negb _); [done|].
    destruct (databaseEntity cleared) as [d0|]; [|done].
    rewrite Hcleared, Howner. unfold checkOwnerRelation.
    by destruct (isPresent _).
Qed.

End ClearedAndUntouched.

(* ------------------------------------------------------------------------- *)
(** ** The walk of cascaded inserts and updates *)

Lemma elem_of_collected (st : LoaderState) (a : SubjectAddr) (s : Subject) :
  (a, s) ∈ collected st ↔ a ∈ loadMap st ∧ subjects st !! a = Some s.
Proof.
  unfold collected. rewrite list_elem_of_omap. split.
  - intros (b & Hb & Hs). destruct (subjects st !! b) as [s'|] eqn:Hlookup; [|done].
    simpl in Hs. by simplify_eq.
  - intros [Ha Hs]. exists a. split; [done|]. by rewrite Hs.
Qed.

Lemma elem_of_collectedKeys (st : LoaderState) (key : Target * Value) :
  key ∈ collectedKeys st ↔
  ∃ a s, a ∈ loadMap st ∧ subjects st !! a = Some s ∧ subjectKey s = key.
Proof.
  unfold collectedKeys. rewrite list_elem_of_fmap. split.
  - intros ([a s] & -> & Hin). apply elem_of_collected in Hin as [Ha Hs]. by exists a, s.
  - intros (a & s & Ha & Hs & <-). exists (a, s). split; [done|].
    by apply elem_of_collected.
Qed.

Lemma grows_refl (P : Subject → Prop) (st : LoaderState) : grows P st st.
Proof.
  repeat split.
  - exists []. by rewrite app_nil_r.
  - exists []. by rewrite app_nil_r.
Qed.

Lemma grows_trans (P : Subject → Prop) (st1 st2 st3 : LoaderState) :
  grows P st1 st2 → grows P st2 st3 → grows P st1 st3.
Proof.
  intros ((c1 & Hc1) & (p1 & Hp1 & HP1) & Hq1) ((c2 & Hc2) & (p2 & Hp2 & HP2) & Hq2).
  repeat split.
  - exists (c1 ++ c2). by rewrite Hc2, Hc1, app_assoc.
  - exists (p1 ++ p2). split; [by rewrite Hp2, Hp1, app_assoc|].
    apply Forall_app. split; [|done].
    eapply Forall_impl; [exact HP1|]. intros a (s & Hs & HPs). exists s. split; [|done].
    rewrite Hc2. by apply lookup_app_l_Some.
  - congruence.
Qed.

Lemma grows_weaken (P Q : Subject → Prop) (st st' : LoaderState) :
  (∀ s, P s → Q s) → grows P st st' → grows Q st st'.
Proof.
  intros HPQ (Hc & (p & Hp & HP) & Hq). repeat split; [done| |done].
  exists p. split; [done|]. eapply Forall_impl; [exact HP|].
  intros a (s & Hs & HPs). eauto.
Qed.

Lemma grows_collectedKeys (P : Subject → Prop) (st st' : LoaderState) (key : Target * Value) :
  grows P st st' → key ∈ collectedKeys st → key ∈ collectedKeys st'.
Proof.
  intros ((c & Hc) & (p & Hp & _) & _). rewrite !elem_of_collectedKeys.
  intros (a & s & Ha & Hs & Hkey). exists a, s. repeat split; [| |done].
  - rewrite Hp. apply elem_of_app. by left.
  - rewrite Hc. by apply lookup_app_l_Some.
Qed.

(** [pushIfNotExist] leaves the store alone, appends the subject or
    nothing, and in both cases the collection then has a subject of its type
    and identifier. *)
Lemma pushIfNotExist_spec (a : SubjectAddr) (s : Subject) (st : LoaderState) :
  subjects st !! a = Some s →
  ∃ st', pushIfNotExist a st = Resolved tt st' ∧
         subjects st' = subjects st ∧
         (loadMap st' = loadMap st ∨
          loadMap st' = loadMap st ++ [a] ∧ subjectKey s ∉ collectedKeys st) ∧
         queries st' = queries st ∧
         subjectKey s ∈ collectedKeys st'.
Proof.
  intros Hs. unfold pushIfNotExist, bind, readSubject. rewrite Hs.
  cbn [andThen]. unfold find. cbn [andThen].
  destruct (head (filter _ (collected st))) as [[b sb]|] eqn:Hhead; simpl.
  - exists st. repeat split; [by left|].
    apply head_Some_elem_of in Hhead. apply list_elem_of_filter in Hhead as [Hkey Hin].
    simpl in Hkey. apply bool_decide_eq_true in Hkey.
    apply elem_of_collected in Hin as [Hb Hsb].
    apply elem_of_collectedKeys. by exists b, sb.
  - eexists. split; [reflexivity|]. simpl. repeat split.
    + right. split; [done|]. intros Hin.
      apply elem_of_collectedKeys in Hin as (b & sb & Hb & Hsb & Hkey).
      apply head_None in Hhead.
      assert ((b, sb) ∈ filter
                (fun p : SubjectAddr * Subject =>
                   bool_decide (subjectKey p.2 = subjectKey s) = true) (collected st))
        as Hin.
      { apply list_elem_of_filter. split; [by apply bool_decide_eq_true|].
        by apply elem_of_collected. }
      rewrite Hhead in Hin. by apply elem_of_nil in Hin.
    + apply elem_of_collectedKeys. exists a, s. simpl. repeat split; [|done].
      apply elem_of_app. right. by apply list_elem_of_singleton.
Qed.

#[global] Instance keepsKeysUnique_preorder : PreOrder keepsKeysUnique.
Proof. split; unfold keepsKeysUnique; [by intros st|intros st1 st2 st3; auto]. Qed.

Lemma collected_store_app (st : LoaderState) (created : list Subject) :
  allocated st →
  collected {| subjects := subjects st ++ created; loadMap := loadMap st;
               queries := queries st |} = collected st.
Proof.
  unfold allocated, collected. simpl. intros Hall.
  apply list_omap_ext, Forall2_same_length_lookup. split; [done|].
  intros i a b Ha Hb. assert (a = b) as <- by congruence.
  rewrite Forall_lookup in Hall. specialize (Hall i a Ha).
  by rewrite lookup_app_l.
Qed.

Lemma newSubject_keysUnique md e d : respects keepsKeysUnique (newSubject md e d).
Proof.
  intros st [Halloc Hnodup]. simpl. split.
  - unfold allocated in *. simpl. rewrite length_app.
    eapply Forall_impl; [exact Halloc|]. simpl. intros a Ha. lia.
  - unfold collectedKeys. by rewrite collected_store_app.
Qed.

Lemma pushIfNotExist_keysUnique a : respects keepsKeysUnique (pushIfNotExist a).
Proof.
  apply respects_silent; [apply silent_pushIfNotExist|].
  intros st [Halloc Hnodup].
  destruct (subjects st !! a) as [s|] eqn:Hs.
  - destruct (pushIfNotExist_spec a s st Hs) as (st' & -> & Hsub & Hl & _ & _).
    simpl. unfold keysUnique, allocated, collectedKeys, collected in *.
    rewrite Hsub. destruct Hl as [-> | [-> Hnew]]; [done|]. split.
    + apply Forall_app. split; [done|]. apply Forall_singleton.
      by apply lookup_lt_Some in Hs.
    + rewrite omap_app, fmap_app. simpl. rewrite Hs. simpl.
      apply NoDup_app. repeat split; [done| |apply NoDup_singleton].
      intros key Hkey Hkey'. apply list_elem_of_singleton in Hkey' as ->. done.
  - unfold pushIfNotExist, bind, readSubject. rewrite Hs. done.
Qed.

Lemma forEach_app_resolved {A} (l1 l2 : list A) (callback : A → Loader unit)
    (st st' : LoaderState) :
  forEach (l1 ++ l2) callback st = Resolved tt st' →
  ∃ st1, forEach l1 callback st = Resolved tt st1 ∧
         forEach l2 callback st1 = Resolved tt st'.
Proof.
  revert st. induction l1 as [|x l1 IH]; intros st; simpl.
  - intros H. by exists st.
  - unfold bind. destruct (callback x st) as [[] st1|err st1|st1|rejected read resume st1].
    + apply IH.
    + done.
    + done.
    + done.
Qed.

Lemma forEach_cons_resolved {A} (x : A) (l : list A) (callback : A → Loader unit)
    (st st' : LoaderState) :
  forEach (x :: l) callback st = Resolved tt st' →
  ∃ st1, callback x st = Resolved tt st1 ∧ forEach l callback st1 = Resolved tt st'.
Proof.
  simpl. unfold bind.
  destruct (callback x st) as [[] st1|err st1|st1|rejected read resume st1]; [|done..].
  intros H. by exists st1.
Qed.

Lemma forEach_resolved_grows {A} (P : Subject → Prop) (l : list A)
    (callback : A → Loader unit) (st st' : LoaderState) :
  (∀ x st0 st1, x ∈ l → callback x st0 = Resolved tt st1 → grows P st0 st1) →
  forEach l callback st = Resolved tt st' → grows P st st'.
Proof.
  revert st. induction l as [|x l IH]; intros st Hstep Hrun.
  - injection Hrun as <-. apply grows_refl.
  - apply forEach_cons_resolved in Hrun as (st1 & Hx & Hl).
    eapply grows_trans.
    + eapply Hstep; [left|exact Hx].
    + apply IH; [|done]. intros y st0 st2 Hy. apply Hstep. by right.
Qed.

Section FirstWalk.
Context (connection : Connection) (heap : EntityHeap).

Local Abbreviation walk := (findCascadeUpdateAndInsertEntitiesToLoad connection heap).
Local Abbreviation edge := (cascadeEdge connection heap).

Lemma walk_succ (fuel : nat) (e : ObjectLiteral) (md : EntityMetadata) :
  walk (S fuel) e md =
    forEach (extractRelationValuesFromEntity connection e (relations md))
      (visitRelationValue heap (walk fuel)).
Proof. reflexivity. Qed.

(** A relation that is not followed leaves the state as it is, whatever
    the recursive call would do. *)
Lemma visitRelationValue_skips recurse relation value valueMetadata st :
  isEntityDefined value = false ∨
  isCascadeInsert relation || isCascadeUpdate relation = false →
  visitRelationValue heap recurse (relation, value, valueMetadata) st = Resolved tt st.
Proof.
  intros Hgate. unfold visitRelationValue, cascadesInsertOrUpdate.
  destruct Hgate as [-> | ->]; [done|]. by rewrite andb_false_r.
Qed.

(** A relation that is followed gets a subject of the related entity,
    created or found in the collection, and the walk goes on in the related
    entity. *)
Lemma visitRelationValue_follows recurse relation value valueMetadata st st' :
  cascadesInsertOrUpdate relation value = true →
  visitRelationValue heap recurse (relation, value, valueMetadata) st = Resolved tt st' →
  ∃ st1,
    grows (fun s => entity s = Some (derefObject heap value) ∧
                    metadata s = valueMetadata) st st1 ∧
    entityKey (derefObject heap value, valueMetadata) ∈ collectedKeys st1 ∧
    recurse (derefObject heap value) valueMetadata st1 = Resolved tt st'.
Proof.
  intros Hgate. unfold visitRelationValue. rewrite Hgate.
  unfold bind at 1, newSubject. cbn [andThen].
  set (created := {| metadata := valueMetadata;
                     entity := Some (derefObject heap value);
                     databaseEntity := None; markedAsRemoved := false |}).
  set (st0 := {| subjects := subjects st ++ [created]; loadMap := loadMap st;
                 queries := queries st |}).
  assert (subjects st0 !! length (subjects st) = Some created) as Hcreated.
  { simpl. rewrite lookup_app_r by lia. by rewrite Nat.sub_diag. }
  destruct (pushIfNotExist_spec _ _ _ Hcreated) as (st1 & Hpush & Hs & Hl & Hq & Hkey).
  unfold bind. rewrite Hpush. cbn [andThen]. intros Hrec. exists st1. repeat split; [| | |done..].
  - exists [created]. by rewrite Hs.
  - destruct Hl as [Hl | [Hl _]].
    + exists []. rewrite app_nil_r. by split.
    + exists [length (subjects st)]. split; [done|].
      apply Forall_singleton. exists created. by rewrite Hs.
  - by rewrite Hq.
Qed.

Lemma elem_of_extract e rels (triple : RelationMetadata * Value * EntityMetadata) :
  triple ∈ extractRelationValuesFromEntity connection e rels ↔
  ∃ relation, relation ∈ rels ∧
    triple = (relation, getEntityValue relation e,
              inverseEntityMetadata connection relation).
Proof.
  unfold extractRelationValuesFromEntity. rewrite list_elem_of_fmap.
  split; intros (relation & H1 & H2); by exists relation.
Qed.

(** The walk only appends, and what it appends to the collection are
    subjects of entities reached along followed relations. *)
Lemma walk_grows (fuel : nat) (e : ObjectLiteral) (md : EntityMetadata)
    (st st' : LoaderState) :
  walk fuel e md st = Resolved tt st' →
  grows (reachedFrom connection heap (e, md)) st st'.
Proof.
  revert e md st st'. induction fuel as [|fuel IH]; intros e md st st'; [done|].
  rewrite walk_succ. apply forEach_resolved_grows.
  intros triple st0 st1 Hin Hstep.
  apply elem_of_extract in Hin as (relation & Hrel & ->).
  destruct (cascadesInsertOrUpdate relation (getEntityValue relation e)) eqn:Hgate.
  - pose proof Hgate as Hgate'. unfold cascadesInsertOrUpdate in Hgate'.
    apply andb_true_iff in Hgate' as [Hdefined Hcascade].
    pose proof (cascadeEdge_intro connection heap e md relation Hrel Hdefined Hcascade)
      as Hedge.
    apply visitRelationValue_follows in Hstep as (st2 & Hgrow & _ & Hrec); [|done].
    eapply grows_trans.
    + eapply grows_weaken; [|exact Hgrow].
      intros s [Hentity Hmd]. eexists. split; [exact Hentity|].
      rewrite Hmd. by apply tc_once.
    + eapply grows_weaken; [|apply (IH _ _ _ _ Hrec)].
      intros s (v & Hentity & Hreach). exists v. split; [done|].
      by eapply tc_l.
  - rewrite visitRelationValue_skips in Hstep.
    + injection Hstep as <-. apply grows_refl.
    + unfold cascadesInsertOrUpdate in Hgate.
      apply andb_false_iff in Hgate as [Hgate|Hgate]; auto.
Qed.

(** Every entity reached along followed relations has a subject of its
    type and identifier in the collection once the walk is over. *)
Lemma walk_collects (fuel : nat) (e : ObjectLiteral) (md : EntityMetadata)
    (st st' : LoaderState) (node : ObjectLiteral * EntityMetadata) :
  walk fuel e md st = Resolved tt st' →
  tc edge (e, md) node →
  entityKey node ∈ collectedKeys st'.
Proof.
  revert e md st st' node.
  induction fuel as [|fuel IH]; intros e md st st' node Hwalk Hreach; [done|].
  assert (∃ next, edge (e, md) next ∧ (node = next ∨ tc edge next node))
    as (next & Hedge & Hnode).
  { inversion Hreach; subst; eauto. }
  inversion Hedge as [e0 md0 relation Hrel Hdefined Hcascade]; subst.
  rewrite walk_succ in Hwalk.
  apply list_elem_of_split in Hrel as (rels1 & rels2 & Hrels).
  rewrite Hrels in Hwalk. unfold extractRelationValuesFromEntity in Hwalk.
  rewrite fmap_app, fmap_cons in Hwalk.
  apply forEach_app_resolved in Hwalk as (st1 & _ & Hwalk).
  apply forEach_cons_resolved in Hwalk as (st2 & Hstep & Hrest).
  apply visitRelationValue_follows in Hstep as (st3 & _ & Hkey & Hrec).
  2:{ unfold cascadesInsertOrUpdate. by rewrite Hdefined, Hcascade. }
  assert (grows (fun _ => True) st2 st') as Hgrow2.
  { eapply forEach_resolved_grows; [|exact Hrest].
    intros [[relation' value'] md'] st4 st5 _ Hstep'.
    destruct (cascadesInsertOrUpdate relation' value') eqn:Hgate.
    - apply visitRelationValue_follows in Hstep' as (st6 & Hg1 & _ & Hrec'); [|done].
      eapply grows_trans; [by eapply grows_weaken; [|exact Hg1]|].
      eapply grows_weaken; [|exact (walk_grows _ _ _ _ _ Hrec')]. done.
    - unfold visitRelationValue in Hstep'. rewrite Hgate in Hstep'.
      injection Hstep' as <-. apply grows_refl. }
  eapply grows_collectedKeys; [exact Hgrow2|].
  destruct Hnode as [-> | Hnode].
  - eapply grows_collectedKeys; [exact (walk_grows _ _ _ _ _ Hrec)|done].
  - by eapply IH.
Qed.

Lemma forEach_resolves {A} (l : list A) (callback : A → Loader unit) :
  (∀ x st, x ∈ l → ∃ st', callback x st = Resolved tt st') →
  ∀ st, ∃ st', forEach l callback st = Resolved tt st'.
Proof.
  induction l as [|x l IH]; intros Hall st.
  - by exists st.
  - destruct (Hall x st) as (st1 & Hx); [left|].
    destruct (IH (fun y st0 Hy => Hall y st0 (list_elem_of_further _ _ _ Hy)) st1)
      as (st' & Hl).
    exists st'. simpl. unfold bind. by rewrite Hx.
Qed.

(** On a graph where every followed relation leads to an entity of lower
    rank, hence one without a cycle of followed relations, the walk comes to
    an end when it is allowed a depth above the rank of its root. *)
Lemma walk_resolves_on_ranked_graph (rank : ObjectLiteral * EntityMetadata → nat) :
  (∀ x y, edge x y → rank y < rank x) →
  ∀ fuel e md st, rank (e, md) < fuel → ∃ st', walk fuel e md st = Resolved tt st'.
Proof.
  intros Hrank. induction fuel as [|fuel IH]; intros e md st Hfuel; [lia|].
  rewrite walk_succ. apply forEach_resolves. intros triple st0 Hin.
  apply elem_of_extract in Hin as (relation & Hrel & ->).
  unfold visitRelationValue.
  destruct (cascadesInsertOrUpdate relation (getEntityValue relation e)) eqn:Hgate;
    [|by eexists].
  unfold cascadesInsertOrUpdate in Hgate.
  apply andb_true_iff in Hgate as [Hdefined Hcascade].
  pose proof (Hrank _ _ (cascadeEdge_intro connection heap e md relation
                           Hrel Hdefined Hcascade)) as Hlower.
  unfold bind at 1, newSubject. cbn [andThen].
  match goal with |- context [pushIfNotExist ?a] =>
    match goal with |- context [bind _ _ ?st1] =>
      destruct (silent_pushIfNotExist a st1) as ([] & st2 & Hpush & _)
    end
  end.
  unfold bind. rewrite Hpush. cbn [andThen]. apply IH. lia.
Qed.

Lemma walk_keeps_keys_unique (fuel : nat) (e : ObjectLiteral) (md : EntityMetadata) :
  respects keepsKeysUnique (walk fuel e md).
Proof.
  revert e md. induction fuel as [|fuel IH]; intros e md.
  - apply respects_outOfFuel; apply _.
  - rewrite walk_succ. apply respects_forEach; [apply _|].
    intros [[relation value] valueMetadata] _. unfold visitRelationValue.
    destruct (cascadesInsertOrUpdate relation value); [|apply respects_ret; apply _].
    apply respects_bind; [apply _|apply newSubject_keysUnique|]. intros a.
    apply respects_bind; [apply _|apply pushIfNotExist_keysUnique|]. intros _.
    apply IH.
Qed.

(** When the first walk of [load] is over, or is cut, no two subjects of the
    collection have the same type and identifier. *)
Lemma first_walk_of_load_keeps_keys_unique (fuel : nat) (e : ObjectLiteral)
    (md : EntityMetadata) :
  keysUnique
    (outcomeState
       ((let* persistedEntity := newSubject md (Some e) None in
         push persistedEntity >> walk fuel e md) initialState)).
Proof.
  set (root := {| metadata := md; entity := Some e; databaseEntity := None;
                  markedAsRemoved := false |}).
  set (st0 := {| subjects := [root]; loadMap := [0]; queries := [] |}).
  change (keysUnique (outcomeState (walk fuel e md st0))).
  apply (respects_state keepsKeysUnique _ st0 (walk_keeps_keys_unique fuel e md)). split.
  - apply Forall_singleton. simpl. lia.
  - unfold collectedKeys, collected. simpl. apply NoDup_singleton.
Qed.

(** C7: in the first walk a relation is left alone, whatever the recursive
    call would do, when its value is not an entity and when it cascades
    neither inserts nor updates; and once the walk of an entity is over, the
    collection has only grown, by subjects of entities reached along
    relations whose value is an entity and that cascade inserts or updates,
    and it holds a subject of the type and identifier of every entity so
    reached. *)
Theorem first_walk_follows_cascades (fuel : nat) (e : ObjectLiteral)
    (md : EntityMetadata) (st st' : LoaderState) :
  walk fuel e md st = Resolved tt st' →
  (∀ recurse relation value valueMetadata st0,
     isEntityDefined value = false ∨
     isCascadeInsert relation || isCascadeUpdate relation = false →
     visitRelationValue heap recurse (relation, value, valueMetadata) st0 =
       Resolved tt st0) ∧
  grows (reachedFrom connection heap (e, md)) st st' ∧
  (∀ node, tc edge (e, md) node → entityKey node ∈ collectedKeys st').
Proof.
  intros Hwalk. split; [|split].
  - intros. by apply visitRelationValue_skips.
  - by apply (walk_grows fuel).
  - intros node. by apply (walk_collects fuel e md st).
Qed.

End FirstWalk.

(* ------------------------------------------------------------------------- *)
(** ** Graphs with a cycle *)

Lemma forEach_cons_outOfFuel {A} (x : A) (l : list A) (callback : A → Loader unit)
    (st : LoaderState) :
  (∃ st', callback x st = OutOfFuel st') →
  ∃ st', forEach (x :: l) callback st = OutOfFuel st'.
Proof. intros (st' & Hx). exists st'. simpl. unfold bind. by rewrite Hx. Qed.

Lemma visitRelationValue_outOfFuel heap recurse relation value valueMetadata st :
  cascadesInsertOrUpdate relation value = true →
  (∀ st0, ∃ st', recurse (derefObject heap value) valueMetadata st0 = OutOfFuel st') →
  ∃ st', visitRelationValue heap recurse (relation, value, valueMetadata) st = OutOfFuel st'.
Proof.
  intros Hgate Hrec. unfold visitRelationValue. rewrite Hgate.
  unfold bind at 1, newSubject. cbn [andThen].
  match goal with |- context [pushIfNotExist ?a] =>
    match goal with |- context [bind _ _ ?st0] =>
      destruct (silent_pushIfNotExist a st0) as ([] & st1 & Hpush & _)
    end
  end.
  unfold bind. rewrite Hpush. cbn [andThen]. apply Hrec.
Qed.

Lemma cyclic_walks_run_out_of_fuel (fuel : nat) (st : LoaderState) :
  (∃ st', findCascadeUpdateAndInsertEntitiesToLoad CyclicGraph.connection
            CyclicGraph.heap fuel CyclicGraph.post CyclicGraph.postMetadata st =
          OutOfFuel st') ∧
  (∃ st', findCascadeUpdateAndInsertEntitiesToLoad CyclicGraph.connection
            CyclicGraph.heap fuel CyclicGraph.details CyclicGraph.detailsMetadata st =
          OutOfFuel st').
Proof.
  revert st. induction fuel as [|fuel IH]; intros st.
  - split; by exists st.
  - split; rewrite walk_succ.
    + change (extractRelationValuesFromEntity CyclicGraph.connection CyclicGraph.post
                (relations CyclicGraph.postMetadata))
        with [(CyclicGraph.detailsRelation, VRef 1, CyclicGraph.detailsMetadata)].
      apply forEach_cons_outOfFuel, visitRelationValue_outOfFuel; [done|].
      intros st0. apply (IH st0).
    + change (extractRelationValuesFromEntity CyclicGraph.connection CyclicGraph.details
                (relations CyclicGraph.detailsMetadata))
        with [(CyclicGraph.postRelation, VRef 0, CyclicGraph.postMetadata)].
      apply forEach_cons_outOfFuel, visitRelationValue_outOfFuel; [done|].
      intros st0. apply (IH st0).
Qed.

(** C2: on a post and its details that refer to each other through relations
    with cascade of inserts, the first walk does not come to an end: whatever
    the depth of recursion it is allowed, it is cut at that depth, and so is
    [load]. *)
Theorem cyclic_graph_walk_never_ends (fuel : nat) :
  (∀ st, ∃ st', findCascadeUpdateAndInsertEntitiesToLoad CyclicGraph.connection
                  CyclicGraph.heap fuel CyclicGraph.post CyclicGraph.postMetadata st =
                OutOfFuel st') ∧
  (∃ st', load CyclicGraph.connection CyclicGraph.heap fuel CyclicGraph.post
            CyclicGraph.postMetadata initialState = OutOfFuel st').
Proof.
  split.
  - intros st. apply cyclic_walks_run_out_of_fuel.
  - unfold load, bind, newSubject, push. cbn [andThen subjects loadMap queries].
    match goal with
    | |- context [andThen (findCascadeUpdateAndInsertEntitiesToLoad _ _ _ _ _ ?st0) _] =>
        destruct (proj1 (cyclic_walks_run_out_of_fuel fuel st0)) as (st' & Hwalk)
    end.
    exists st'. by rewrite Hwalk.
Qed.

(* ------------------------------------------------------------------------- *)
(** ** The scenarios *)

(** C1: for the post [{id: 1, category: null}] whose database entity refers
    to the category 5, [load] resolves with the subject of the post alone:
    the category is not read, no subject is created for it and nothing is
    marked as removed. *)
Theorem cleared_category_is_not_marked (fuel : nat) :
  ∃ st, load ScenarioA.connection [] (S fuel) ScenarioA.post ScenarioA.postMetadata
          initialState = Resolved tt st ∧
        removalMarks st = [("Post", VNum 1, false)] ∧
        collectedKeys st = [("Post", VNum 1)] ∧
        queries st = [QFindByIds "Post" "post" [VNum 1]].
Proof.
  eexists. split; [vm_compute; reflexivity|]. by vm_compute.
Qed.

(** C3: for details that have lost their post, where a post of the database
    refers to their new code, [load] resolves with the subject of the details
    twice in the collection, and without the subject of the post that it
    marks as removed. *)
Theorem cleared_post_duplicates_details (fuel : nat) :
  ∃ st, load ClearedPost.connectionWithPost [] (S (S fuel))
          (ClearedPost.details VNull) ClearedPost.detailsMetadata initialState =
          Resolved tt st ∧
        loadMap st = [0; 0] ∧
        collectedKeys st = [("PostDetails", VNum 1); ("PostDetails", VNum 1)] ∧
        ¬ NoDup (collectedKeys st) ∧
        removalMarks st = [("PostDetails", VNum 1, false); ("Post", VNum 4, true)].
Proof.
  eexists. split; [vm_compute; reflexivity|].
  split; [by vm_compute|]. split; [by vm_compute|]. split; [|by vm_compute].
  intros Hnodup. vm_compute in Hnodup.
  apply NoDup_cons in Hnodup as [Hnotin _]. apply Hnotin. left.
Qed.

(** C10: with the same entities, where the post is the side without join
    column of a one-to-one relation removed by cascade, the walk of removed
    entities comes to the subject of the post read from the database, which
    has no persisted entity, and reads the relation identifier of the query
    from that missing entity: [load] rejects. *)
Theorem database_only_subject_is_read (fuel : nat) :
  ∃ st, load ClearedPost.connectionWithImage [] (S (S fuel))
          (ClearedPost.details VNull) ClearedPost.detailsMetadata initialState =
          Rejected AbsentEntityRead st ∧
        ∃ s, subjects st !! 1 = Some s ∧
             entityTarget s = "Post" ∧
             entity s = None ∧
             databaseEntity s = Some ClearedPost.postRow ∧
             markedAsRemoved s = true.
Proof.
  eexists. split; [vm_compute; reflexivity|].
  eexists. split; [vm_compute; reflexivity|]. by vm_compute.
Qed.


(* ------------------------------------------------------------------------- *)
(** ** The statements at work on the scenarios *)

(** The post of scenario A, loaded: its category is left alone. *)
Lemma owner_side_check_marks_nothing_witness :
  checkRelation ScenarioA.connection []
    (findCascadeRemovedEntitiesToLoad ScenarioA.connection [] 1)
    0 ScenarioA.loadedPost ScenarioA.categoryRelation ScenarioA.loadedState =
  Resolved tt ScenarioA.loadedState.
Proof.
  apply (owner_side_check_marks_nothing ScenarioA.connection [] _ 0
           ScenarioA.loadedPost ScenarioA.categoryRelation ScenarioA.postRow).
  - reflexivity.
  - reflexivity.
  - reflexivity.
  - left. reflexivity.
Defined.

(** The post of scenario A whose category is null and the same post without
    a category are both left alone, although the post of the database has
    the category 5; for the details whose post is null the post is read, and
    the post that refers to the details is marked. *)
Lemma null_is_examined_on_inverse_side_only_witness :
  (persistValueRelationId [] ScenarioA.categoryRelation ScenarioA.loadedUntouchedPost =
     None ∧
   checkRelation ScenarioA.connection []
     (findCascadeRemovedEntitiesToLoad ScenarioA.connection [] 1)
     0 ScenarioA.loadedUntouchedPost ScenarioA.categoryRelation ScenarioA.loadedState =
     Resolved tt ScenarioA.loadedState ∧
   persistValueRelationId [] ScenarioA.categoryRelation ScenarioA.loadedPost =
     Some VNull ∧
   checkRelation ScenarioA.connection []
     (findCascadeRemovedEntitiesToLoad ScenarioA.connection [] 1)
     0 ScenarioA.loadedPost ScenarioA.categoryRelation ScenarioA.loadedState =
     Resolved tt ScenarioA.loadedState) ∧
  (checkRelation ClearedPost.connectionWithPost []
     (findCascadeRemovedEntitiesToLoad ClearedPost.connectionWithPost [] 1)
     0 (ClearedPost.subject VUndefined) ClearedPost.postRelation
     (ClearedPost.state VNull) = Resolved tt (ClearedPost.state VNull) ∧
   ∃ resume,
     checkRelation ClearedPost.connectionWithPost []
       (findCascadeRemovedEntitiesToLoad ClearedPost.connectionWithPost [] 1)
       0 (ClearedPost.subject VNull) ClearedPost.postRelation
       (ClearedPost.state VNull) =
       Awaiting None 0 resume
         (issued (ClearedPost.state VNull)
            (QSingleResult "Post" "post" "details" (VStr "d1"))) ∧
     ∀ st', resume st' =
              findCascadeRemovedEntitiesToLoad ClearedPost.connectionWithPost [] 1
                (length (subjects st'))
                (fetchedAndMarked st' ClearedPost.postMetadata ClearedPost.postRow 0)).
Proof.
  split.
  - destruct (null_is_examined_on_inverse_side_only ScenarioA.connection []
                (findCascadeRemovedEntitiesToLoad ScenarioA.connection [] 1) 0
                ScenarioA.loadedPost ScenarioA.loadedUntouchedPost
                ScenarioA.categoryRelation ScenarioA.post ScenarioA.untouchedPost
                ScenarioA.postRow ScenarioA.postRow ScenarioA.loadedState)
      as (Hnone & Huntouched & Hnull & _ & Hcleared); [reflexivity..|].
    split; [exact Hnone|]. split; [exact Huntouched|]. split; [exact Hnull|].
    apply Hcleared. reflexivity.
  - destruct (null_is_examined_on_inverse_side_only ClearedPost.connectionWithPost []
                (findCascadeRemovedEntitiesToLoad ClearedPost.connectionWithPost [] 1) 0
                (ClearedPost.subject VNull) (ClearedPost.subject VUndefined)
                ClearedPost.postRelation (ClearedPost.details VNull)
                (ClearedPost.details VUndefined) ClearedPost.detailsRow
                ClearedPost.postRow (ClearedPost.state VNull))
      as (_ & Huntouched & _ & Hexamined & _); [reflexivity..|].
    split; [exact Huntouched|]. apply Hexamined; reflexivity.
Defined.

(** The details without a post in the database: the post is looked up, and
    nothing is marked. *)
Lemma inverse_side_lookup_without_row_witness :
  (checkRelation ClearedPost.connection []
     (findCascadeRemovedEntitiesToLoad ClearedPost.connection [] 2)
     0 (ClearedPost.subject VNull) ClearedPost.postRelation
     (ClearedPost.state VNull) = Resolved tt (ClearedPost.state VNull) ∨
   ∃ resume,
     checkRelation ClearedPost.connection []
       (findCascadeRemovedEntitiesToLoad ClearedPost.connection [] 2)
       0 (ClearedPost.subject VNull) ClearedPost.postRelation
       (ClearedPost.state VNull) =
     Awaiting None 0 resume
       (issued (ClearedPost.state VNull)
          (QSingleResult "Post" "post" "details" (VStr "d1"))) ∧
     ∀ st', resume st' = Resolved tt st') ∧
  ∃ st', complete
           (checkRelation ClearedPost.connection []
              (findCascadeRemovedEntitiesToLoad ClearedPost.connection [] 2)
              0 (ClearedPost.subject VNull) ClearedPost.postRelation
              (ClearedPost.state VNull)) = Resolved tt st' ∧
         subjects st' = subjects (ClearedPost.state VNull) ∧
         loadMap st' = loadMap (ClearedPost.state VNull).
Proof.
  apply (inverse_side_lookup_without_row ClearedPost.connection [] _ 0
           (ClearedPost.subject VNull) ClearedPost.postRelation
           (ClearedPost.details VNull) ClearedPost.detailsRow);
    reflexivity.
Defined.


(** A post whose category is shared with its information: the walk resolves
    and collects the category and the information. *)
Lemma first_walk_follows_cascades_witness :
  grows (reachedFrom SharedGraph.connection SharedGraph.heap
           (SharedGraph.post, SharedGraph.postMetadata))
    SharedGraph.rootState
    (outcomeState
       (findCascadeUpdateAndInsertEntitiesToLoad SharedGraph.connection
          SharedGraph.heap 3 SharedGraph.post SharedGraph.postMetadata
          SharedGraph.rootState)) ∧
  (∀ node,
     tc (cascadeEdge SharedGraph.connection SharedGraph.heap)
       (SharedGraph.post, SharedGraph.postMetadata) node →
     entityKey node ∈
       collectedKeys
         (outcomeState
            (findCascadeUpdateAndInsertEntitiesToLoad SharedGraph.connection
               SharedGraph.heap 3 SharedGraph.post SharedGraph.postMetadata
               SharedGraph.rootState))).
Proof.
  apply (first_walk_follows_cascades SharedGraph.connection SharedGraph.heap 3
           SharedGraph.post SharedGraph.postMetadata SharedGraph.rootState).
  vm_compute. reflexivity.
Defined.

(* ------------------------------------------------------------------------- *)
(** ** What the steps of the loader keep *)

Lemma respects_same (R : relation LoaderState) `{!Reflexive R} {A} (m : Loader A) :
  (∀ st, ∃ a, m st = Resolved a st) → respects R m.
Proof. intros Hm st. destruct (Hm st) as (a & ->). simpl. reflexivity. Qed.

Lemma stepwise_and (R1 R2 : relation LoaderState) {A} (st : LoaderState)
    (o : Outcome A) :
  stepwise R1 st o → stepwise R2 st o →
  stepwise (fun st st' => R1 st st' ∧ R2 st st') st o.
Proof.
  revert st. induction o as [a st'|e st'|st'|rejected read resume IH st'];
    intros st H1 H2; simpl in *; [done..|].
  destruct H1 as [H1 H1'], H2 as [H2 H2']. split; [done|]. intros st''. by apply IH.
Qed.

Lemma respects_and (R1 R2 : relation LoaderState) {A} (m : Loader A) :
  respects R1 m → respects R2 m → respects (fun st st' => R1 st st' ∧ R2 st st') m.
Proof. intros H1 H2 st. apply stepwise_and; [apply H1|apply H2]. Qed.

Lemma find_same predicate st : ∃ found, find predicate st = Resolved found st.
Proof. by eexists. Qed.

Lemma readSubject_same a st : ∃ s, readSubject a st = Resolved s st.
Proof. by eexists. Qed.

Lemma groupByEntityTargets_same st : ∃ groups, groupByEntityTargets st = Resolved groups st.
Proof. by eexists. Qed.

Lemma loadedSubjects_same st : ∃ loaded, loadedSubjects st = Resolved loaded st.
Proof. by eexists. Qed.

Section StepsRespect.
Context (connection : Connection) (heap : EntityHeap).
Context (R : relation LoaderState) `{!PreOrder R}.
Context (HnewPersisted : ∀ md e, respects R (newSubject md (Some e) None)).
Context (HnewLoaded : ∀ md d, respects R (newSubject md None (Some d))).
Context (Hpush : ∀ a, respects R (push a)).
Context (HsetDatabaseEntity : ∀ a d, respects R (setDatabaseEntity a d)).
Context (HmarkAsRemoved : ∀ a, respects R (markAsRemoved a)).
Context (HfindByIds : ∀ t alias ids, respects R (runFindByIds connection t alias ids)).
Context (HgetSingleResult :
  ∀ t alias column id, respects R (runGetSingleResult connection t alias column id)).

Local Ltac same := apply respects_same; [apply _|];
  first [apply find_same|apply readSubject_same|apply groupByEntityTargets_same
        |apply loadedSubjects_same|by eexists].
Local Ltac stop := apply respects_ret; apply _.
Local Ltac step := apply respects_bind; [apply _| |].

Lemma pushIfNotExist_respects a : respects R (pushIfNotExist a).
Proof.
  unfold pushIfNotExist. step; [same|]. intros [subject|]; [|stop].
  step; [same|]. intros [existing|]; [stop|apply Hpush].
Qed.

Lemma walk_respects fuel e md :
  respects R (findCascadeUpdateAndInsertEntitiesToLoad connection heap fuel e md).
Proof.
  revert e md. induction fuel as [|fuel IH]; intros e md.
  - apply respects_outOfFuel; apply _.
  - rewrite walk_succ. apply respects_forEach; [apply _|].
    intros [[relation value] valueMetadata] _. unfold visitRelationValue.
    destruct (cascadesInsertOrUpdate relation value); [|stop].
    step; [apply HnewPersisted|]. intros a.
    step; [apply pushIfNotExist_respects|]. intros _. apply IH.
Qed.

Lemma populate_respects :
  respects R (populateSubjectCollectionWithDatabaseEntities connection).
Proof.
  unfold populateSubjectCollectionWithDatabaseEntities.
  step; [same|]. intros groups. apply respects_all; [apply _|].
  intros subjectGroup _. step; [apply HfindByIds|]. intros entities.
  apply respects_forEach; [apply _|]. intros row _.
  step; [unfold findByEntityLike; same|]. intros [a|]; [apply HsetDatabaseEntity|stop].
Qed.

Lemma loadRelatedSubject_respects a relation column id :
  respects R (loadRelatedSubject connection a relation column id).
Proof.
  unfold loadRelatedSubject. step; [apply HgetSingleResult|].
  intros [row|]; [|stop]. step; [apply HnewLoaded|]. intros related.
  step; [apply Hpush|]. intros _. stop.
Qed.

Lemma checkRelation_respects recurse a s relation :
  (∀ b, respects R (recurse b)) →
  respects R (checkRelation connection heap recurse a s relation).
Proof.
  intros Hrec. unfold checkRelation.
  destruct (negb _); [stop|].
  destruct (databaseEntity s) as [d|]; [|stop].
  destruct (persistValueRelationId _ _ _) as [pv|]; [|stop].
  destruct (_ || _).
  - unfold checkOwnerRelation.
    destruct (isPresent _); [stop|]. destruct (_ || _); [stop|].
    step; [same|]. intros found. step.
    + destruct found; [stop|apply loadRelatedSubject_respects].
    + intros [b|]; [|stop]. step; [apply HmarkAsRemoved|auto].
  - destruct (isOneToOneNotOwner relation); [|stop].
    unfold checkNotOwnerRelation.
    destruct (isPresent _); [stop|].
    step; [same|]. intros found. step.
    + destruct found; [stop|].
      destruct (entity s); [apply loadRelatedSubject_respects|].
      apply respects_reject; apply _.
    + intros [b|]; [|stop]. step; [same|]. intros related.
      destruct (related ≫= databaseEntity); [|stop].
      destruct (_ && _); [stop|].
      step; [apply HmarkAsRemoved|auto].
Qed.

Lemma removal_walk_respects fuel a :
  respects R (findCascadeRemovedEntitiesToLoad connection heap fuel a).
Proof.
  revert a. induction fuel as [|fuel IH]; intros a; simpl.
  - apply respects_outOfFuel; apply _.
  - step; [same|]. intros [subject|]; [|stop].
    apply respects_all; [apply _|].
    intros relation _. by apply checkRelation_respects.
Qed.

Lemma removeLoaded_respects fuel : respects R (removeLoaded connection heap fuel).
Proof.
  unfold removeLoaded. step; [same|]. intros loaded.
  apply respects_all; [apply _|]. intros a _. apply removal_walk_respects.
Qed.

Lemma load_respects fuel e md : respects R (load connection heap fuel e md).
Proof.
  unfold load.
  apply (respects_settle R
           (let* persistedEntity := newSubject md (Some e) None in
            push persistedEntity >>
            findCascadeUpdateAndInsertEntitiesToLoad connection heap fuel e md >>
            populateSubjectCollectionWithDatabaseEntities connection >>
            removeLoaded connection heap fuel)).
  step; [apply HnewPersisted|]. intros persistedEntity.
  step; [apply Hpush|]. intros _.
  step; [apply walk_respects|]. intros _.
  step; [apply populate_respects|]. intros _.
  apply removeLoaded_respects.
Qed.

End StepsRespect.

#[global] Instance keptSubject_preorder : PreOrder keptSubject.
Proof.
  split.
  - by intros s.
  - intros s1 s2 s3 (Hm1 & He1 & Hr1 & Hd1) (Hm2 & He2 & Hr2 & Hd2).
    repeat split; [congruence|congruence|auto|auto].
Qed.

#[global] Instance loadedOnly_preorder : PreOrder loadedOnly.
Proof.
  split.
  - by intros s.
  - intros s1 s2 s3 (Hm1 & He1 & Hr1) (Hm2 & He2 & Hr2). repeat split; congruence.
Qed.

#[global] Instance markedOnly_preorder : PreOrder markedOnly.
Proof.
  split.
  - by intros s.
  - intros s1 s2 s3 (Hm1 & He1 & Hd1 & Hr1) (Hm2 & He2 & Hd2 & Hr2).
    repeat split; [congruence|congruence|congruence|auto].
Qed.

#[global] Instance storeRelates_preorder (T : relation Subject) `{!PreOrder T} :
  PreOrder (storeRelates T).
Proof.
  split.
  - intros st a s Hs. by exists s.
  - intros st1 st2 st3 H12 H23 a s Hs.
    destruct (H12 a s Hs) as (s2 & Hs2 & HT2).
    destruct (H23 a s2 Hs2) as (s3 & Hs3 & HT3).
    exists s3. split; [done|]. by etrans.
Qed.

#[global] Instance collectionExtends_preorder : PreOrder collectionExtends.
Proof.
  split.
  - intros st. unfold collectionExtends. reflexivity.
  - intros st1 st2 st3. unfold collectionExtends. intros H1 H2. by etrans.
Qed.

#[global] Instance collectionSame_preorder : PreOrder collectionSame.
Proof.
  split.
  - by intros st.
  - intros st1 st2 st3 [H1 H1'] [H2 H2']. split; congruence.
Qed.

#[global] Instance logAdds_preorder (P : Query → Prop) : PreOrder (logAdds P).
Proof.
  split.
  - intros st. exists []. by rewrite app_nil_r.
  - intros st1 st2 st3 (l1 & Hl1 & HP1) (l2 & Hl2 & HP2). exists (l1 ++ l2).
    split; [by rewrite Hl2, Hl1, app_assoc|by apply Forall_app].
Qed.

#[global] Instance keepsNew_preorder : PreOrder keepsNew.
Proof. split; unfold keepsNew; [by intros st|intros st1 st2 st3; auto]. Qed.

#[global] Instance keepsMarksLoaded_preorder : PreOrder keepsMarksLoaded.
Proof. split; unfold keepsMarksLoaded; [by intros st|intros st1 st2 st3; auto]. Qed.

(** The steps on the store of subjects. *)
Section StoreSteps.
Context (T : relation Subject) `{!PreOrder T}.

Lemma newSubject_storeRelates md e d : respects (storeRelates T) (newSubject md e d).
Proof.
  intros st a s Hs. simpl. exists s. split; [|done]. by apply lookup_app_l_Some.
Qed.

Lemma same_store_storeRelates (st st' : LoaderState) :
  subjects st' = subjects st → storeRelates T st st'.
Proof. intros Hsame a s Hs. exists s. by rewrite Hsame. Qed.

Lemma push_storeRelates a : respects (storeRelates T) (push a).
Proof. intros st b s Hs. simpl. by exists s. Qed.

Lemma runFindByIds_storeRelates connection t alias ids :
  respects (storeRelates T) (runFindByIds connection t alias ids).
Proof.
  intros st. split; [by apply same_store_storeRelates|]. intros st'.
  destruct (findByIds connection t ids); simpl; reflexivity.
Qed.

Lemma runGetSingleResult_storeRelates connection t alias column id :
  respects (storeRelates T) (runGetSingleResult connection t alias column id).
Proof.
  intros st. split; [by apply same_store_storeRelates|]. intros st'.
  destruct (getSingleResult connection t column id); simpl; reflexivity.
Qed.

Lemma alter_storeRelates (f : Subject → Subject) (a : SubjectAddr) (st : LoaderState)
    (l : list SubjectAddr) (log : list Query) :
  (∀ s, T s (f s)) →
  storeRelates T st
    {| subjects := alter f a (subjects st); loadMap := l; queries := log |}.
Proof.
  intros Hf b s Hs. simpl. destruct (decide (a = b)) as [->|Hne].
  - exists (f s). split; [|done]. by rewrite list_lookup_alter_eq, Hs.
  - exists s. split; [|done]. by rewrite list_lookup_alter_ne.
Qed.

Lemma setDatabaseEntity_storeRelates a d :
  (∀ s, T s {| metadata := metadata s; entity := entity s; databaseEntity := Some d;
               markedAsRemoved := markedAsRemoved s |}) →
  respects (storeRelates T) (setDatabaseEntity a d).
Proof. intros HT st. by apply alter_storeRelates. Qed.

Lemma markAsRemoved_storeRelates a :
  (∀ s, T s {| metadata := metadata s; entity := entity s;
               databaseEntity := databaseEntity s; markedAsRemoved := true |}) →
  respects (storeRelates T) (markAsRemoved a).
Proof. intros HT st. by apply alter_storeRelates. Qed.

End StoreSteps.

Lemma keptSubject_loaded s d :
  keptSubject s {| metadata := metadata s; entity := entity s; databaseEntity := Some d;
                   markedAsRemoved := markedAsRemoved s |}.
Proof. by repeat split. Qed.

Lemma keptSubject_marked s :
  keptSubject s {| metadata := metadata s; entity := entity s;
                   databaseEntity := databaseEntity s; markedAsRemoved := true |}.
Proof. by repeat split. Qed.

Lemma markedOnly_marked s :
  markedOnly s {| metadata := metadata s; entity := entity s;
                  databaseEntity := databaseEntity s; markedAsRemoved := true |}.
Proof. by repeat split. Qed.

Lemma loadedOnly_loaded s d :
  loadedOnly s {| metadata := metadata s; entity := entity s; databaseEntity := Some d;
                  markedAsRemoved := markedAsRemoved s |}.
Proof. by repeat split. Qed.

(** A read changes the state by the read it issues, and by nothing when it
    is answered. *)
Lemma runFindByIds_respects (R : relation LoaderState) `{!Reflexive R}
    connection t alias ids :
  (∀ st, R st (issued st (QFindByIds t alias ids))) →
  respects R (runFindByIds connection t alias ids).
Proof.
  intros Hissued st. split; [apply Hissued|]. intros st'.
  destruct (findByIds connection t ids); simpl; reflexivity.
Qed.

Lemma runGetSingleResult_respects (R : relation LoaderState) `{!Reflexive R}
    connection t alias column id :
  (∀ st, R st (issued st (QSingleResult t alias column id))) →
  respects R (runGetSingleResult connection t alias column id).
Proof.
  intros Hissued st. split; [apply Hissued|]. intros st'.
  destruct (getSingleResult connection t column id); simpl; reflexivity.
Qed.

(** The steps on the collection. *)
Lemma collectionExtends_of_same {A} (m : Loader A) :
  silent m → (∀ st, loadMap (outcomeState (m st)) = loadMap st) →
  respects collectionExtends m.
Proof.
  intros Hsilent Hm. apply respects_silent; [done|].
  intros st. unfold collectionExtends. by rewrite Hm.
Qed.

Lemma push_collectionExtends a : respects collectionExtends (push a).
Proof. intros st. unfold collectionExtends. simpl. by apply prefix_app_r. Qed.

Lemma runFindByIds_collectionExtends connection t alias ids :
  respects collectionExtends (runFindByIds connection t alias ids).
Proof.
  apply runFindByIds_respects; [apply _|].
  intros st. unfold collectionExtends. simpl. reflexivity.
Qed.

Lemma runGetSingleResult_collectionExtends connection t alias column id :
  respects collectionExtends (runGetSingleResult connection t alias column id).
Proof.
  apply runGetSingleResult_respects; [apply _|].
  intros st. unfold collectionExtends. simpl. reflexivity.
Qed.

Lemma runFindByIds_collectionSame connection t alias ids :
  respects collectionSame (runFindByIds connection t alias ids).
Proof. apply runFindByIds_respects; [apply _|]. by intros st. Qed.

Lemma setDatabaseEntity_collectionSame a d : respects collectionSame (setDatabaseEntity a d).
Proof. intros st. split; [done|]. simpl. apply length_alter. Qed.

(** The steps on the log of reads. *)
Lemma logAdds_of_silent (P : Query → Prop) {A} (m : Loader A) :
  silent m → respects (logAdds P) m.
Proof.
  intros Hm. apply respects_silent; [done|]. intros st.
  destruct (Hm st) as (a & st' & -> & Hq). exists []. simpl. by rewrite Hq, app_nil_r.
Qed.

Lemma runFindByIds_logAdds (P : Query → Prop) connection t alias ids :
  P (QFindByIds t alias ids) →
  respects (logAdds P) (runFindByIds connection t alias ids).
Proof.
  intros HP. apply runFindByIds_respects; [apply _|].
  intros st. exists [QFindByIds t alias ids]. split; [done|by apply Forall_singleton].
Qed.

Lemma runGetSingleResult_logAdds (P : Query → Prop) connection t alias column id :
  P (QSingleResult t alias column id) →
  respects (logAdds P) (runGetSingleResult connection t alias column id).
Proof.
  intros HP. apply runGetSingleResult_respects; [apply _|].
  intros st. exists [QSingleResult t alias column id].
  split; [done|by apply Forall_singleton].
Qed.

(* ------------------------------------------------------------------------- *)
(** ** What [load] keeps *)

(** The first walk does not wait. *)
Lemma silent_settled {A} (m : Loader A) (st : LoaderState) : silent m → settled (m st).
Proof. intros Hm. by destruct (Hm st) as (a & st' & -> & _). Qed.

Lemma walk_settled connection heap fuel e md st :
  settled (findCascadeUpdateAndInsertEntitiesToLoad connection heap fuel e md st).
Proof.
  revert e md st. induction fuel as [|fuel IH]; intros e md st; [done|].
  apply forEach_settled. intros [[relation value] valueMetadata] st0.
  unfold visitRelationValue. destruct (cascadesInsertOrUpdate relation value); [|done].
  apply andThen_settled; [done|]. intros a st1.
  apply andThen_settled; [|auto]. apply silent_settled, silent_pushIfNotExist.
Qed.

(** [load] on a fresh loader: the first walk from the subject of the
    persisted entity, then the batched load run to its end, then the walk of
    removed entities run to its end. *)
Lemma load_collected connection heap fuel e md st :
  complete
    ((findCascadeUpdateAndInsertEntitiesToLoad connection heap fuel e md >>
      populateSubjectCollectionWithDatabaseEntities connection >>
      removeLoaded connection heap fuel) st) =
  loadCollected connection heap fuel e md st.
Proof.
  unfold loadCollected, bind. rewrite complete_andThen.
  rewrite complete_of_settled by apply walk_settled.
  pose proof (walk_settled connection heap fuel e md st) as Hsettled.
  destruct (findCascadeUpdateAndInsertEntitiesToLoad connection heap fuel e md st)
    as [[] st1|err st1|st1|rejected read resume st1]; simpl; [|done..].
  unfold settle at 1. by rewrite complete_andThen.
Qed.

Lemma load_initial connection heap fuel e md :
  load connection heap fuel e md initialState =
  loadCollected connection heap fuel e md (rootState e md).
Proof. apply load_collected. Qed.

Section LoadKeeps.
Context (connection : Connection) (heap : EntityHeap).

Lemma load_storeRelates fuel e md :
  respects (storeRelates keptSubject) (load connection heap fuel e md).
Proof.
  apply load_respects; [apply _|..]; intros.
  - apply newSubject_storeRelates; apply _.
  - apply newSubject_storeRelates; apply _.
  - apply push_storeRelates; apply _.
  - apply setDatabaseEntity_storeRelates; [apply _|]. intros s. apply keptSubject_loaded.
  - apply markAsRemoved_storeRelates; [apply _|]. apply keptSubject_marked.
  - apply runFindByIds_storeRelates; apply _.
  - apply runGetSingleResult_storeRelates; apply _.
Qed.

Local Ltac collection_step :=
  first [apply push_collectionExtends
        |apply runFindByIds_collectionExtends
        |apply runGetSingleResult_collectionExtends
        |apply collectionExtends_of_same; [auto with loader|by intros st]].

Lemma load_collectionExtends fuel e md :
  respects collectionExtends (load connection heap fuel e md).
Proof. apply load_respects; [apply _|..]; intros; collection_step. Qed.

Lemma issued_logExtends st q : logExtends st (issued st q).
Proof. unfold logExtends. simpl. by apply prefix_app_r. Qed.

Lemma load_logExtends fuel e md :
  respects logExtends (load connection heap fuel e md).
Proof.
  apply load_respects; [apply _|..]; intros;
    try solve [apply silent_logExtends; auto with loader].
  - apply runFindByIds_respects; [apply _|]. intros st. apply issued_logExtends.
  - apply runGetSingleResult_respects; [apply _|]. intros st. apply issued_logExtends.
Qed.

(** A call of [load] on a loader that holds subjects already keeps them:
    each is still at its address with its metadata and persisted entity, a
    mark stays set and a database entity stays present; the collection and
    the log of reads are only appended to.  This holds for a call that
    rejects or is cut as well. *)
Theorem load_keeps_earlier_subjects (fuel : nat) (e : ObjectLiteral)
    (md : EntityMetadata) (st : LoaderState) :
  storeRelates keptSubject st (outcomeState (load connection heap fuel e md st)) ∧
  loadMap st `prefix_of` loadMap (outcomeState (load connection heap fuel e md st)) ∧
  queries st `prefix_of` queries (outcomeState (load connection heap fuel e md st)).
Proof.
  split; [apply respects_state, load_storeRelates|].
  split.
  - apply (respects_state collectionExtends), load_collectionExtends.
  - apply (respects_state logExtends), load_logExtends.
Qed.

Lemma loadCollected_respects (R : relation LoaderState) `{!PreOrder R} fuel e md :
  (∀ md e, respects R (newSubject md (Some e) None)) →
  (∀ md d, respects R (newSubject md None (Some d))) →
  (∀ a, respects R (push a)) →
  (∀ a d, respects R (setDatabaseEntity a d)) →
  (∀ a, respects R (markAsRemoved a)) →
  (∀ t alias ids, respects R (runFindByIds connection t alias ids)) →
  (∀ t alias column id, respects R (runGetSingleResult connection t alias column id)) →
  respects R (loadCollected connection heap fuel e md).
Proof.
  intros H1 H2 H3 H4 H5 H6 H7. unfold loadCollected.
  apply respects_bind; [apply _|by apply walk_respects|]. intros _.
  apply respects_bind; [apply _| |].
  - apply respects_settle; [apply _|]. by apply populate_respects.
  - intros _. apply respects_settle; [apply _|]. by apply removeLoaded_respects.
Qed.

(** Whatever the outcome of [load] on a fresh loader, the subject of the
    persisted entity is the first of the collection, at address 0, with its
    metadata and its entity. *)
Theorem load_keeps_root_first (fuel : nat) (e : ObjectLiteral) (md : EntityMetadata) :
  head (loadMap (outcomeState (load connection heap fuel e md initialState))) = Some 0 ∧
  ∃ s, subjects (outcomeState (load connection heap fuel e md initialState)) !! 0 =
         Some s ∧
       metadata s = md ∧ entity s = Some e.
Proof.
  rewrite load_initial.
  assert (respects (fun st st' => storeRelates keptSubject st st' ∧
                                  collectionExtends st st')
            (loadCollected connection heap fuel e md)) as Hkeeps.
  { apply respects_and.
    - apply loadCollected_respects; [apply _|..]; intros.
      + apply newSubject_storeRelates; apply _.
      + apply newSubject_storeRelates; apply _.
      + apply push_storeRelates; apply _.
      + apply setDatabaseEntity_storeRelates; [apply _|]. intros s.
        apply keptSubject_loaded.
      + apply markAsRemoved_storeRelates; [apply _|]. apply keptSubject_marked.
      + apply runFindByIds_storeRelates; apply _.
      + apply runGetSingleResult_storeRelates; apply _.
    - apply loadCollected_respects; [apply _|..]; intros; collection_step. }
  destruct (respects_state _ _ (rootState e md) Hkeeps) as [Hstore [rest Hcollection]].
  split.
  - rewrite Hcollection. reflexivity.
  - destruct (Hstore 0 (rootSubject e md) eq_refl) as (s & Hs & Hmd & He & _).
    exists s. by repeat split.
Qed.

End LoadKeeps.


(* ------------------------------------------------------------------------- *)
(** ** Callbacks joined by [Promise.all] *)

Section JoinedCallbacks.
Context (connection : Connection).

Lemma join_state (o1 o2 : Outcome unit) (first : option LoadError) (st : LoaderState) :
  outcomeState (join connection o1 first o2 st) = st.
Proof.
  destruct o1, o2; simpl; try done; try (by destruct first).
  by destruct (answeredBefore connection read read0).
Qed.

(** When the callbacks are all started, the state is the one the start of
    each in turn has led to. *)
Lemma all_state_cons {A} (x : A) (l : list A) (callback : A → Loader unit)
    (st : LoaderState) :
  outcomeState (all connection (x :: l) callback st) =
  outcomeState (all connection l callback (outcomeState (callback x st))).
Proof. simpl. apply join_state. Qed.

(** Callbacks that return at once with the state as it is. *)
Lemma all_same {A} (l : list A) (callback : A → Loader unit) (st : LoaderState) :
  (∀ x, x ∈ l → callback x st = Resolved tt st) →
  all connection l callback st = Resolved tt st.
Proof.
  induction l as [|x l IH]; intros Hall; [done|].
  simpl. rewrite Hall by left. simpl. rewrite IH; [done|].
  intros y Hy. apply Hall. by right.
Qed.

Lemma all_resumable (R : relation LoaderState) `{!PreOrder R} {A} (l : list A)
    (callback : A → Loader unit) (st : LoaderState) :
  (∀ x st, resumable R (callback x st)) →
  resumable R (all connection l callback st).
Proof.
  intros Hall. revert st. induction l as [|x l IH]; intros st; [done|].
  simpl.
  apply (stepwise_resumable R
           (outcomeState (all connection l callback (outcomeState (callback x st))))).
  apply stepwise_join; [reflexivity|apply Hall|apply IH].
Qed.

Lemma resumable_complete (R : relation LoaderState) `{!PreOrder R} {A}
    (o : Outcome A) :
  resumable R o → R (outcomeState o) (outcomeState (complete o)).
Proof.
  destruct o as [a st|e st|st|rejected read resume st]; simpl; [reflexivity..|].
  intros Hresume. by apply stepwise_complete.
Qed.

(** The steps of two computations in flight. *)
Lemma join_second (o1 : Outcome unit) (first rejected2 : option LoadError)
    (read2 : nat) (resume2 : LoaderState → Outcome unit) (st2 st : LoaderState) :
  settled o1 → (∀ st1, o1 ≠ OutOfFuel st1) →
  join connection o1 first (Awaiting rejected2 read2 resume2 st2) st =
    Awaiting first read2
      (fun st' =>
         join connection o1 (firstOf first (rejection (resume2 st'))) (resume2 st')
           (outcomeState (resume2 st'))) st.
Proof. intros Hsettled Hcut. destruct o1; try done. by destruct (Hcut st0). Qed.

Lemma join_first (o2 : Outcome unit) (first rejected1 : option LoadError)
    (read1 : nat) (resume1 : LoaderState → Outcome unit) (st1 st : LoaderState) :
  settled o2 → (∀ st2, o2 ≠ OutOfFuel st2) →
  join connection (Awaiting rejected1 read1 resume1 st1) first o2 st =
    Awaiting first read1
      (fun st' =>
         join connection (resume1 st') (firstOf first (rejection (resume1 st'))) o2
           (outcomeState (resume1 st'))) st.
Proof. intros Hsettled Hcut. destruct o2; try done. by destruct (Hcut st0). Qed.

Lemma join_both (first rejected1 rejected2 : option LoadError) (read1 read2 : nat)
    (resume1 resume2 : LoaderState → Outcome unit) (st1 st2 st : LoaderState) :
  join connection (Awaiting rejected1 read1 resume1 st1) first
    (Awaiting rejected2 read2 resume2 st2) st =
    if answeredBefore connection read1 read2
    then Awaiting first read1
           (fun st' =>
              join connection (resume1 st') (firstOf first (rejection (resume1 st')))
                (Awaiting rejected2 read2 resume2 st2) (outcomeState (resume1 st'))) st
    else Awaiting first read2
           (fun st' =>
              join connection (Awaiting rejected1 read1 resume1 st1)
                (firstOf first (rejection (resume2 st'))) (resume2 st')
                (outcomeState (resume2 st'))) st.
Proof. reflexivity. Qed.

Lemma inert_rejection (o : Outcome unit) : inert o → rejection o = None.
Proof. by destruct o as [| | |[]]. Qed.

Lemma inert_join (o1 : Outcome unit) :
  ∀ o2 st, inert o1 → inert o2 → inert (join connection o1 None o2 st).
Proof.
  induction o1 as [a1 st1|e1 st1|st1|rejected1 read1 resume1 IH1 st1];
    intros o2;
    induction o2 as [a2 st2|e2 st2|st2|rejected2 read2 resume2 IH2 st2];
    intros st H1 H2; try done.
  - destruct rejected2; [done|]. rewrite join_second by done. intros st'.
    destruct (H2 st') as [Hinert Hstate].
    rewrite (inert_rejection _ Hinert), join_state. split; [|done]. by apply IH2.
  - destruct rejected1; [done|]. rewrite join_first by done. intros st'.
    destruct (H1 st') as [Hinert Hstate].
    rewrite (inert_rejection _ Hinert), join_state. split; [|done]. by apply IH1.
  - destruct rejected1, rejected2; try done. rewrite join_both.
    destruct (answeredBefore connection read1 read2); intros st'.
    + destruct (H1 st') as [Hinert Hstate].
      rewrite (inert_rejection _ Hinert), join_state. split; [|done]. by apply IH1.
    + destruct (H2 st') as [Hinert Hstate].
      rewrite (inert_rejection _ Hinert), join_state. split; [|done]. by apply IH2.
Qed.

Lemma inert_all {A} (l : list A) (callback : A → Loader unit) :
  (∀ x st, inert (callback x st)) → ∀ st, inert (all connection l callback st).
Proof.
  intros Hall. induction l as [|x l IH]; intros st; [done|].
  simpl. rewrite !inert_rejection by auto. by apply inert_join.
Qed.

Lemma inert_complete (o : Outcome unit) :
  inert o → complete o = Resolved tt (outcomeState o).
Proof.
  induction o as [[] st|e st|st|rejected read resume IH st]; try done.
  destruct rejected; [done|]. simpl. intros Hinert.
  destruct (Hinert st) as [Hresume Hstate]. by rewrite IH, Hstate.
Qed.

End JoinedCallbacks.

(* ------------------------------------------------------------------------- *)
(** ** The three steps of [load], one by one *)

Section StepByStep.
Context (connection : Connection) (heap : EntityHeap).

(** The batched load only assigns database entities: once its reads are
    issued, and when it has come to its end, the collection and the number
    of subjects are the same as before, and each subject has the metadata,
    the persisted entity and the mark it had, whether the reads were
    answered or not. *)
Theorem populate_only_loads (st : LoaderState) :
  let started :=
    outcomeState (populateSubjectCollectionWithDatabaseEntities connection st) in
  let ended :=
    outcomeState
      (complete (populateSubjectCollectionWithDatabaseEntities connection st)) in
  (storeRelates loadedOnly st started ∧
   loadMap started = loadMap st ∧
   length (subjects started) = length (subjects st)) ∧
  (storeRelates loadedOnly st ended ∧
   loadMap ended = loadMap st ∧
   length (subjects ended) = length (subjects st)).
Proof.
  assert (stepwise (storeRelates loadedOnly) st
            (populateSubjectCollectionWithDatabaseEntities connection st)) as Hstore.
  { apply populate_respects; [apply _|..]; intros.
    - apply setDatabaseEntity_storeRelates; [apply _|]. intros s.
      apply loadedOnly_loaded.
    - apply runFindByIds_storeRelates; apply _. }
  assert (stepwise collectionSame st
            (populateSubjectCollectionWithDatabaseEntities connection st))
    as Hcollection.
  { apply (populate_respects connection collectionSame); intros.
    - apply setDatabaseEntity_collectionSame.
    - apply runFindByIds_collectionSame. }
  intros started ended. split; split.
  - by apply stepwise_state.
  - by apply (stepwise_state collectionSame).
  - by apply stepwise_complete; [apply _|].
  - by apply (stepwise_complete collectionSame).
Qed.

(** The walk of removed entities only sets marks and appends: when it waits
    for its first reads, and when it has come to its end, each subject is
    still at its address with its metadata, its persisted entity and its
    database entity, a mark stays set, and the collection is only appended
    to. *)
Theorem removal_walk_only_marks (fuel : nat) (a : SubjectAddr) (st : LoaderState) :
  let started :=
    outcomeState (findCascadeRemovedEntitiesToLoad connection heap fuel a st) in
  let ended :=
    outcomeState
      (complete (findCascadeRemovedEntitiesToLoad connection heap fuel a st)) in
  (storeRelates markedOnly st started ∧ loadMap st `prefix_of` loadMap started) ∧
  (storeRelates markedOnly st ended ∧ loadMap st `prefix_of` loadMap ended).
Proof.
  assert (stepwise (storeRelates markedOnly) st
            (findCascadeRemovedEntitiesToLoad connection heap fuel a st)) as Hstore.
  { apply removal_walk_respects; [apply _|..]; intros.
    - apply newSubject_storeRelates; apply _.
    - apply push_storeRelates; apply _.
    - apply markAsRemoved_storeRelates; [apply _|]. apply markedOnly_marked.
    - apply runGetSingleResult_storeRelates; apply _. }
  assert (stepwise collectionExtends st
            (findCascadeRemovedEntitiesToLoad connection heap fuel a st))
    as Hcollection.
  { apply (removal_walk_respects connection heap collectionExtends); intros.
    - apply collectionExtends_of_same; [auto with loader|by intros st0].
    - apply push_collectionExtends.
    - apply collectionExtends_of_same; [auto with loader|by intros st0].
    - apply runGetSingleResult_collectionExtends. }
  intros started ended. split; split.
  - by apply stepwise_state.
  - by apply (stepwise_state collectionExtends).
  - by apply stepwise_complete; [apply _|].
  - by apply (stepwise_complete collectionExtends).
Qed.

Lemma silent_forEach {A} (l : list A) (callback : A → Loader unit) :
  (∀ x, silent (callback x)) → silent (forEach l callback).
Proof.
  intros Hall. induction l as [|x l IH]; simpl.
  - apply silent_ret.
  - by apply silent_bind.
Qed.

Lemma silent_assignRows t (rows : list ObjectLiteral) :
  silent (forEach rows (fun row =>
            let* subject := findByEntityLike t row in
            match subject with
            | Some a => setDatabaseEntity a row
            | None => ret tt
            end)).
Proof.
  apply silent_forEach. intros row. apply silent_bind; [auto with loader|].
  intros [a|]; auto with loader.
Qed.

Lemma populate_unfold (st : LoaderState) :
  populateSubjectCollectionWithDatabaseEntities connection st =
  all connection (groupsOf st) (loadGroup connection) st.
Proof. reflexivity. Qed.

(** The callback of a group issues the read of the group and waits. *)
Lemma loadGroup_state (g : Target * list Subject) (st : LoaderState) :
  outcomeState (loadGroup connection g st) = issued st (groupRead connection g).
Proof. reflexivity. Qed.

(** Once its read is answered, the callback of a group issues no read. *)
Lemma loadGroup_resumable (g : Target * list Subject) (st : LoaderState) :
  resumable logSame (loadGroup connection g st).
Proof.
  intros st'. simpl.
  destruct (findByIds connection g.1 (map mixedId g.2)) as [rows|f]; simpl; [|done].
  destruct (silent_assignRows (target (getMetadata connection g.1)) rows st')
    as ([] & st2 & Hrows & Hq).
  unfold Target in *. by rewrite Hrows.
Qed.

Lemma all_groups_state (groups : list (Target * list Subject)) (st : LoaderState) :
  outcomeState (all connection groups (loadGroup connection) st) =
    {| subjects := subjects st; loadMap := loadMap st;
       queries := queries st ++ (groupRead connection <$> groups) |}.
Proof.
  revert st. induction groups as [|g groups IH]; intros st.
  - simpl. rewrite app_nil_r. by destruct st.
  - rewrite all_state_cons, IH, loadGroup_state. simpl. by rewrite <- app_assoc.
Qed.

#[local] Instance logSame_preorder : PreOrder logSame.
Proof.
  split; [by intros st|].
  intros st1 st2 st3 H1 H2. unfold logSame in *. congruence.
Qed.

(** The batched load issues the reads of the groups of the collection, one
    read per group and in their order, each with the identifiers of the
    subjects of the group, and all of them before any is answered; whether
    the reads are then answered or fail, it issues no other read. *)
Theorem populate_reads_group_by_group (st : LoaderState) :
  queries (outcomeState (populateSubjectCollectionWithDatabaseEntities connection st)) =
    queries st ++ (groupRead connection <$> groupsOf st) ∧
  queries
    (outcomeState
       (complete (populateSubjectCollectionWithDatabaseEntities connection st))) =
    queries st ++ (groupRead connection <$> groupsOf st).
Proof.
  rewrite populate_unfold.
  assert (queries (outcomeState
                     (all connection (groupsOf st) (loadGroup connection) st)) =
          queries st ++ (groupRead connection <$> groupsOf st)) as Hstarted.
  { by rewrite all_groups_state. }
  split; [exact Hstarted|]. rewrite <- Hstarted.
  apply (resumable_complete logSame).
  apply all_resumable; [apply _|]. intros g st0. apply loadGroup_resumable.
Qed.

End StepByStep.

(* ------------------------------------------------------------------------- *)
(** ** The order of the reads, and entities that are new *)

Lemma filter_none {A} (P : A → Prop) `{!∀ x, Decision (P x)} (l : list A) :
  Forall (fun x => ¬ P x) l → filter P l = [].
Proof.
  induction 1 as [|x l Hx Hl IH]; [done|].
  rewrite filter_cons. by destruct (decide (P x)).
Qed.

Section ReadsAndNewEntities.
Context (connection : Connection) (heap : EntityHeap).

Lemma walk_adds_no_read fuel e md :
  respects (logAdds (fun _ => False))
    (findCascadeUpdateAndInsertEntitiesToLoad connection heap fuel e md).
Proof.
  apply walk_respects; [apply _|..]; intros; apply logAdds_of_silent; auto with loader.
Qed.

Lemma populate_adds_batch_reads :
  respects (logAdds isBatchRead)
    (populateSubjectCollectionWithDatabaseEntities connection).
Proof.
  apply populate_respects; [apply _|..]; intros.
  - apply logAdds_of_silent; auto with loader.
  - by apply runFindByIds_logAdds.
Qed.

Lemma removeLoaded_adds_single_reads fuel :
  respects (logAdds isSingleRead) (removeLoaded connection heap fuel).
Proof.
  apply removeLoaded_respects; [apply _|..]; intros;
    first [by apply runGetSingleResult_logAdds
          |apply logAdds_of_silent; auto with loader].
Qed.

(** The reads of [load] on a fresh loader are batched reads followed by
    single reads: the first walk reads nothing, and no batched read is issued
    once the walk of removed entities has begun. *)
Theorem load_reads_batches_first (fuel : nat) (e : ObjectLiteral) (md : EntityMetadata) :
  ∃ batches singles,
    queries (outcomeState (load connection heap fuel e md initialState)) =
      batches ++ singles ∧
    Forall isBatchRead batches ∧ Forall isSingleRead singles.
Proof.
  rewrite load_initial. unfold loadCollected.
  pose proof (respects_state _ _ (rootState e md) (walk_adds_no_read fuel e md))
    as (none & Hnone & Hfalse).
  destruct none as [|q none]; [|by apply Forall_cons in Hfalse as [[] _]].
  pose proof (walk_settled connection heap fuel e md (rootState e md)) as Hsettled.
  unfold bind at 1.
  destruct (findCascadeUpdateAndInsertEntitiesToLoad connection heap fuel e md
              (rootState e md)) as [[] st1|err st1|st1|rejected read resume st1];
    simpl in Hnone, Hsettled; [| | |done].
  - cbn [andThen]. unfold bind, settle at 1.
    pose proof (stepwise_complete _ _ _ (populate_adds_batch_reads st1))
      as (batches & Hb & HB).
    pose proof (complete_settled
                  (populateSubjectCollectionWithDatabaseEntities connection st1))
      as Hpopulated.
    destruct (complete (populateSubjectCollectionWithDatabaseEntities connection st1))
      as [[] st2|err st2|st2|rejected read resume st2]; simpl in Hb, Hpopulated;
      [| | |done].
    + cbn [andThen]. unfold settle.
      pose proof (stepwise_complete _ _ _ (removeLoaded_adds_single_reads fuel st2))
        as (singles & Hs & HS).
      exists batches, singles. split; [|done]. by rewrite Hs, Hb, Hnone.
    + exists batches, []. simpl. split; [|done]. by rewrite Hb, Hnone, app_nil_r.
    + exists batches, []. simpl. split; [|done]. by rewrite Hb, Hnone, app_nil_r.
  - exists [], []. simpl. by rewrite Hnone.
  - exists [], []. simpl. by rewrite Hnone.
Qed.

(** The walk of removed entities leaves a subject alone, with no read and no
    change of the state, when the subject has no database entity, and when
    none of its relations cascades removals. *)
Theorem removal_walk_skips (fuel : nat) (a : SubjectAddr) (s : Subject)
    (st : LoaderState) :
  subjects st !! a = Some s →
  databaseEntity s = None ∨
  Forall (fun relation => isCascadeRemove relation = false) (relations (metadata s)) →
  findCascadeRemovedEntitiesToLoad connection heap (S fuel) a st = Resolved tt st.
Proof.
  intros Hs Hcase. simpl. unfold bind, readSubject. rewrite Hs. cbn [andThen].
  apply all_same. intros relation Hrelation. unfold checkRelation.
  destruct Hcase as [Hnew|Hnone].
  - rewrite Hnew. by destruct (negb _).
  - rewrite Forall_forall in Hnone. by rewrite (Hnone relation Hrelation).
Qed.

Lemma walk_keeps_new fuel e md :
  respects keepsNew (findCascadeUpdateAndInsertEntitiesToLoad connection heap fuel e md).
Proof.
  apply walk_respects; [apply _|..]; intros.
  - intros st Hnew. unfold allNew in *. simpl. apply Forall_app. split; [done|].
    by apply Forall_singleton.
  - by intros st Hnew.
Qed.

Lemma loadedSubjects_of_new (st : LoaderState) :
  allNew st → loadedSubjects st = Resolved [] st.
Proof.
  intros Hnew. unfold loadedSubjects. rewrite filter_none; [done|].
  apply Forall_forall. intros [a s] Hin [d Hd]. simpl in Hd.
  apply elem_of_collected in Hin as [_ Hs].
  unfold allNew in Hnew. rewrite Forall_forall in Hnew.
  destruct (Hnew s) as [Hnone _]; [by eapply list_elem_of_lookup_2|]. congruence.
Qed.

(** When no read finds a row, the callback of a group resolves once its read
    is answered and leaves the state as it is. *)
Lemma loadGroup_inert (g : Target * list Subject) (st : LoaderState) :
  (∀ t ids, findByIds connection t ids = FetchOk []) →
  inert (loadGroup connection g st).
Proof. intros Hempty st'. simpl. by rewrite Hempty. Qed.

(** When the database holds none of the entities, so that every batched read
    is answered without a row, and the first walk comes to an end, [load]
    resolves in the state the first walk ended in, with one batched read per
    group of the collection as its only reads: no subject has a database
    entity or a mark, and the walk of removed entities is not entered. *)
Theorem load_of_new_entities (fuel : nat) (e : ObjectLiteral) (md : EntityMetadata)
    (st1 : LoaderState) :
  (∀ t ids, findByIds connection t ids = FetchOk []) →
  findCascadeUpdateAndInsertEntitiesToLoad connection heap fuel e md (rootState e md) =
    Resolved tt st1 →
  load connection heap fuel e md initialState =
    Resolved tt
      {| subjects := subjects st1; loadMap := loadMap st1;
         queries := groupRead connection <$> groupsOf st1 |} ∧
  allNew st1.
Proof.
  intros Hempty Hwalk.
  assert (allNew st1) as Hnew.
  { pose proof (respects_state _ _ (rootState e md) (walk_keeps_new fuel e md))
      as Hkeeps.
    rewrite Hwalk in Hkeeps. apply Hkeeps. by apply Forall_singleton. }
  assert (queries st1 = []) as Hlog.
  { pose proof (respects_state _ _ (rootState e md) (walk_adds_no_read fuel e md))
      as (none & Hnone & Hfalse).
    rewrite Hwalk in Hnone. simpl in Hnone.
    destruct none as [|q none]; [done|by apply Forall_cons in Hfalse as [[] _]]. }
  split; [|done].
  rewrite load_initial. unfold loadCollected, bind at 1. rewrite Hwalk.
  cbn [andThen]. unfold bind, settle at 1.
  rewrite populate_unfold, inert_complete, all_groups_state
    by (apply inert_all; intros g st0; by apply loadGroup_inert).
  cbn [andThen]. unfold settle, removeLoaded, bind.
  rewrite loadedSubjects_of_new by done. simpl. by rewrite Hlog.
Qed.

End ReadsAndNewEntities.

(* ------------------------------------------------------------------------- *)
(** ** Marks *)

Lemma triple_ret {A} (P I : LoaderState → Prop) (Q : A → LoaderState → Prop) (a : A) :
  (∀ st, P st → Q a st) → triple P (ret a) Q I.
Proof. intros H st HP. by apply H. Qed.

Lemma holds_andThen {A B} (I : LoaderState → Prop) (Q : A → LoaderState → Prop)
    (Q' : B → LoaderState → Prop) (o : Outcome A) (k : A → Loader B) :
  holds Q I o → (∀ a, triple (Q a) (k a) Q' I) → holds Q' I (andThen o k).
Proof.
  intros Ho Hk.
  induction o as [a st|e st|st|rejected read resume IH st]; simpl in *; [by apply Hk|done..|].
  destruct Ho as [Ho Hresume]. split; [done|]. intros st' Hst'. by apply IH, Hresume.
Qed.

Lemma triple_bind {A B} (P I : LoaderState → Prop) (Q : A → LoaderState → Prop)
    (Q' : B → LoaderState → Prop) (m : Loader A) (k : A → Loader B) :
  triple P m Q I → (∀ a, triple (Q a) (k a) Q' I) → triple P (bind m k) Q' I.
Proof. intros Hm Hk st HP. eapply holds_andThen; [by apply Hm|done]. Qed.

Lemma triple_forEach {A} (I : LoaderState → Prop) (l : list A)
    (callback : A → Loader unit) :
  (∀ x, triple I (callback x) (fun _ => I) I) →
  triple I (forEach l callback) (fun _ => I) I.
Proof.
  intros Hall. induction l as [|x l IH]; simpl.
  - by apply triple_ret.
  - eapply triple_bind; [apply Hall|]. intros ?. apply IH.
Qed.

Lemma holds_of_stepwise {A} (I : LoaderState → Prop) (st : LoaderState)
    (o : Outcome A) :
  stepwise (fun st st' => I st → I st') st o → I st → holds (fun _ => I) I o.
Proof.
  revert st. induction o as [a st'|e st'|st'|rejected read resume IH st'];
    intros st Ho HI; simpl in *; auto.
  destruct Ho as [Ho Hresume]. split; [auto|]. intros st'' HI''.
  by apply (IH st'' st'').
Qed.

Lemma triple_of_respects {A} (I : LoaderState → Prop) (m : Loader A) :
  respects (fun st st' => I st → I st') m → triple I m (fun _ => I) I.
Proof. intros Hm st HI. exact (holds_of_stepwise I st _ (Hm st) HI). Qed.

Lemma holds_weaken {A} (Q Q' : A → LoaderState → Prop) (I : LoaderState → Prop)
    (o : Outcome A) :
  (∀ a st, Q a st → Q' a st) → holds Q I o → holds Q' I o.
Proof.
  intros HQ. induction o as [a st|e st|st|rejected read resume IH st]; simpl; auto.
  intros [Hst Hresume]. split; [done|]. intros st' Hst'. by apply IH, Hresume.
Qed.

Lemma holds_state (I : LoaderState → Prop) {A} (o : Outcome A) :
  holds (fun _ => I) I o → I (outcomeState o).
Proof. destruct o; simpl; tauto. Qed.

Lemma holds_resumableIn {A} (Q : A → LoaderState → Prop) (I : LoaderState → Prop)
    (o : Outcome A) :
  holds Q I o → resumableIn Q I o.
Proof. destruct o; simpl; tauto. Qed.

(** The event loop keeps what every run of the computation keeps. *)
Lemma holds_complete {A} (Q : A → LoaderState → Prop) (I : LoaderState → Prop)
    (o : Outcome A) :
  holds Q I o → holds Q I (complete o).
Proof.
  induction o as [a st|e st|st|rejected read resume IH st]; simpl; [done..|].
  intros [Hst Hresume]. by apply IH, Hresume.
Qed.

Lemma triple_settle {A} (P I : LoaderState → Prop) (Q : A → LoaderState → Prop)
    (m : Loader A) :
  triple P m Q I → triple P (settle m) Q I.
Proof. intros Hm st HP. by apply holds_complete, Hm. Qed.

Section JoinedInvariant.
Context (connection : Connection) (I : LoaderState → Prop).

Lemma holds_join (o1 : Outcome unit) :
  ∀ o2 first st,
    I st → resumableIn (fun _ => I) I o1 → resumableIn (fun _ => I) I o2 →
    holds (fun _ => I) I (join connection o1 first o2 st).
Proof.
  induction o1 as [a1 st1|e1 st1|st1|rejected1 read1 resume1 IH1 st1];
    intros o2;
    induction o2 as [a2 st2|e2 st2|st2|rejected2 read2 resume2 IH2 st2];
    intros first st Hst H1 H2; try done; try (by destruct first).
  - rewrite join_second by done. split; [done|]. intros st' Hst'.
    apply IH2; [|done|].
    + apply holds_state, H2, Hst'.
    + apply holds_resumableIn, H2, Hst'.
  - rewrite join_second by done. split; [done|]. intros st' Hst'.
    apply IH2; [|done|].
    + apply holds_state, H2, Hst'.
    + apply holds_resumableIn, H2, Hst'.
  - rewrite join_first by done. split; [done|]. intros st' Hst'.
    apply IH1; [| |done].
    + apply holds_state, H1, Hst'.
    + apply holds_resumableIn, H1, Hst'.
  - rewrite join_first by done. split; [done|]. intros st' Hst'.
    apply IH1; [| |done].
    + apply holds_state, H1, Hst'.
    + apply holds_resumableIn, H1, Hst'.
  - rewrite join_both. destruct (answeredBefore connection read1 read2).
    + split; [done|]. intros st' Hst'. apply IH1; [| |done].
      * apply holds_state, H1, Hst'.
      * apply holds_resumableIn, H1, Hst'.
    + split; [done|]. intros st' Hst'. apply IH2; [|done|].
      * apply holds_state, H2, Hst'.
      * apply holds_resumableIn, H2, Hst'.
Qed.

Lemma triple_all {A} (l : list A) (callback : A → Loader unit) :
  (∀ x, triple I (callback x) (fun _ => I) I) →
  triple I (all connection l callback) (fun _ => I) I.
Proof.
  intros Hall. induction l as [|x l IH]; intros st Hst; [done|].
  simpl. pose proof (Hall x st Hst) as Hx.
  pose proof (IH _ (holds_state I _ Hx)) as Hrest.
  apply holds_join.
  - exact (holds_state I _ Hrest).
  - exact (holds_resumableIn _ I _ Hx).
  - exact (holds_resumableIn _ I _ Hrest).
Qed.

End JoinedInvariant.

Lemma marksLoaded_same_store (st st' : LoaderState) :
  subjects st' = subjects st → marksLoaded st → marksLoaded st'.
Proof. unfold marksLoaded. intros ->. done. Qed.

Lemma marksLoaded_new (st : LoaderState) md e d :
  marksLoaded st → marksLoaded (outcomeState (newSubject md e d st)).
Proof.
  intros Hst a s Hs Hmarked. simpl in Hs.
  apply lookup_app_Some in Hs as [Hs|[_ Hs]]; [by eapply Hst|].
  apply list_lookup_singleton_Some in Hs as [_ <-]. done.
Qed.

Lemma marksLoaded_mark (st : LoaderState) (a : SubjectAddr) :
  marksLoaded st → hasDatabaseEntity st a →
  marksLoaded (outcomeState (markAsRemoved a st)).
Proof.
  intros Hst (s & Hs & Hdb) b s' Hs' Hmarked.
  unfold markAsRemoved in Hs'. cbn [outcomeState subjects] in Hs'.
  destruct (decide (a = b)) as [Heq|Hne].
  - subst b. rewrite list_lookup_alter_eq in Hs'. unfold SubjectAddr in *.
    rewrite Hs in Hs'. injection Hs' as <-. exact Hdb.
  - rewrite list_lookup_alter_ne in Hs' by done. by eapply Hst.
Qed.

Lemma marksLoaded_loaded (st : LoaderState) (a : SubjectAddr) (d : ObjectLiteral) :
  marksLoaded st → marksLoaded (outcomeState (setDatabaseEntity a d st)).
Proof.
  intros Hst b s' Hs' Hmarked.
  unfold setDatabaseEntity in Hs'. cbn [outcomeState subjects] in Hs'.
  destruct (decide (a = b)) as [Heq|Hne].
  - subst b. rewrite list_lookup_alter_eq in Hs'. unfold SubjectAddr in *.
    destruct (subjects st !! a) as [s|]; [|done]. injection Hs' as <-. by eexists.
  - rewrite list_lookup_alter_ne in Hs' by done. by eapply Hst.
Qed.

Lemma find_satisfies (predicate : Subject → bool) (st : LoaderState) (a : SubjectAddr) :
  find predicate st = Resolved (Some a) st →
  ∃ s, subjects st !! a = Some s ∧ predicate s = true.
Proof.
  unfold find. intros Hfind.
  destruct (head (filter _ (collected st))) as [[b s]|] eqn:Hhead; [|done].
  simpl in Hfind. injection Hfind as ->.
  apply head_Some_elem_of, list_elem_of_filter in Hhead as [Hp Hin].
  apply elem_of_collected in Hin as [_ Hs]. by exists s.
Qed.

Section Marks.
Context (connection : Connection) (heap : EntityHeap).

Lemma isLoadedRelated_loaded relation id s :
  isLoadedRelated connection relation id s = true → is_Some (databaseEntity s).
Proof. unfold isLoadedRelated. by destruct (databaseEntity s). Qed.

Lemma find_marksLoaded relation id :
  triple marksLoaded (find (isLoadedRelated connection relation id))
    (fun found st => marksLoaded st ∧ ∀ a, found = Some a → hasDatabaseEntity st a)
    marksLoaded.
Proof.
  intros st Hst.
  destruct (find_same (isLoadedRelated connection relation id) st) as (found & Hfind).
  rewrite Hfind. split; [done|]. intros a ->.
  apply find_satisfies in Hfind as (s & Hs & Hp). exists s. split; [done|].
  by eapply isLoadedRelated_loaded.
Qed.

Lemma loadRelatedSubject_marksLoaded a relation column id :
  triple marksLoaded (loadRelatedSubject connection a relation column id)
    (fun found st => marksLoaded st ∧ ∀ b, found = Some b → hasDatabaseEntity st b)
    marksLoaded.
Proof.
  intros st0 Hst0. unfold loadRelatedSubject, bind, runGetSingleResult.
  split; [by eapply marksLoaded_same_store|]. clear st0 Hst0. intros st Hst.
  destruct (getSingleResult connection _ column id) as [[d|]|f]; simpl.
  - split.
    + apply (marksLoaded_same_store
               (outcomeState (newSubject (inverseEntityMetadata connection relation)
                                None (Some d) st))); [done|].
      by apply marksLoaded_new.
    + intros b [= <-].
      exists {| metadata := inverseEntityMetadata connection relation; entity := None;
                databaseEntity := Some d; markedAsRemoved := false |}.
      split; [|by eexists]. simpl.
      rewrite lookup_app_r by lia. by rewrite Nat.sub_diag.
  - done.
  - done.
Qed.

Lemma mark_and_recurse_marksLoaded (recurse : SubjectAddr → Loader unit) a :
  (∀ b, triple marksLoaded (recurse b) (fun _ => marksLoaded) marksLoaded) →
  triple (fun st => marksLoaded st ∧ hasDatabaseEntity st a)
    (markAsRemoved a >> recurse a) (fun _ => marksLoaded) marksLoaded.
Proof.
  intros Hrec st [Hst Ha]. unfold bind at 1. simpl.
  apply Hrec. by apply (marksLoaded_mark st a).
Qed.

Lemma checkRelation_marksLoaded recurse a s relation :
  (∀ b, triple marksLoaded (recurse b) (fun _ => marksLoaded) marksLoaded) →
  triple marksLoaded (checkRelation connection heap recurse a s relation)
    (fun _ => marksLoaded) marksLoaded.
Proof.
  intros Hrec. unfold checkRelation.
  destruct (negb _); [by apply triple_ret|].
  destruct (databaseEntity s) as [d|]; [|by apply triple_ret].
  destruct (persistValueRelationId _ _ _) as [pv|]; [|by apply triple_ret].
  destruct (_ || _).
  - unfold checkOwnerRelation.
    destruct (isPresent _); [by apply triple_ret|].
    destruct (_ || _); [by apply triple_ret|].
    eapply triple_bind; [apply find_marksLoaded|]. intros found.
    eapply (triple_bind _ _
              (fun found st => marksLoaded st ∧
                               ∀ b, found = Some b → hasDatabaseEntity st b)).
    + destruct found as [b|].
      * apply triple_ret. intros st [Hst Hfound]. split; [done|].
        intros c [= <-]. by apply Hfound.
      * intros st [Hst _]. by apply loadRelatedSubject_marksLoaded.
    + intros [b|]; [|apply triple_ret; by intros st [Hst _]].
      intros st [Hst Hb]. apply mark_and_recurse_marksLoaded; [done|]. auto.
  - destruct (isOneToOneNotOwner relation); [|by apply triple_ret].
    unfold checkNotOwnerRelation.
    destruct (isPresent _); [by apply triple_ret|].
    eapply triple_bind; [apply find_marksLoaded|]. intros found.
    eapply (triple_bind _ _ (fun _ st => marksLoaded st)).
    + destruct found as [b|].
      * apply triple_ret. by intros st [Hst _].
      * destruct (entity s) as [e|]; [|by intros st [Hst _]].
        intros st [Hst _].
        eapply holds_weaken; [|by apply (loadRelatedSubject_marksLoaded a relation)].
        by intros found' st' [Hst' _].
    + intros [b|]; [|by apply triple_ret].
      intros st Hst. unfold bind at 1, readSubject. cbn [andThen].
      destruct (subjects st !! b) as [related|] eqn:Hb; [|done]. simpl.
      destruct (databaseEntity related) as [d'|] eqn:Hd'; [|done].
      destruct (_ && _); [done|].
      apply mark_and_recurse_marksLoaded; [done|]. split; [done|].
      exists related. split; [done|]. by rewrite Hd'.
Qed.

Lemma removal_walk_marksLoaded fuel a :
  triple marksLoaded (findCascadeRemovedEntitiesToLoad connection heap fuel a)
    (fun _ => marksLoaded) marksLoaded.
Proof.
  revert a. induction fuel as [|fuel IH]; intros a; simpl.
  - by intros st Hst.
  - intros st Hst. unfold bind at 1, readSubject. cbn [andThen].
    destruct (subjects st !! a) as [subject|]; [|done].
    apply triple_all; [|done]. intros relation.
    by apply checkRelation_marksLoaded.
Qed.

Lemma walk_keepsMarksLoaded fuel e md :
  respects keepsMarksLoaded
    (findCascadeUpdateAndInsertEntitiesToLoad connection heap fuel e md).
Proof.
  apply walk_respects; [apply _|..]; intros.
  - intros st Hst. by apply marksLoaded_new.
  - intros st Hst. by eapply marksLoaded_same_store.
Qed.

Lemma populate_keepsMarksLoaded :
  respects keepsMarksLoaded (populateSubjectCollectionWithDatabaseEntities connection).
Proof.
  apply populate_respects; [apply _|..]; intros.
  - intros st Hst. by apply marksLoaded_loaded.
  - apply runFindByIds_respects; [apply _|].
    intros st Hst. by eapply marksLoaded_same_store.
Qed.

(** Whatever the outcome of [load] on a fresh loader, every subject that is
    marked as removed has a database entity: only entities found in the
    database are marked, never an entity that is only persisted. *)
Theorem load_marks_only_loaded (fuel : nat) (e : ObjectLiteral) (md : EntityMetadata) :
  marksLoaded (outcomeState (load connection heap fuel e md initialState)).
Proof.
  rewrite load_initial.
  assert (triple marksLoaded (loadCollected connection heap fuel e md)
            (fun _ => marksLoaded) marksLoaded) as Hload.
  { unfold loadCollected.
    eapply triple_bind; [apply triple_of_respects, walk_keepsMarksLoaded|]. intros ?.
    eapply triple_bind.
    { apply triple_settle, triple_of_respects, populate_keepsMarksLoaded. }
    intros ?. apply triple_settle.
    intros st Hst. unfold removeLoaded, bind, loadedSubjects. cbn [andThen].
    apply triple_all; [|done]. intros b. apply removal_walk_marksLoaded. }
  assert (marksLoaded (rootState e md)) as Hroot.
  { intros a s Hs Hmarked. apply list_lookup_singleton_Some in Hs as [_ <-]. done. }
  exact (holds_state marksLoaded _ (Hload (rootState e md) Hroot)).
Qed.

End Marks.


(* ------------------------------------------------------------------------- *)
(** ** Graphs without a cycle *)

Section AcyclicGraphs.
Context (connection : Connection) (heap : EntityHeap).

Local Abbreviation walk := (findCascadeUpdateAndInsertEntitiesToLoad connection heap).
Local Abbreviation edge := (cascadeEdge connection heap).

Lemma walk_ends_below_rank (rank : ObjectLiteral * EntityMetadata → nat)
    (root : ObjectLiteral * EntityMetadata) :
  (∀ x y, rtc edge root x → edge x y → rank y < rank x) →
  ∀ fuel e md st,
    rtc edge root (e, md) → rank (e, md) < fuel →
    ∃ st', walk fuel e md st = Resolved tt st'.
Proof.
  intros Hrank. induction fuel as [|fuel IH]; intros e md st Hreach Hfuel; [lia|].
  rewrite walk_succ. apply forEach_resolves. intros triple st0 Hin.
  apply elem_of_extract in Hin as (relation & Hrel & ->).
  unfold visitRelationValue.
  destruct (cascadesInsertOrUpdate relation (getEntityValue relation e)) eqn:Hgate;
    [|by eexists].
  unfold cascadesInsertOrUpdate in Hgate.
  apply andb_true_iff in Hgate as [Hdefined Hcascade].
  pose proof (cascadeEdge_intro connection heap e md relation Hrel Hdefined Hcascade)
    as Hedge.
  pose proof (Hrank _ _ Hreach Hedge) as Hlower.
  unfold bind at 1, newSubject. cbn [andThen].
  match goal with |- context [pushIfNotExist ?a] =>
    match goal with |- context [bind _ _ ?st1] =>
      destruct (silent_pushIfNotExist a st1) as ([] & st2 & Hpush & _)
    end
  end.
  unfold bind. rewrite Hpush. cbn [andThen]. apply IH; [|lia]. by eapply rtc_r.
Qed.

(** When the relations that the first walk follows from the entities it
    reaches lead each to an entity of lower rank, so that no cycle of such
    relations is reached, the walk comes to an end once it is allowed a depth
    of recursion above the rank of the persisted entity. *)
Theorem walk_ends_on_acyclic_graph (rank : ObjectLiteral * EntityMetadata → nat)
    (fuel : nat) (e : ObjectLiteral) (md : EntityMetadata) (st : LoaderState) :
  (∀ x y, rtc edge (e, md) x → edge x y → rank y < rank x) →
  rank (e, md) < fuel →
  ∃ st', walk fuel e md st = Resolved tt st'.
Proof.
  intros Hrank Hfuel. by eapply (walk_ends_below_rank rank (e, md)).
Qed.

End AcyclicGraphs.

(** The entities of the shared graph that the first walk reaches, and the
    relations it follows from them. *)
Lemma shared_graph_edges (x y : ObjectLiteral * EntityMetadata) :
  x ∈ [(SharedGraph.post, SharedGraph.postMetadata);
       (SharedGraph.information, SharedGraph.informationMetadata);
       (SharedGraph.category, SharedGraph.categoryMetadata)] →
  cascadeEdge SharedGraph.connection SharedGraph.heap x y →
  y ∈ [(SharedGraph.post, SharedGraph.postMetadata);
       (SharedGraph.information, SharedGraph.informationMetadata);
       (SharedGraph.category, SharedGraph.categoryMetadata)] ∧
  length (relations (snd y)) < length (relations (snd x)).
Proof.
  intros Hx Hedge.
  inversion Hedge as [e md relation Hrel Hdefined Hcascade]; subst.
  repeat (apply elem_of_cons in Hx as [Hx|Hx]); [..|by apply elem_of_nil in Hx];
    injection Hx as -> ->.
  - unfold SharedGraph.postMetadata in Hrel. simpl in Hrel.
    repeat (apply elem_of_cons in Hrel as [->|Hrel]); [..|by apply elem_of_nil in Hrel].
    + split; [|vm_compute; lia]. do 2 right. left.
    + split; [|vm_compute; lia]. right. left.
    + vm_compute in Hdefined. discriminate.
    + vm_compute in Hcascade. discriminate.
  - unfold SharedGraph.informationMetadata in Hrel. simpl in Hrel.
    repeat (apply elem_of_cons in Hrel as [->|Hrel]); [..|by apply elem_of_nil in Hrel].
    split; [|vm_compute; lia]. do 2 right. left.
  - by apply elem_of_nil in Hrel.
Qed.

Lemma shared_graph_reached (x : ObjectLiteral * EntityMetadata) :
  rtc (cascadeEdge SharedGraph.connection SharedGraph.heap)
    (SharedGraph.post, SharedGraph.postMetadata) x →
  x ∈ [(SharedGraph.post, SharedGraph.postMetadata);
       (SharedGraph.information, SharedGraph.informationMetadata);
       (SharedGraph.category, SharedGraph.categoryMetadata)].
Proof.
  intros Hreach. apply rtc_nsteps in Hreach as (n & Hreach). revert x Hreach.
  induction n as [|n IH]; intros x Hreach.
  - inversion Hreach; subst. left.
  - apply nsteps_inv_r in Hreach as (z & Hz & Hedge).
    by apply (shared_graph_edges z x (IH z Hz)).
Qed.

Lemma walk_ends_on_acyclic_graph_witness :
  ∃ st',
    findCascadeUpdateAndInsertEntitiesToLoad SharedGraph.connection SharedGraph.heap 5
      SharedGraph.post SharedGraph.postMetadata SharedGraph.rootState = Resolved tt st'.
Proof.
  apply (walk_ends_on_acyclic_graph SharedGraph.connection SharedGraph.heap
           (fun node => length (relations (snd node)))).
  - intros x y Hreach Hedge.
    apply (shared_graph_edges x y (shared_graph_reached x Hreach) Hedge).
  - vm_compute. lia.
Defined.

Lemma removal_walk_skips_witness :
  findCascadeRemovedEntitiesToLoad SharedGraph.connection SharedGraph.heap 1 0
    SharedGraph.rootState = Resolved tt SharedGraph.rootState.
Proof.
  apply (removal_walk_skips SharedGraph.connection SharedGraph.heap 0 0
           (rootSubject SharedGraph.post SharedGraph.postMetadata)).
  - reflexivity.
  - left. reflexivity.
Defined.

Lemma load_of_new_entities_witness :
  load (emptyDatabase [SharedGraph.postMetadata; SharedGraph.informationMetadata;
                       SharedGraph.categoryMetadata])
    SharedGraph.heap 3 SharedGraph.post SharedGraph.postMetadata initialState =
  Resolved tt
    {| subjects :=
         [rootSubject SharedGraph.post SharedGraph.postMetadata;
          rootSubject SharedGraph.category SharedGraph.categoryMetadata;
          rootSubject SharedGraph.information SharedGraph.informationMetadata;
          rootSubject SharedGraph.category SharedGraph.categoryMetadata];
       loadMap := [0; 1; 2];
       queries := [QFindByIds "Post" "post" [VNum 1];
                   QFindByIds "Category" "category" [VNum 5];
                   QFindByIds "Information" "information" [VNum 3]] |}.
Proof.
  apply (load_of_new_entities
           (emptyDatabase [SharedGraph.postMetadata; SharedGraph.informationMetadata;
                           SharedGraph.categoryMetadata])
           SharedGraph.heap 3 SharedGraph.post SharedGraph.postMetadata
           {| subjects :=
                [rootSubject SharedGraph.post SharedGraph.postMetadata;
                 rootSubject SharedGraph.category SharedGraph.categoryMetadata;
                 rootSubject SharedGraph.information SharedGraph.informationMetadata;
                 rootSubject SharedGraph.category SharedGraph.categoryMetadata];
              loadMap := [0; 1; 2]; queries := [] |}).
  - intros t ids. reflexivity.
  - vm_compute. reflexivity.
Defined.


(* ------------------------------------------------------------------------- *)
(** ** Reads that fail *)

Lemma doomed_andThen {A B} (o : Outcome A) (k : A → Loader B) :
  doomed o → doomed (andThen o k).
Proof.
  induction o as [a st|e st|st|rejected read resume IH st]; simpl; [done..|].
  intros Ho st'. by apply IH.
Qed.

Lemma doomed_complete {A} (o : Outcome A) (a : A) (st : LoaderState) :
  doomed o → complete o ≠ Resolved a st.
Proof.
  induction o as [a' st'|e st'|st'|rejected read resume IH st']; simpl; [done..|].
  intros Ho. by apply IH.
Qed.

Section FailedReads.
Context (connection : Connection) (heap : EntityHeap).

Local Abbreviation ok := (logAdds (okRead connection)).

Lemma tracks_doomed {A} (st : LoaderState) (o : Outcome A) :
  doomed o → tracks connection st o.
Proof. destruct o; simpl; auto. Qed.

Lemma tracks_from {A} (st st' : LoaderState) (o : Outcome A) :
  ok st st' → tracks connection st' o → tracks connection st o.
Proof.
  intros Hst. destruct o; simpl; (intros [Ho|[Ho Hresume]]; [by left|right]);
    (split; [by etrans|done]).
Qed.

Lemma tracks_andThen {A B} (st : LoaderState) (o : Outcome A) (k : A → Loader B) :
  tracks connection st o → (∀ a st', tracks connection st' (k a st')) →
  tracks connection st (andThen o k).
Proof.
  intros Ho Hk. revert st Ho.
  induction o as [a st'|e st'|st'|rejected read resume IH st']; intros st Ho.
  - destruct Ho as [[]|[Ho _]]. simpl. by eapply tracks_from.
  - by left.
  - by left.
  - destruct Ho as [Ho|[Ho Hresume]].
    + apply tracks_doomed. by apply (doomed_andThen (Awaiting rejected read resume st')).
    + right. split; [done|]. intros st''. by apply IH.
Qed.

(** A computation that resolves under the event loop has issued only reads
    that are answered with rows. *)
Lemma tracks_complete {A} (st : LoaderState) (o : Outcome A) (a : A)
    (st' : LoaderState) :
  tracks connection st o → complete o = Resolved a st' → ok st st'.
Proof.
  revert st. induction o as [a0 st0|e st0|st0|rejected read resume IH st0];
    intros st Ho Hcomplete; simpl in *; try done.
  - destruct Ho as [[]|[Ho _]]. by injection Hcomplete as -> ->.
  - destruct Ho as [Ho|[Ho Hresume]].
    + by destruct (doomed_complete (resume st0) a st' (Ho st0)).
    + etrans; [exact Ho|]. by eapply IH.
Qed.

Lemma blamed_later (st st' : LoaderState) (e : LoadError) :
  logExtends st st' → blamed connection st e → blamed connection st' e.
Proof.
  intros [added Hadded]. destruct e as [f|]; [|done].
  intros (q & Hq & Hf). exists q. split; [|done].
  rewrite Hadded. apply elem_of_app. by left.
Qed.

Lemma blames_state {A} (st : LoaderState) (o : Outcome A) :
  blames connection st o → logExtends st (outcomeState o).
Proof. destruct o; simpl; tauto. Qed.

Lemma blames_rejection {A} (st : LoaderState) (o : Outcome A) (e : LoadError) :
  blames connection st o → rejection o = Some e →
  blamed connection (outcomeState o) e.
Proof.
  destruct o as [a st'|e' st'|st'|rejected read resume st']; simpl; try done.
  - intros [_ He'] [= ->]. done.
  - intros (_ & Hrejected & _) ->. by apply Hrejected.
Qed.

Lemma blames_awaits {A} (st : LoaderState) (o : Outcome A) :
  blames connection st o → awaitsBlaming connection (outcomeState o) o.
Proof. destruct o; simpl; tauto. Qed.

Lemma awaitsBlaming_later {A} (st st' : LoaderState) (o : Outcome A) :
  logExtends st st' → awaitsBlaming connection st o → awaitsBlaming connection st' o.
Proof.
  intros Hst. destruct o; simpl; try done.
  intros Hresume st'' Hst''. apply Hresume. by etrans.
Qed.

Lemma blames_from {A} (st st' : LoaderState) (o : Outcome A) :
  logExtends st st' → blames connection st' o → blames connection st o.
Proof.
  intros Hst. destruct o; simpl; intros [Ho Hrest]; (split; [by etrans|done]).
Qed.

Lemma blames_andThen {A B} (st : LoaderState) (o : Outcome A) (k : A → Loader B) :
  blames connection st o → (∀ a st', blames connection st' (k a st')) →
  blames connection st (andThen o k).
Proof.
  intros Ho Hk. revert st Ho.
  induction o as [a st'|e st'|st'|rejected read resume IH st']; intros st Ho;
    simpl in *; try done.
  - destruct Ho as [Ho _]. by eapply blames_from.
  - destruct Ho as (Ho & Hrejected & Hresume). repeat split; [done..|].
    intros st'' Hst''. by apply IH, Hresume.
Qed.

Lemma blames_complete {A} (st : LoaderState) (o : Outcome A) (e : LoadError)
    (st' : LoaderState) :
  blames connection st o → complete o = Rejected e st' → blamed connection st' e.
Proof.
  revert st. induction o as [a0 st0|e0 st0|st0|rejected read resume IH st0];
    intros st Ho Hcomplete; simpl in *; try done.
  - destruct Ho as [_ Ho]. by injection Hcomplete as -> ->.
  - destruct Ho as (_ & _ & Hresume). eapply (IH st0 st0); [|done].
    apply Hresume. reflexivity.
Qed.

Lemma noted_later {A} (first : option LoadError) (e : option LoadError) (o : Outcome A) :
  noted first o → noted (firstOf first e) o.
Proof. destruct o; simpl; try done. by destruct first. Qed.

Lemma noted_rejection {A} (first : option LoadError) (o : Outcome A) :
  noted (firstOf first (rejection o)) o.
Proof. destruct o; simpl; try done. by destruct first. Qed.

(** Of two computations in flight, when one cannot resolve any more, the
    two together cannot either. *)
Lemma doomed_join (o1 : Outcome unit) :
  ∀ o2 first st,
    noted first o1 → noted first o2 → doomed o1 ∨ doomed o2 →
    doomed (join connection o1 first o2 st).
Proof.
  induction o1 as [a1 st1|e1 st1|st1|rejected1 read1 resume1 IH1 st1];
    intros o2;
    induction o2 as [a2 st2|e2 st2|st2|rejected2 read2 resume2 IH2 st2];
    intros first st H1 H2 Hdoomed; simpl in H1, H2, Hdoomed;
    try done; try (by destruct first); try (by destruct Hdoomed).
  - rewrite join_second by done. intros st'. apply IH2.
    + by apply noted_later.
    + apply noted_rejection.
    + destruct Hdoomed as [[]|Hdoomed]. by right.
  - rewrite join_second by done. intros st'. apply IH2.
    + by apply noted_later.
    + apply noted_rejection.
    + by left.
  - rewrite join_first by done. intros st'. apply IH1.
    + apply noted_rejection.
    + by apply noted_later.
    + destruct Hdoomed as [Hdoomed|[]]. by left.
  - rewrite join_first by done. intros st'. apply IH1.
    + apply noted_rejection.
    + by apply noted_later.
    + by right.
  - rewrite join_both. destruct (answeredBefore connection read1 read2); intros st'.
    + apply IH1; [apply noted_rejection|done|].
      destruct Hdoomed as [Hdoomed|Hdoomed]; [left; apply Hdoomed|by right].
    + apply IH2; [done|apply noted_rejection|].
      destruct Hdoomed as [Hdoomed|Hdoomed]; [by left|right; apply Hdoomed].
Qed.

Lemma tracks_tracking {A} (st : LoaderState) (o : Outcome A) :
  tracks connection st o → tracking connection o.
Proof. unfold tracking. destruct o; simpl; tauto. Qed.

Lemma tracks_ok {A} (st : LoaderState) (o : Outcome A) :
  tracks connection st o → doomed o ∨ ok st (outcomeState o).
Proof. destruct o; simpl; tauto. Qed.

Lemma tracks_join (o1 : Outcome unit) :
  ∀ o2 first from st,
    noted first o1 → noted first o2 →
    tracking connection o1 → tracking connection o2 →
    doomed o1 ∨ doomed o2 ∨ ok from st →
    tracks connection from (join connection o1 first o2 st).
Proof.
  assert (∀ o1 o2 first from st,
            noted first o1 → noted first o2 → doomed o1 ∨ doomed o2 →
            tracks connection from (join connection o1 first o2 st)) as Hdoomed.
  { intros. by apply tracks_doomed, doomed_join. }
  induction o1 as [a1 st1|e1 st1|st1|rejected1 read1 resume1 IH1 st1];
    intros o2;
    induction o2 as [a2 st2|e2 st2|st2|rejected2 read2 resume2 IH2 st2];
    intros first from st N1 N2 T1 T2 Hok;
    try (by apply Hdoomed; [done|done|simpl; auto]).
  - destruct Hok as [[]|[[]|Hok]]. destruct first; simpl; [by left|by right].
  - destruct T2 as [T2|T2]; [by apply Hdoomed; auto|].
    destruct Hok as [[]|[Hok|Hok]]; [by apply Hdoomed; auto|].
    rewrite join_second by done. right. split; [done|]. intros st'.
    apply IH2; [by apply noted_later|apply noted_rejection|done| |].
    + eapply tracks_tracking, T2.
    + destruct (tracks_ok _ _ (T2 st')); auto.
  - destruct T1 as [T1|T1]; [by apply Hdoomed; auto|].
    destruct Hok as [Hok|[[]|Hok]]; [by apply Hdoomed; auto|].
    rewrite join_first by done. right. split; [done|]. intros st'.
    apply IH1; [apply noted_rejection|by apply noted_later| |done|].
    + eapply tracks_tracking, T1.
    + destruct (tracks_ok _ _ (T1 st')); auto.
  - destruct T1 as [T1|T1]; [by apply Hdoomed; auto|].
    destruct T2 as [T2|T2]; [by apply Hdoomed; auto|].
    destruct Hok as [Hok|[Hok|Hok]]; [by apply Hdoomed; auto..|].
    rewrite join_both. destruct (answeredBefore connection read1 read2).
    + right. split; [done|]. intros st'.
      apply IH1; [apply noted_rejection|done| |by right|].
      * eapply tracks_tracking, T1.
      * destruct (tracks_ok _ _ (T1 st')); auto.
    + right. split; [done|]. intros st'.
      apply IH2; [done|apply noted_rejection|by right| |].
      * eapply tracks_tracking, T2.
      * destruct (tracks_ok _ _ (T2 st')); auto.
Qed.

Lemma tracks_all {A} (l : list A) (callback : A → Loader unit) :
  (∀ x st, tracks connection st (callback x st)) →
  ∀ st, tracks connection st (all connection l callback st).
Proof.
  intros Hall. induction l as [|x l IH]; intros st.
  - right. split; [reflexivity|done].
  - simpl. pose proof (Hall x st) as Hx.
    pose proof (IH (outcomeState (callback x st))) as Hrest.
    apply tracks_join.
    + destruct (callback x st); simpl; done.
    + destruct (all connection l callback (outcomeState (callback x st)));
        simpl; try done. by destruct (rejection (callback x st)).
    + by eapply tracks_tracking.
    + by eapply tracks_tracking.
    + destruct (tracks_ok _ _ Hx) as [?|Hok1]; [by left|].
      destruct (tracks_ok _ _ Hrest) as [?|Hok2]; [by right; left|].
      right. right. by etrans.
Qed.

Lemma blames_join (o1 : Outcome unit) :
  ∀ o2 first from st,
    logExtends from st →
    (∀ e, first = Some e → blamed connection st e) →
    awaitsBlaming connection st o1 → awaitsBlaming connection st o2 →
    blames connection from (join connection o1 first o2 st).
Proof.
  assert (∀ (o : Outcome unit) first st st',
            (∀ e, first = Some e → blamed connection st e) →
            logExtends st st' → blames connection st' o →
            ∀ e, firstOf first (rejection o) = Some e →
                 blamed connection (outcomeState o) e) as Hfirst.
  { intros o first st st' Hblamed Hst Ho e. destruct first as [e'|]; simpl.
    - intros [= <-]. eapply blamed_later; [|by apply Hblamed].
      etrans; [exact Hst|]. by eapply blames_state.
    - intros He. by eapply blames_rejection. }
  induction o1 as [a1 st1|e1 st1|st1|rejected1 read1 resume1 IH1 st1];
    intros o2;
    induction o2 as [a2 st2|e2 st2|st2|rejected2 read2 resume2 IH2 st2];
    intros first from st Hfrom Hblamed H1 H2;
    try (by simpl; destruct first; simpl; auto); try done.
  - rewrite join_second by done. simpl. repeat split; [done..|].
    intros st' Hst'. pose proof (H2 st' Hst') as Ho.
    apply IH2; [exact (blames_state _ _ Ho)|exact (Hfirst _ _ _ _ Hblamed Hst' Ho)|done|exact (blames_awaits _ _ Ho)].
  - rewrite join_second by done. simpl. repeat split; [done..|].
    intros st' Hst'. pose proof (H2 st' Hst') as Ho.
    apply IH2; [exact (blames_state _ _ Ho)|exact (Hfirst _ _ _ _ Hblamed Hst' Ho)|done|exact (blames_awaits _ _ Ho)].
  - rewrite join_first by done. simpl. repeat split; [done..|].
    intros st' Hst'. pose proof (H1 st' Hst') as Ho.
    apply IH1; [exact (blames_state _ _ Ho)|exact (Hfirst _ _ _ _ Hblamed Hst' Ho)|exact (blames_awaits _ _ Ho)|done].
  - rewrite join_first by done. simpl. repeat split; [done..|].
    intros st' Hst'. pose proof (H1 st' Hst') as Ho.
    apply IH1; [exact (blames_state _ _ Ho)|exact (Hfirst _ _ _ _ Hblamed Hst' Ho)|exact (blames_awaits _ _ Ho)|done].
  - rewrite join_both. destruct (answeredBefore connection read1 read2).
    + simpl. repeat split; [done..|].
      intros st' Hst'. pose proof (H1 st' Hst') as Ho.
      apply IH1; [exact (blames_state _ _ Ho)|exact (Hfirst _ _ _ _ Hblamed Hst' Ho)|exact (blames_awaits _ _ Ho)|].
      eapply awaitsBlaming_later; [|exact H2].
      etrans; [exact Hst'|]. exact (blames_state _ _ Ho).
    + simpl. repeat split; [done..|].
      intros st' Hst'. pose proof (H2 st' Hst') as Ho.
      apply IH2; [exact (blames_state _ _ Ho)|exact (Hfirst _ _ _ _ Hblamed Hst' Ho)| |exact (blames_awaits _ _ Ho)].
      eapply awaitsBlaming_later; [|exact H1].
      etrans; [exact Hst'|]. exact (blames_state _ _ Ho).
Qed.

Lemma blames_all {A} (l : list A) (callback : A → Loader unit) :
  (∀ x st, blames connection st (callback x st)) →
  ∀ st, blames connection st (all connection l callback st).
Proof.
  intros Hall. induction l as [|x l IH]; intros st.
  - simpl. split; [reflexivity|done].
  - simpl. pose proof (Hall x st) as Hx.
    pose proof (IH (outcomeState (callback x st))) as Hrest.
    apply blames_join.
    + etrans; [exact (blames_state _ _ Hx)|exact (blames_state _ _ Hrest)].
    + intros e. destruct (rejection (callback x st)) as [e'|] eqn:Hrejection; simpl.
      * intros [= <-]. eapply blamed_later; [exact (blames_state _ _ Hrest)|].
        exact (blames_rejection _ _ _ Hx Hrejection).
      * intros He. exact (blames_rejection _ _ _ Hrest He).
    + eapply awaitsBlaming_later; [exact (blames_state _ _ Hrest)|].
      exact (blames_awaits _ _ Hx).
    + exact (blames_awaits _ _ Hrest).
Qed.

Lemma accounts_silent {A} (m : Loader A) : silent m → accounts connection m.
Proof.
  intros Hm st. destruct (Hm st) as (a & st' & -> & Hlog). split.
  - right. split; [|done]. exists []. simpl. by rewrite Hlog, app_nil_r.
  - split; [|done]. unfold logExtends. simpl. by rewrite Hlog.
Qed.

Lemma accounts_ret {A} (a : A) : accounts connection (ret a).
Proof. apply accounts_silent, silent_ret. Qed.

Lemma accounts_absent {A} : accounts connection (@reject A AbsentEntityRead).
Proof. intros st. split; [by left|]. split; [reflexivity|done]. Qed.

Lemma accounts_outOfFuel {A} : accounts connection (@outOfFuel A).
Proof. intros st. split; [by left|]. split; [reflexivity|done]. Qed.

Lemma accounts_bind {A B} (m : Loader A) (k : A → Loader B) :
  accounts connection m → (∀ a, accounts connection (k a)) →
  accounts connection (bind m k).
Proof.
  intros Hm Hk st. unfold bind. split.
  - apply tracks_andThen; [apply Hm|]. intros a st'. apply Hk.
  - apply blames_andThen; [apply Hm|]. intros a st'. apply Hk.
Qed.

Lemma accounts_forEach {A} (l : list A) (callback : A → Loader unit) :
  (∀ x, accounts connection (callback x)) →
  accounts connection (forEach l callback).
Proof.
  intros Hall. induction l as [|x l IH]; simpl.
  - apply accounts_ret.
  - by apply accounts_bind.
Qed.

Lemma accounts_all {A} (l : list A) (callback : A → Loader unit) :
  (∀ x, accounts connection (callback x)) →
  accounts connection (all connection l callback).
Proof.
  intros Hall st. split.
  - apply tracks_all. intros x st'. apply Hall.
  - apply blames_all. intros x st'. apply Hall.
Qed.

(** A read accounts for its own failure: answered with rows it resolves,
    answered with a failure it rejects with that failure, and the read is in
    the log by then. *)
Lemma accounts_read {A} (q : Query) (answer : Fetch A) (st : LoaderState) :
  (∀ f, answer = FetchFail f → queryFailure connection q = Some f) →
  (∀ r, answer = FetchOk r → queryFailure connection q = None) →
  let o := Awaiting None (length (queries st))
             (fun st' => match answer with
                         | FetchOk r => Resolved r st'
                         | FetchFail f => Rejected (FetchError f) st'
                         end)
             (issued st q) in
  tracks connection st o ∧ blames connection st o.
Proof.
  intros Hfail Hok. split.
  - destruct answer as [r|f].
    + right. split.
      * exists [q]. split; [done|]. constructor; [|done]. by eapply Hok.
      * intros st'. right. split; [reflexivity|done].
    + left. intros st'. done.
  - split; [by exists [q]|]. split; [done|]. intros st' [added Hadded].
    destruct answer as [r|f]; (split; [reflexivity|]); [done|].
    exists q. split; [|by apply Hfail].
    rewrite Hadded. simpl. apply elem_of_app. left. apply elem_of_app. right.
    by apply list_elem_of_singleton.
Qed.

Lemma accounts_runFindByIds t alias ids :
  accounts connection (runFindByIds connection t alias ids).
Proof.
  intros st. apply (accounts_read (QFindByIds t alias ids)); simpl.
  - by intros f ->.
  - by intros r ->.
Qed.

Lemma accounts_runGetSingleResult t alias column id :
  accounts connection (runGetSingleResult connection t alias column id).
Proof.
  intros st. apply (accounts_read (QSingleResult t alias column id)); simpl.
  - by intros f ->.
  - by intros r ->.
Qed.

Local Ltac quiet := apply accounts_silent; auto with loader.

Lemma accounts_populate :
  accounts connection (populateSubjectCollectionWithDatabaseEntities connection).
Proof.
  unfold populateSubjectCollectionWithDatabaseEntities.
  apply accounts_bind; [quiet|]. intros groups.
  apply accounts_all. intros subjectGroup.
  apply accounts_bind; [apply accounts_runFindByIds|]. intros entities.
  apply accounts_forEach. intros row.
  apply accounts_bind; [quiet|]. intros [a|]; quiet.
Qed.

Lemma accounts_loadRelatedSubject a relation column id :
  accounts connection (loadRelatedSubject connection a relation column id).
Proof.
  unfold loadRelatedSubject.
  apply accounts_bind; [apply accounts_runGetSingleResult|].
  intros [row|]; [|quiet].
  apply accounts_bind; [quiet|]. intros related.
  apply accounts_bind; [quiet|intros _; quiet].
Qed.

Lemma accounts_checkRelation recurse a s relation :
  (∀ b, accounts connection (recurse b)) →
  accounts connection (checkRelation connection heap recurse a s relation).
Proof.
  intros Hrec. unfold checkRelation.
  destruct (negb _); [quiet|].
  destruct (databaseEntity s) as [d|]; [|quiet].
  destruct (persistValueRelationId _ _ _) as [pv|]; [|quiet].
  destruct (_ || _).
  - unfold checkOwnerRelation.
    destruct (isPresent _); [quiet|]. destruct (_ || _); [quiet|].
    apply accounts_bind; [quiet|]. intros found.
    apply accounts_bind.
    + destruct found; [quiet|apply accounts_loadRelatedSubject].
    + intros [b|]; [|quiet]. apply accounts_bind; [quiet|auto].
  - destruct (isOneToOneNotOwner relation); [|quiet].
    unfold checkNotOwnerRelation.
    destruct (isPresent _); [quiet|].
    apply accounts_bind; [quiet|]. intros found.
    apply accounts_bind.
    + destruct found; [quiet|].
      destruct (entity s); [apply accounts_loadRelatedSubject|apply accounts_absent].
    + intros [b|]; [|quiet].
      apply accounts_bind; [quiet|]. intros related.
      destruct (related ≫= databaseEntity); [|quiet].
      destruct (_ && _); [quiet|].
      apply accounts_bind; [quiet|auto].
Qed.

Lemma accounts_findCascadeRemovedEntitiesToLoad fuel a :
  accounts connection (findCascadeRemovedEntitiesToLoad connection heap fuel a).
Proof.
  revert a. induction fuel as [|fuel IH]; intros a; simpl.
  - apply accounts_outOfFuel.
  - apply accounts_bind; [quiet|]. intros [subject|]; [|quiet].
    apply accounts_all. intros relation.
    by apply accounts_checkRelation.
Qed.

Lemma accounts_findCascadeUpdateAndInsertEntitiesToLoad fuel e md :
  accounts connection
    (findCascadeUpdateAndInsertEntitiesToLoad connection heap fuel e md).
Proof.
  revert e md. induction fuel as [|fuel IH]; intros e md; simpl.
  - apply accounts_outOfFuel.
  - apply accounts_forEach. intros [[relation value] valueMetadata].
    unfold visitRelationValue. destruct (cascadesInsertOrUpdate _ _); [|quiet].
    apply accounts_bind; [quiet|]. intros subject.
    apply accounts_bind; [quiet|auto].
Qed.

(** The steps of [load], before the event loop has run them to their end. *)
Lemma accounts_load fuel e md :
  accounts connection
    (let* persistedEntity := newSubject md (Some e) None in
     push persistedEntity >>
     findCascadeUpdateAndInsertEntitiesToLoad connection heap fuel e md >>
     populateSubjectCollectionWithDatabaseEntities connection >>
     let* loaded := loadedSubjects in
     all connection loaded (findCascadeRemovedEntitiesToLoad connection heap fuel))%loader.
Proof.
  apply accounts_bind; [quiet|]. intros persistedEntity.
  apply accounts_bind; [quiet|]. intros _.
  apply accounts_bind; [apply accounts_findCascadeUpdateAndInsertEntitiesToLoad|].
  intros _. apply accounts_bind; [apply accounts_populate|]. intros _.
  apply accounts_bind; [quiet|]. intros loaded.
  apply accounts_all. intros a.
  apply accounts_findCascadeRemovedEntitiesToLoad.
Qed.


End FailedReads.



(** The failure [load] rejects with depends on the order the reads are
    answered in: when the last read issued is answered first, its failure is
    the one reported. *)
Lemma first_answered_failure_is_reported :
  rejection (load (SharedGraph.unreadableConnection (fun n => 2 - n)) SharedGraph.heap 3
               SharedGraph.post SharedGraph.postMetadata initialState) =
    Some (FetchError "connection lost") ∧
  rejection (load (SharedGraph.unreadableConnection (fun n => n)) SharedGraph.heap 3
               SharedGraph.post SharedGraph.postMetadata initialState) =
    Some (FetchError "table post is locked").
Proof. split; vm_compute; reflexivity. Qed.
(* ------------------------------------------------------------------------- *)
(** ** The PostgreSQL driver: values *)

Module PostgresDriverFacts.
Import PostgresDriver.

Lemma append_assoc (a b c : string) : (a +:+ b) +:+ c = a +:+ (b +:+ c).
Proof.
  induction a as [|x a IH]; [done|].
  change (String x ((a +:+ b) +:+ c) = String x (a +:+ (b +:+ c))). by rewrite IH.
Qed.

Lemma split_never_empty (text : string) : split text ≠ [].
Proof.
  induction text as [|c text IH]; cbn -[comma]; [done|].
  destruct (Ascii.eqb c comma); [done|]. by destruct (split text).
Qed.

Lemma split_commaFree (text : string) : commaFree text → split text = [text].
Proof.
  induction text as [|c text IH]; cbn -[comma]; [done|].
  intros [-> Hfree]. by rewrite IH.
Qed.

Lemma split_piece (piece rest : string) :
  commaFree piece → split (piece +:+ String comma rest) = piece :: split rest.
Proof.
  induction piece as [|c piece IH].
  - intros _. change (split (String comma rest) = ""%string :: split rest).
    cbn [split]. by rewrite Ascii.eqb_refl.
  - intros [Hc Hfree].
    change (split (String c (piece +:+ String comma rest)) =
            String c piece :: split rest).
    cbn [split]. by rewrite Hc, IH.
Qed.

Lemma split_join (items : list string) :
  items ≠ [] → Forall commaFree items → split (join items) = items.
Proof.
  induction items as [|item items IH]; [done|]. intros _ Hfree.
  apply Forall_cons in Hfree as [Hitem Hitems].
  destruct items as [|item' items].
  - cbn -[comma]. by apply split_commaFree.
  - change (join (item :: item' :: items))
      with (item +:+ String comma (join (item' :: items))).
    rewrite split_piece by done. by rewrite IH.
Qed.

(** A value prepared for a column of type simple array and hydrated back is
    the array of the texts [String] gives for its elements, provided none of
    these texts holds a comma; the empty array comes back as the array of the
    empty text. *)
Theorem simple_array_round_trip (runtime : Runtime) (items : list JsValue) :
  Forall (fun item => commaFree (toJsString runtime item)) items →
  ∃ stored,
    preparePersistentValue runtime (JArray items) {| type := SIMPLE_ARRAY |} =
      Returns stored ∧
    prepareHydratedValue runtime stored (inl {| type := SIMPLE_ARRAY |}) =
      Returns (JArray (map JString
                         (match items with
                          | [] => [""%string]
                          | _ => map (toJsString runtime) items
                          end))).
Proof.
  intros Hfree. eexists. split; [reflexivity|].
  cbn -[comma join split]. do 3 f_equal.
  destruct items as [|item items]; [done|].
  apply split_join; [done|]. by apply Forall_fmap.
Qed.

Lemma simple_array_round_trip_witness :
  ∃ stored,
    preparePersistentValue sampleRuntime (JArray [JString "red"; JBool true; JNull])
      {| type := SIMPLE_ARRAY |} = Returns stored ∧
    prepareHydratedValue sampleRuntime stored (inl {| type := SIMPLE_ARRAY |}) =
      Returns (JArray [JString "red"; JString "true"; JString "null"]).
Proof.
  apply (simple_array_round_trip sampleRuntime [JString "red"; JBool true; JNull]).
  repeat constructor.
Defined.

Lemma split_comma (text rest : string) :
  split (text +:+ String comma rest) = split text ++ split rest.
Proof.
  induction text as [|c text IH].
  - change (split (String comma rest) = [""%string] ++ split rest).
    cbn [split]. by rewrite Ascii.eqb_refl.
  - change (split (String c (text +:+ String comma rest)) =
            split (String c text) ++ split rest).
    cbn [split]. rewrite IH. destruct (Ascii.eqb c comma); [done|].
    pose proof (split_never_empty text). by destruct (split text).
Qed.

Lemma split_join_pieces (items : list string) :
  items ≠ [] → split (join items) = concat (map split items).
Proof.
  induction items as [|item items IH]; [done|]. intros _.
  destruct items as [|item' items].
  - cbn -[comma split]. by rewrite app_nil_r.
  - change (join (item :: item' :: items))
      with (item +:+ String comma (join (item' :: items))).
    rewrite split_comma, IH by done. done.
Qed.

Lemma split_pieces_commaFree (items : list string) :
  Forall commaFree items → concat (map split items) = items.
Proof.
  induction 1 as [|item items Hitem _ IH]; [done|].
  cbn [map concat]. by rewrite split_commaFree, IH.
Qed.

Lemma split_pieces_length (items : list string) :
  length items ≤ length (concat (map split items)).
Proof.
  induction items as [|item items IH]; [done|].
  cbn [map concat]. rewrite length_app. pose proof (split_never_empty item).
  destruct (split item); [done|]. simpl. lia.
Qed.

(** A text that holds a comma is a text without comma, the comma, and the
    rest. *)
Lemma first_comma (text : string) :
  ¬ commaFree text →
  ∃ before after, text = before +:+ String comma after ∧ commaFree before.
Proof.
  induction text as [|c text IH]; [by intros []|]. intros Hcomma.
  destruct (Ascii.eqb c comma) eqn:Hc.
  - apply Ascii.eqb_eq in Hc as ->. by exists ""%string, text.
  - destruct IH as (before & after & -> & Hbefore).
    { intros Hfree. by apply Hcomma. }
    by exists (String c before), after.
Qed.

(** An element whose text holds a comma does not come back as one element,
    wherever it is in the array: the array hydrated holds, in place of the
    element, the text before its first comma and the pieces of the rest, and
    so has more elements than the array prepared.  When no other comma is
    around, these are the elements before, the two halves, and the elements
    after. *)
Theorem simple_array_splits_at_commas (runtime : Runtime) (front back : list JsValue)
    (item : JsValue) :
  ¬ commaFree (toJsString runtime item) →
  ∃ before after pieces,
    toJsString runtime item = before +:+ String comma after ∧
    commaFree before ∧
    pieces = concat (map split (map (toJsString runtime) front)) ++
             before :: split after ++
             concat (map split (map (toJsString runtime) back)) ∧
    prepareHydratedValue runtime
      (JString (join (map (toJsString runtime) (front ++ item :: back))))
      (inr SIMPLE_ARRAY) = Returns (JArray (map JString pieces)) ∧
    length (front ++ item :: back) < length pieces ∧
    (Forall (fun other => commaFree (toJsString runtime other)) (front ++ back) →
     commaFree after →
     pieces = map (toJsString runtime) front ++
              before :: after :: map (toJsString runtime) back).
Proof.
  intros Hcomma. destruct (first_comma _ Hcomma) as (before & after & Hitem & Hbefore).
  exists before, after. eexists. repeat split; [done..| | |].
  - cbn -[comma join split]. do 3 f_equal.
    rewrite split_join_pieces by by destruct front.
    rewrite !map_app, concat_app. cbn [map concat].
    by rewrite Hitem, split_piece.
  - rewrite !length_app. cbn [length]. rewrite length_app.
    pose proof (split_pieces_length (map (toJsString runtime) front)) as Hfront.
    pose proof (split_pieces_length (map (toJsString runtime) back)) as Hback.
    rewrite !length_map in Hfront, Hback.
    pose proof (split_never_empty after). destruct (split after); [done|].
    simpl. lia.
  - intros Hfree Hafter. apply Forall_app in Hfree as [Hfront Hback].
    rewrite !split_pieces_commaFree by by apply Forall_fmap.
    by rewrite split_commaFree.
Qed.

Lemma simple_array_splits_at_commas_witness :
  ∃ before after pieces,
    toJsString sampleRuntime (JString "a,b") = before +:+ String comma after ∧
    commaFree before ∧
    pieces = concat (map split (map (toJsString sampleRuntime) [JString "x"; JNull])) ++
             before :: split after ++
             concat (map split (map (toJsString sampleRuntime) [JString "c"])) ∧
    prepareHydratedValue sampleRuntime
      (JString (join (map (toJsString sampleRuntime)
                        ([JString "x"; JNull] ++ JString "a,b" :: [JString "c"]))))
      (inr SIMPLE_ARRAY) = Returns (JArray (map JString pieces)) ∧
    length ([JString "x"; JNull] ++ JString "a,b" :: [JString "c"]) < length pieces ∧
    (Forall (fun other => commaFree (toJsString sampleRuntime other))
       ([JString "x"; JNull] ++ [JString "c"]) →
     commaFree after →
     pieces = map (toJsString sampleRuntime) [JString "x"; JNull] ++
              before :: after :: map (toJsString sampleRuntime) [JString "c"]).
Proof.
  apply (simple_array_splits_at_commas sampleRuntime [JString "x"; JNull]
           [JString "c"] (JString "a,b")).
  intros (_ & Hcomma & _). discriminate Hcomma.
Defined.

(** A value prepared for a column of type boolean and hydrated back is the
    boolean [true] for the value [true] and the boolean [false] for every
    other value, the values that count as true in a condition included. *)
Theorem boolean_round_trip (runtime : Runtime) (value : JsValue) :
  ∃ stored,
    preparePersistentValue runtime value {| type := BOOLEAN |} = Returns stored ∧
    prepareHydratedValue runtime stored (inl {| type := BOOLEAN |}) =
      Returns (JBool (isTrue value)) ∧
    prepareHydratedValue runtime stored (inr BOOLEAN) = Returns (JBool (isTrue value)).
Proof.
  eexists. split; [reflexivity|]. simpl. by destruct (isTrue value).
Qed.

(* ------------------------------------------------------------------------- *)
(** ** The PostgreSQL driver: connections *)

Lemma withConnections_same (driver : Driver) :
  withConnections driver (databaseConnectionPool driver) = driver.
Proof. by destruct driver. Qed.

Lemma list_pair_ind {A} (P : list A → Prop) :
  P [] → (∀ x, P [x]) → (∀ x y l, P l → P (x :: y :: l)) → ∀ l, P l.
Proof.
  intros Hnil Hone Hstep l.
  assert (P l ∧ ∀ x, P (x :: l)) as [H _]; [|done].
  induction l as [|y l [IH1 IH2]]; [by split|]. split; [apply IH2|].
  intros x. by apply Hstep.
Qed.

Lemma indexOf_middle (before after : list DatabaseConnection)
    (entry : DatabaseConnection) :
  NoDup (ref <$> (before ++ entry :: after)) →
  indexOf entry (before ++ entry :: after) = Some (length before).
Proof.
  intros Hnodup. unfold indexOf.
  assert (list_find (fun other => ref other = ref entry) (before ++ entry :: after) =
          Some (length before, entry)) as ->; [|done].
  apply list_find_Some. split; [by apply list_lookup_middle|]. split; [done|].
  intros j other Hother Hj Href.
  rewrite lookup_app_l in Hother by done.
  rewrite fmap_app, fmap_cons in Hnodup.
  apply NoDup_app in Hnodup as (_ & Hdisjoint & _).
  apply (Hdisjoint (ref other)).
  - apply list_elem_of_fmap. exists other. split; [done|].
    by eapply list_elem_of_lookup_2.
  - rewrite Href. left.
Qed.

Lemma indexOf_absent (entries : list DatabaseConnection) (entry : DatabaseConnection) :
  ref entry ∉ ref <$> entries → indexOf entry entries = None.
Proof.
  intros Habsent. unfold indexOf.
  assert (list_find (fun other => ref other = ref entry) entries = None) as ->; [|done].
  apply list_find_None, Forall_forall. intros other Hother Href.
  apply Habsent. rewrite <- Href. apply list_elem_of_fmap. by exists other.
Qed.

Lemma releaseEach_beyond (indices : list nat) (driver : Driver) :
  Forall (fun k => length (databaseConnectionPool driver) ≤ k) indices →
  releaseEach indices driver = (driver, []).
Proof.
  induction 1 as [|k indices Hk Hindices IH]; [done|].
  simpl. by rewrite lookup_ge_None_2.
Qed.

Lemma seq_beyond (start n bound : nat) :
  bound ≤ start → Forall (fun k => bound ≤ k) (seq start n).
Proof.
  intros Hstart. apply Forall_forall. intros k Hk.
  apply list_elem_of_lookup in Hk as (i & Hi).
  apply lookup_seq in Hi as [-> _]. lia.
Qed.

Lemma releaseCallback_present (driver : Driver) (before after : list DatabaseConnection)
    (entry : DatabaseConnection) :
  databaseConnectionPool driver = before ++ entry :: after →
  NoDup (ref <$> (before ++ entry :: after)) →
  releaseCallback entry driver =
    (withConnections driver (before ++ after), [Release (connection entry)]).
Proof.
  intros Hentries Hnodup. unfold releaseCallback, withConnections.
  rewrite Hentries, indexOf_middle by done. unfold splice.
  by rewrite delete_middle.
Qed.

Lemma releaseEach_present (k : nat) (indices : list nat) (driver : Driver)
    (entry : DatabaseConnection) (driver' : Driver) (calls : list NativeCall) :
  databaseConnectionPool driver !! k = Some entry →
  releaseCallback entry driver = (driver', calls) →
  releaseEach (k :: indices) driver =
    ((releaseEach indices driver').1, calls ++ (releaseEach indices driver').2).
Proof.
  intros Hk Hrelease. cbn [releaseEach]. rewrite Hk, Hrelease.
  by destruct (releaseEach indices driver').
Qed.

Lemma releaseEach_every_other (after before : list DatabaseConnection) :
  ∀ (n : nat) (driver : Driver),
    databaseConnectionPool driver = before ++ after →
    NoDup (ref <$> (before ++ after)) →
    length after ≤ n →
    releaseEach (seq (length before) n) driver =
      (withConnections driver (before ++ odds after),
       (fun entry => Release (connection entry)) <$> evens after).
Proof.
  revert before. induction after as [|x|x y after IH] using list_pair_ind;
    intros before n driver Hentries Hnodup Hn.
  - rewrite releaseEach_beyond.
    + simpl. by rewrite <- Hentries, withConnections_same.
    + apply seq_beyond. rewrite Hentries, length_app. simpl. lia.
  - destruct n as [|n]; [simpl in Hn; lia|]. cbn [seq].
    rewrite (releaseEach_present _ _ driver x
               (withConnections driver (before ++ [])) [Release (connection x)]).
    + rewrite releaseEach_beyond; [done|].
      apply seq_beyond. simpl. rewrite app_nil_r. lia.
    + rewrite Hentries. by apply list_lookup_middle.
    + by apply releaseCallback_present.
  - destruct n as [|n]; [simpl in Hn; lia|]. cbn [seq].
    rewrite (releaseEach_present _ _ driver x
               (withConnections driver (before ++ y :: after))
               [Release (connection x)]).
    2:{ rewrite Hentries. by apply list_lookup_middle. }
    2:{ by apply releaseCallback_present. }
    assert (S (length before) = length (before ++ [y])) as ->.
    { rewrite length_app. simpl. lia. }
    rewrite (IH (before ++ [y]) n (withConnections driver (before ++ y :: after))).
    + simpl. by rewrite <- app_assoc.
    + simpl. by rewrite <- app_assoc.
    + rewrite <- app_assoc. simpl.
      rewrite fmap_app, fmap_cons in Hnodup. rewrite fmap_app.
      apply NoDup_app in Hnodup as (H1 & H2 & H3).
      apply NoDup_cons in H3 as [_ H3].
      apply NoDup_app. split; [done|]. split; [|done].
      intros r Hr Hr'. apply (H2 r Hr). by right.
    + simpl in Hn. lia.
Qed.

Lemma releaseEach_all (driver : Driver) :
  NoDup (ref <$> databaseConnectionPool driver) →
  releaseEach (seq 0 (length (databaseConnectionPool driver))) driver =
    (withConnections driver (odds (databaseConnectionPool driver)),
     (fun entry => Release (connection entry)) <$>
       evens (databaseConnectionPool driver)).
Proof.
  intros Hnodup.
  by apply (releaseEach_every_other (databaseConnectionPool driver) []).
Qed.

Lemma releaseEach_fields (indices : list nat) (driver : Driver) :
  databaseConnection (releaseEach indices driver).1 = databaseConnection driver ∧
  pool (releaseEach indices driver).1 = pool driver ∧
  nextRef (releaseEach indices driver).1 = nextRef driver ∧
  databaseConnectionPool (releaseEach indices driver).1
    `sublist_of` databaseConnectionPool driver.
Proof.
  revert driver. induction indices as [|k indices IH]; intros driver; [done|].
  simpl. destruct (databaseConnectionPool driver !! k) as [entry|]; [|apply IH].
  specialize (IH (releaseCallback entry driver).1).
  destruct (releaseEach indices (releaseCallback entry driver).1) as [driver' calls']
    eqn:Hrest.
  unfold releaseCallback in *. simpl in *. rewrite Hrest. simpl.
  destruct IH as (H1 & H2 & H3 & H4). repeat split; [done..|].
  etrans; [exact H4|]. unfold splice.
  destruct (indexOf entry (databaseConnectionPool driver)); apply sublist_delete.
Qed.

(** With a pool, [disconnect] resolves and leaves the driver without pool,
    without connection and with an empty list; but of the connections taken
    from the pool it releases those at the even positions of the list only,
    because each release removes a connection from the list that [forEach]
    is going through. *)
Theorem disconnect_releases_every_other (driver : Driver) (poolHandle : Handle) :
  pool driver = Some poolHandle →
  NoDup (ref <$> databaseConnectionPool driver) →
  disconnect driver =
    (Resolves tt,
     {| databaseConnection := None; pool := None; databaseConnectionPool := [];
        nextRef := nextRef driver |},
     match databaseConnection driver with
     | Some active => [ClientEnd (connection active)]
     | None => []
     end ++
     ((fun entry => Release (connection entry)) <$>
        evens (databaseConnectionPool driver)) ++
     [PoolEnd poolHandle]).
Proof.
  intros Hpool Hnodup. unfold disconnect. rewrite Hpool.
  destruct (databaseConnection driver) as [active|] eqn:Hactive.
  - rewrite releaseEach_all by done. done.
  - rewrite releaseEach_all by done. simpl. by rewrite Hpool, Hactive.
Qed.

(** Without a pool, [disconnect] ends the connection and then rejects with a
    TypeError, for it calls [end] on the pool that is not there; the driver
    is left without connection, so that a second [disconnect] throws and
    [createQueryRunner] rejects, both with ConnectionIsNotSetError. *)
Theorem disconnect_without_pool_rejects (driver : Driver)
    (active : DatabaseConnection) (answer : string + Handle) :
  databaseConnection driver = Some active →
  pool driver = None →
  ∃ driver' calls,
    disconnect driver = (Rejects JsTypeError, driver', ClientEnd (connection active) :: calls) ∧
    disconnect driver' = (ThrowsError ConnectionIsNotSetError, driver', []) ∧
    createQueryRunner answer driver' = (Rejects ConnectionIsNotSetError, driver').
Proof.
  intros Hactive Hpool. unfold disconnect at 1. rewrite Hactive, Hpool.
  cbn [databaseConnectionPool].
  pose proof (releaseEach_fields
                (seq 0 (length (databaseConnectionPool driver)))
                {| databaseConnection := None; pool := None;
                   databaseConnectionPool := databaseConnectionPool driver;
                   nextRef := nextRef driver |}) as (H1 & H2 & _).
  destruct (releaseEach _ _) as [driver2 calls2]. simpl in H1, H2.
  rewrite H2. exists driver2, calls2. split; [done|].
  unfold disconnect, createQueryRunner. by rewrite H1, H2.
Qed.

Lemma poolCoherent_sublist (driver driver' : Driver) :
  poolCoherent driver →
  databaseConnectionPool driver' `sublist_of` databaseConnectionPool driver →
  nextRef driver ≤ nextRef driver' →
  poolCoherent driver'.
Proof.
  intros (Hrefs & Hclients & Hbound) Hsub Hnext. repeat split.
  - eapply sublist_NoDup; [exact Hrefs|]. by apply fmap_sublist.
  - eapply sublist_NoDup; [exact Hclients|]. by apply fmap_sublist.
  - apply Forall_forall. intros entry Hentry.
    eapply elem_of_sublist in Hentry; [|exact Hsub].
    rewrite Forall_forall in Hbound. specialize (Hbound entry Hentry). lia.
Qed.

Lemma retrieve_coherent (answer : string + Handle) (driver : Driver) :
  poolCoherent driver → poolCoherent (retrieveDatabaseConnection answer driver).2.
Proof.
  intros Hcoherent. unfold retrieveDatabaseConnection.
  destruct (pool driver) as [poolHandle|];
    [|by destruct (databaseConnection driver)].
  destruct answer as [err|client]; [done|].
  destruct (list_find _ _) as [[i entry]|] eqn:Hfind; [done|].
  destruct Hcoherent as (Hrefs & Hclients & Hbound).
  rewrite list_find_None in Hfind. rewrite Forall_forall in Hfind, Hbound.
  unfold poolCoherent. simpl. rewrite !fmap_app. simpl. repeat split.
  - apply NoDup_app. split; [done|]. split; [|apply NoDup_singleton].
    intros r Hr Hr'. apply list_elem_of_singleton in Hr'. subst r.
    apply list_elem_of_fmap in Hr as (entry & Href & Hentry).
    specialize (Hbound entry Hentry). lia.
  - apply NoDup_app. split; [done|]. split; [|apply NoDup_singleton].
    intros c Hc Hc'. apply list_elem_of_singleton in Hc'. subst c.
    apply list_elem_of_fmap in Hc as (entry & Hclient & Hentry).
    by apply (Hfind entry Hentry).
  - apply Forall_app. split.
    + apply Forall_forall. intros entry Hentry. specialize (Hbound entry Hentry). lia.
    + apply Forall_singleton. simpl. lia.
Qed.

Lemma perform_coherent (driver : Driver) (operation : Operation) :
  poolCoherent driver → poolCoherent (perform driver operation).
Proof.
  intros Hcoherent.
  destruct operation as [usePool created connectError| |answer|answer|entry]; simpl.
  - apply (poolCoherent_sublist driver); [done|..];
      destruct usePool as [[|]|]; simpl; (done || lia).
  - unfold disconnect.
    destruct (databaseConnection driver) as [active|] eqn:Hactive.
    + pose proof (releaseEach_fields
                    (seq 0 (length (databaseConnectionPool driver)))
                    {| databaseConnection := None; pool := pool driver;
                       databaseConnectionPool := databaseConnectionPool driver;
                       nextRef := nextRef driver |}) as (_ & _ & Hnext & Hsub).
      cbn [databaseConnectionPool].
      destruct (releaseEach _ _) as [driver2 calls2]. simpl in Hnext, Hsub.
      destruct (pool driver2).
      * simpl. repeat split; simpl; constructor.
      * simpl. apply (poolCoherent_sublist driver); [done|done|lia].
    + destruct (pool driver) as [poolHandle|] eqn:Hpool; [|done].
      pose proof (releaseEach_fields
                    (seq 0 (length (databaseConnectionPool driver))) driver)
        as (_ & _ & Hnext & Hsub).
      destruct (releaseEach _ _) as [driver2 calls2]. simpl in Hnext, Hsub.
      destruct (pool driver2).
      * simpl. repeat split; simpl; constructor.
      * simpl. apply (poolCoherent_sublist driver); [done|done|lia].
  - unfold createQueryRunner.
    pose proof (retrieve_coherent answer driver Hcoherent) as Hretrieve.
    destruct (databaseConnection driver), (pool driver);
      try done; by destruct (retrieveDatabaseConnection answer driver) as [[]].
  - by apply retrieve_coherent.
  - apply (poolCoherent_sublist driver); [done| |done]. simpl. unfold splice.
    destruct (indexOf entry (databaseConnectionPool driver)); apply sublist_delete.
Qed.

(** Whatever is called on a driver, and whatever the pg library answers, the
    list of the connections taken from the pool never holds two entries for
    one client, nor one entry twice. *)
Theorem pool_list_keeps_one_entry_per_client (operations : list Operation) :
  poolCoherent (foldl perform newDriver operations).
Proof.
  assert (∀ driver, poolCoherent driver →
                    poolCoherent (foldl perform driver operations)) as Hall.
  { induction operations as [|operation operations IH]; intros driver Hdriver;
      [done|].
    simpl. by apply IH, perform_coherent. }
  apply Hall. repeat split; simpl; constructor.
Qed.

(** Asked for a client of the pool and then releasing it, the driver is left
    with the entries of the other clients, in their order: a new entry is
    taken off again, and an entry the list had for the client is taken off
    as well. *)
Theorem retrieve_then_release (driver : Driver) (poolHandle client : Handle) :
  pool driver = Some poolHandle →
  poolCoherent driver →
  ∃ entry driver',
    retrieveDatabaseConnection (inr client) driver = (Resolves entry, driver') ∧
    connection entry = client ∧
    releaseCallback entry driver' =
      (withConnections driver'
         (filter (fun other => connection other ≠ client)
            (databaseConnectionPool driver)),
       [Release client]).
Proof.
  intros Hpool (Hrefs & Hclients & Hbound).
  assert (∀ entries : list DatabaseConnection,
            client ∉ connection <$> entries →
            filter (fun other => connection other ≠ client) entries = entries)
    as Hothers.
  { induction entries as [|other entries IH]; [done|]. rewrite fmap_cons.
    intros [Hother Hrest]%not_elem_of_cons.
    rewrite filter_cons_True by done. by rewrite IH. }
  unfold retrieveDatabaseConnection. rewrite Hpool.
  destruct (list_find _ _) as [[i entry]|] eqn:Hfind.
  - apply list_find_Some in Hfind as (Hi & Hclient & _).
    apply list_elem_of_split_length in Hi as (before & after & Hentries & _).
    exists entry, driver. split; [done|]. split; [done|].
    rewrite (releaseCallback_present driver before after) by by rewrite <- ?Hentries.
    rewrite Hclient. do 2 f_equal. rewrite Hentries in Hclients |- *.
    rewrite fmap_app, fmap_cons in Hclients.
    apply NoDup_app in Hclients as (_ & Hdisjoint & [Hafter _]%NoDup_cons).
    rewrite filter_app, filter_cons_False by (intros Hne; by apply Hne).
    rewrite !Hothers; [done|by rewrite <- Hclient|].
    intros Hbefore. apply (Hdisjoint _ Hbefore). rewrite Hclient. left.
  - apply list_find_None in Hfind. rewrite Forall_forall in Hfind.
    eexists _, _. split; [done|]. split; [done|].
    erewrite (releaseCallback_present _ (databaseConnectionPool driver) []); cycle 1.
    { done. }
    { rewrite fmap_app. simpl. apply NoDup_app. split; [done|].
      split; [|apply NoDup_singleton].
      intros r Hr Hr'. apply list_elem_of_singleton in Hr'. subst r.
      apply list_elem_of_fmap in Hr as (other & Href & Hother).
      rewrite Forall_forall in Hbound. specialize (Hbound other Hother). lia. }
    simpl. rewrite app_nil_r. do 2 f_equal. symmetry. apply Hothers.
    intros (other & Hclient & Hother)%list_elem_of_fmap.
    by apply (Hfind other Hother).
Qed.

(** Asked twice for the same client, the driver answers with the same
    connection and adds nothing to the list the second time. *)
Theorem retrieve_twice_same_connection (driver : Driver) (poolHandle client : Handle)
    (entry : DatabaseConnection) (driver' : Driver) :
  pool driver = Some poolHandle →
  retrieveDatabaseConnection (inr client) driver = (Resolves entry, driver') →
  retrieveDatabaseConnection (inr client) driver' = (Resolves entry, driver').
Proof.
  intros Hpool. unfold retrieveDatabaseConnection. rewrite Hpool.
  destruct (list_find _ (databaseConnectionPool driver)) as [[i found]|] eqn:Hfind.
  - intros [= Hentry Hdriver]. subst entry driver'. by rewrite Hpool, Hfind.
  - intros [= Hentry Hdriver]. subst entry driver'. simpl.
    rewrite list_find_app_r by done. simpl. by rewrite decide_True.
Qed.


Lemma disconnect_releases_every_other_witness :
  disconnect threeTaken =
    (Resolves tt,
     {| databaseConnection := None; pool := None; databaseConnectionPool := [];
        nextRef := 3 |},
     [Release 1; Release 3; PoolEnd 100]).
Proof.
  apply (disconnect_releases_every_other threeTaken 100).
  - reflexivity.
  - apply (bool_decide_unpack _). by vm_compute.
Defined.

Lemma disconnect_without_pool_rejects_witness :
  ∃ driver' calls,
    disconnect withoutPool = (Rejects JsTypeError, driver', ClientEnd 7 :: calls) ∧
    disconnect driver' = (ThrowsError ConnectionIsNotSetError, driver', []) ∧
    createQueryRunner (inr 1) driver' = (Rejects ConnectionIsNotSetError, driver').
Proof.
  apply (disconnect_without_pool_rejects withoutPool
           {| ref := 0; id := 1; connection := 7; isTransactionActive := false |}
           (inr 1)); reflexivity.
Defined.

Lemma retrieve_then_release_witness :
  ∃ entry driver',
    retrieveDatabaseConnection (inr 2) threeTaken = (Resolves entry, driver') ∧
    connection entry = 2 ∧
    releaseCallback entry driver' =
      (withConnections driver'
         [{| ref := 0; id := 0; connection := 1; isTransactionActive := false |};
          {| ref := 2; id := 2; connection := 3; isTransactionActive := false |}],
       [Release 2]).
Proof.
  apply (retrieve_then_release threeTaken 100 2).
  - reflexivity.
  - repeat split.
    + apply (bool_decide_unpack _). by vm_compute.
    + apply (bool_decide_unpack _). by vm_compute.
    + vm_compute. repeat constructor.
Defined.

Lemma retrieve_twice_same_connection_witness :
  retrieveDatabaseConnection (inr 4)
    (retrieveDatabaseConnection (inr 4) threeTaken).2 =
  retrieveDatabaseConnection (inr 4) threeTaken.
Proof.
  apply (retrieve_twice_same_connection threeTaken 100 4); reflexivity.
Defined.


End PostgresDriverFacts.

